(** * The link list view of the links plugin (console/src/views/LinkList.vue)

    A shallow embedding of the script part of the view: the reactive
    references of the component become one record, the Link objects it
    shares between the page, the search index and the selection live in
    a store addressed by object identity, and every handler is a
    computation in a small state-and-exception monad that also logs the
    effects the handler has on the outside (requests, console output,
    the loading flag, the download).

    Conventions.
    - The refs that only the template reads ([drag], [editingModal],
      [checkedAll]) are left out, and so is the import handler.
    - A handler runs to completion: nothing else is interleaved at its
      [await]s.  What the network does is fixed by an environment that
      answers the n-th request issued and says in which order answers
      arrive.
    - Numbers are mathematical integers ([Z]); the priorities and page
      numbers the view handles are small integers, on which the
      arithmetic of the source ([a - b], [|| 0]) is exact. *)

From stdpp Require Import base option list strings numbers sorting.
From Stdlib Require Import ZArith Lia Ascii.

Open Scope string_scope.
Open Scope list_scope.
Open Scope Z_scope.
Open Scope nat_scope.

(** ** Data model (the shapes the code reads and the guards it tests) *)

Record Metadata := {
  name : string;
  creationTimestamp : option string;
  deletionTimestamp : option string;
}.

Record LinkSpec := {
  displayName : string;
  url : string;
  description : option string;
  logo : option string;
  priority : option Z;
}.

(** [link.spec] is tested before it is written ([if (link.spec)]) and
    read through [?.] in the comparator, so it is optional here. *)
Record Link := {
  link_metadata : Metadata;
  link_spec : option LinkSpec;
}.

Record LinkGroupSpec := {
  group_displayName : string;
  group_priority : option Z;
  group_links : option (list string);
}.

(** [selectedGroup.value?.spec?.links]: every step may be missing. *)
Record LinkGroup := {
  group_metadata : Metadata;
  group_spec : option LinkGroupSpec;
}.

(** The page object: the server's answer carries Link records, the
    view's copy holds references to the objects made from them. *)
Record LinkList (A : Type) := {
  page : Z;
  size : Z;
  total : Z;
  items : list A;
  first : bool;
  last : bool;
  hasNext : bool;
  hasPrevious : bool;
  totalPages : Z;
}.
Arguments page {A} _.
Arguments size {A} _.
Arguments total {A} _.
Arguments items {A} _.
Arguments first {A} _.
Arguments last {A} _.
Arguments hasNext {A} _.
Arguments hasPrevious {A} _.
Arguments totalPages {A} _.

Definition with_items {A B} (d : LinkList A) (xs : list B) : LinkList B :=
  {| page := page d; size := size d; total := total d; items := xs;
     first := first d; last := last d; hasNext := hasNext d;
     hasPrevious := hasPrevious d; totalPages := totalPages d |}.

Definition with_page {A} (d : LinkList A) (p : Z) : LinkList A :=
  {| page := p; size := size d; total := total d; items := items d;
     first := first d; last := last d; hasNext := hasNext d;
     hasPrevious := hasPrevious d; totalPages := totalPages d |}.

Definition with_size {A} (d : LinkList A) (s : Z) : LinkList A :=
  {| page := page d; size := s; total := total d; items := items d;
     first := first d; last := last d; hasNext := hasNext d;
     hasPrevious := hasPrevious d; totalPages := totalPages d |}.

Definition link_name (v : Link) : string := name (link_metadata v).
Definition group_name (g : LinkGroup) : string := name (group_metadata g).

(** [link.spec?.priority] *)
Definition link_priority (v : Link) : option Z :=
  match link_spec v with Some s => priority s | None => None end.

(** [x || 0] on an optional integer: [undefined] and [0] both give 0. *)
Definition or_zero (p : option Z) : Z :=
  match p with Some z => z | None => 0%Z end.

(** [a.spec?.priority || 0], the key the comparator of the fetch reads. *)
Definition sort_key (v : Link) : Z := or_zero (link_priority v).

Definition set_priority (p : Z) (v : Link) : Link :=
  match link_spec v with
  | Some s =>
      {| link_metadata := link_metadata v;
         link_spec := Some {| displayName := displayName s; url := url s;
                              description := description s; logo := logo s;
                              priority := Some p |} |}
  | None => v
  end.

(** [selectedGroup.value?.spec?.links] *)
Definition membership (g : option LinkGroup) : option (list string) :=
  match g with
  | Some g => match group_spec g with
              | Some s => group_links s
              | None => None
              end
  | None => None
  end.

(** ** Requests, answers and logged effects *)

Inductive Method := GET | PUT | DELETE.

Record Params := {
  param_page : Z;
  param_size : Z;
  param_fieldSelector : string;
}.

Inductive Body :=
  | NoBody
  | LinkBody (v : Link)
  | GroupBody (g : LinkGroup).

Record Request := {
  method : Method;
  target : string;
  params : option Params;
  body : Body;
}.

Inductive Payload :=
  | LinkListPayload (d : LinkList Link)
  | OtherPayload.

Inductive Outcome :=
  | Fulfilled (p : Payload)
  | Rejected.

Inductive Error :=
  | TypeError (msg : string)
  | RequestFailed (id : nat).

Inductive Event :=
  | EvRequest (id : nat) (r : Request)
  | EvSettled (id : nat) (ok : bool)
  | EvLoading (b : bool)
  | EvConsoleError (label : option string) (e : Error)
  | EvDownload (filename mime content : string).

(** The environment of one run: the outcome of the request with a given
    sequence number, the instant its answer arrives (ties are broken by
    the sequence number), and what the group list leaves selected when
    it has reloaded. *)
Record Env := {
  reply : nat -> Outcome;
  arrival : nat -> nat;
  reselect : nat -> option LinkGroup -> option LinkGroup;
}.

(** ** The component *)

(** Object identity: the position of the object in the store. *)
Abbreviation loc := nat (only parsing).

(** What [new Fuse(links.value.items, ...)] keeps: the array it was
    given and the field values it indexed at that moment. *)
Record Fuse := {
  docs : list loc;
  records : list Link;
}.

Record World := {
  heap : list Link;
  links : LinkList loc;
  loading : bool;
  selectedLink : option loc;
  selectedLinks : list string;
  selectedGroup : option LinkGroup;
  keyword : string;
  fuse : option Fuse;
  trace : list Event;
  issued : nat;
}.

Definition set_heap (h : list Link) (w : World) : World :=
  {| heap := h; links := links w; loading := loading w;
     selectedLink := selectedLink w; selectedLinks := selectedLinks w;
     selectedGroup := selectedGroup w; keyword := keyword w; fuse := fuse w;
     trace := trace w; issued := issued w |}.

Definition set_links (l : LinkList loc) (w : World) : World :=
  {| heap := heap w; links := l; loading := loading w;
     selectedLink := selectedLink w; selectedLinks := selectedLinks w;
     selectedGroup := selectedGroup w; keyword := keyword w; fuse := fuse w;
     trace := trace w; issued := issued w |}.

Definition set_loading (b : bool) (w : World) : World :=
  {| heap := heap w; links := links w; loading := b;
     selectedLink := selectedLink w; selectedLinks := selectedLinks w;
     selectedGroup := selectedGroup w; keyword := keyword w; fuse := fuse w;
     trace := trace w; issued := issued w |}.

Definition set_selectedLink (s : option loc) (w : World) : World :=
  {| heap := heap w; links := links w; loading := loading w;
     selectedLink := s; selectedLinks := selectedLinks w;
     selectedGroup := selectedGroup w; keyword := keyword w; fuse := fuse w;
     trace := trace w; issued := issued w |}.

Definition set_selectedGroup (g : option LinkGroup) (w : World) : World :=
  {| heap := heap w; links := links w; loading := loading w;
     selectedLink := selectedLink w; selectedLinks := selectedLinks w;
     selectedGroup := g; keyword := keyword w; fuse := fuse w;
     trace := trace w; issued := issued w |}.

Definition set_fuse (f : option Fuse) (w : World) : World :=
  {| heap := heap w; links := links w; loading := loading w;
     selectedLink := selectedLink w; selectedLinks := selectedLinks w;
     selectedGroup := selectedGroup w; keyword := keyword w; fuse := f;
     trace := trace w; issued := issued w |}.

Definition set_keyword (k : string) (w : World) : World :=
  {| heap := heap w; links := links w; loading := loading w;
     selectedLink := selectedLink w; selectedLinks := selectedLinks w;
     selectedGroup := selectedGroup w; keyword := k; fuse := fuse w;
     trace := trace w; issued := issued w |}.

Definition set_selectedLinks (s : list string) (w : World) : World :=
  {| heap := heap w; links := links w; loading := loading w;
     selectedLink := selectedLink w; selectedLinks := s;
     selectedGroup := selectedGroup w; keyword := keyword w; fuse := fuse w;
     trace := trace w; issued := issued w |}.

Definition log (evs : list Event) (w : World) : World :=
  {| heap := heap w; links := links w; loading := loading w;
     selectedLink := selectedLink w; selectedLinks := selectedLinks w;
     selectedGroup := selectedGroup w; keyword := keyword w; fuse := fuse w;
     trace := trace w ++ evs; issued := issued w |}.

Definition set_issued (n : nat) (w : World) : World :=
  {| heap := heap w; links := links w; loading := loading w;
     selectedLink := selectedLink w; selectedLinks := selectedLinks w;
     selectedGroup := selectedGroup w; keyword := keyword w; fuse := fuse w;
     trace := trace w; issued := n |}.

(** The refs as the script initialises them. *)
Definition initial : World :=
  {| heap := [];
     links := {| page := 1; size := 20; total := 0; items := [];
                 first := true; last := false; hasNext := false;
                 hasPrevious := false; totalPages := 0 |};
     loading := false;
     selectedLink := None;
     selectedLinks := [];
     selectedGroup := None;
     keyword := "";
     fuse := None;
     trace := [];
     issued := 0 |}.

(** Values of the page, read through the references. *)
Definition page_values (w : World) : list Link :=
  omap (fun l => heap w !! l) (items (links w)).

(** Every reference the component holds points at an object. *)
Definition valid (w : World) : Prop :=
  Forall (fun l => l < length (heap w)) (items (links w)).

(** ** The monad of handlers *)

Inductive Result (A : Type) :=
  | Ok (a : A)
  | Throw (e : Error).
Arguments Ok {A} a.
Arguments Throw {A} e.

Definition M (A : Type) : Type := World -> Result A * World.

Definition ret {A} (a : A) : M A := fun w => (Ok a, w).

Definition bind {A B} (m : M A) (k : A -> M B) : M B :=
  fun w => match m w with
           | (Ok a, w') => k a w'
           | (Throw e, w') => (Throw e, w')
           end.

Definition throw {A} (e : Error) : M A := fun w => (Throw e, w).

Definition get : M World := fun w => (Ok w, w).

Definition modify (f : World -> World) : M unit := fun w => (Ok tt, f w).

Definition emit (evs : list Event) : M unit := modify (log evs).

Declare Scope handler_scope.
Delimit Scope handler_scope with handler.
Notation "x <- m ;; k" := (bind m (fun x => k))
  (at level 100, m at next level, right associativity) : handler_scope.
Notation "m ;; k" := (bind m (fun _ => k))
  (at level 100, right associativity) : handler_scope.
Open Scope handler_scope.

(** [try { body } catch (e) { handler } finally { fin }] *)
Definition try_catch_finally {A} (body : M A) (handler : Error -> M A)
    (fin : M unit) : M A :=
  fun w =>
    let '(r, w1) :=
      match body w with
      | (Ok a, w1) => (Ok a, w1)
      | (Throw e, w1) => handler e w1
      end in
    match fin w1 with
    | (Ok _, w2) => (r, w2)
    | (Throw e, w2) => (Throw e, w2)
    end.

(** Calling an async function without awaiting it: its effects happen,
    its completion (normal or not) is not seen by the caller. *)
Definition unawaited {A} (m : M A) : M unit :=
  fun w => (Ok tt, snd (m w)).

Definition exec {A} (m : M A) (w : World) : World := snd (m w).
Definition outcome {A} (m : M A) (w : World) : Result A := fst (m w).

(** The events a run added to the log. *)
Definition news (w w' : World) : list Event :=
  drop (length (trace w)) (trace w').

(** ** Array.prototype.sort

    The sort of the language is stable and orders by the sign of the
    comparator.  For a comparator that is a difference of keys every
    stable sort returns the same array, so one stable algorithm stands
    for all of them: straight insertion, an element going in front of
    the first one it is not greater than. *)
Section ArraySort.
Context {A : Type} (compare : A -> A -> Z).

Fixpoint insert_sorted (x : A) (l : list A) : list A :=
  match l with
  | [] => [x]
  | y :: t =>
      if (compare x y <=? 0)%Z then x :: y :: t
      else y :: insert_sorted x t
  end.

Definition array_sort (l : list A) : list A := foldr insert_sorted [] l.
End ArraySort.

(** [Array.prototype.findIndex]: the first position that satisfies the
    test, [-1] when none does. *)
Fixpoint findIndex {A} (test : A -> bool) (l : list A) : Z :=
  match l with
  | [] => (-1)%Z
  | x :: t =>
      if test x then 0%Z
      else let i := findIndex test t in
           if (i <? 0)%Z then (-1)%Z else (i + 1)%Z
  end.

(** [array[i]] for a number [i]: [undefined] outside the array. *)
Definition index {A} (l : list A) (i : Z) : option A :=
  if (i <? 0)%Z then None else l !! Z.to_nat i.

(** ** Primitive effects *)

Definition when (b : bool) (m : M unit) : M unit :=
  if b then m else ret tt.

Fixpoint for_each {A} (f : A -> M unit) (l : list A) : M unit :=
  match l with
  | [] => ret tt
  | x :: t => f x ;; for_each f t
  end.

(** [loading.value = b] *)
Definition loading_value (b : bool) : M unit :=
  modify (fun w => log [EvLoading b] (set_loading b w)).

(** [console.error(label?, e)] *)
Definition console_error (label : option string) (e : Error) : M unit :=
  emit [EvConsoleError label e].

(** [apiClient.get/put/delete(...)]: the request leaves, the promise is
    known by the sequence number of the request. *)
Definition request (r : Request) : M nat :=
  fun w => (Ok (issued w),
            set_issued (S (issued w)) (log [EvRequest (issued w) r] w)).

(** The objects a response is parsed into are new ones. *)
Definition alloc (vs : list Link) : M (list loc) :=
  fun w => (Ok (seq (length (heap w)) (length vs)),
            set_heap (heap w ++ vs) w).

(** Reading through a reference. *)
Definition deref (l : loc) : M Link :=
  fun w => match heap w !! l with
           | Some v => (Ok v, w)
           | None => (Throw (TypeError "undefined"), w)
           end.

(** Writing a field of the object a reference points at. *)
Definition update (l : loc) (f : Link -> Link) : M unit :=
  v <- deref l ;;
  modify (fun w => set_heap (<[l := f v]> (heap w)) w).

(** [new Fuse(links.value.items, { keys: [...] })] *)
Definition new_Fuse (w : World) : Fuse :=
  {| docs := items (links w); records := page_values w |}.

(** [links.value = l]: replacing the page object is what the watcher on
    [links.value] reacts to, by rebuilding the index. *)
Definition assign_links (l : LinkList loc) : M unit :=
  modify (fun w => let w' := set_links l w in set_fuse (Some (new_Fuse w')) w').

Section Handlers.
Context (env : Env).

(** [await p] for the promise of one request. *)
Definition await (id : nat) : M Payload :=
  match reply env id with
  | Fulfilled p => emit [EvSettled id true] ;; ret p
  | Rejected => emit [EvSettled id false] ;; throw (RequestFailed id)
  end.

Definition rejected (id : nat) : bool :=
  match reply env id with Rejected => true | Fulfilled _ => false end.

(** The answer to [i] is there before the answer to [j]. *)
Definition earlier (i j : nat) : bool :=
  (arrival env i <? arrival env j)
  || ((arrival env i =? arrival env j) && (i <? j)).

(** The rejection that reaches [Promise.all] first, if any. *)
Fixpoint first_rejection (ids : list nat) : option nat :=
  match ids with
  | [] => None
  | i :: rest =>
      match first_rejection rest with
      | None => if rejected i then Some i else None
      | Some j => if rejected i && earlier i j then Some i else Some j
      end
  end.

(** [await Promise.all(promises)]: fulfilled once every promise is,
    rejected as soon as one of them is; the promises whose answer has
    not arrived by then stay pending. *)
Definition await_all (ids : list nat) : M unit :=
  match first_rejection ids with
  | None => emit (map (fun i => EvSettled i true) ids)
  | Some j =>
      emit (map (fun i => EvSettled i true)
                (filter (fun i => Is_true (earlier i j)) ids)
            ++ [EvSettled j false]) ;;
      throw (RequestFailed j)
  end.

(** *** handleFetchLinks (lines 54-97) *)

Record FetchOptions := {
  mute : option bool;
  fetch_page : option Z;
}.

(** [options?.mute] as a condition *)
Definition muted (options : option FetchOptions) : bool :=
  match options with
  | Some o => match mute o with Some b => b | None => false end
  | None => false
  end.

(** [options?.page] as a condition: a number other than 0 *)
Definition page_option (options : option FetchOptions) : option Z :=
  match options with
  | Some o => match fetch_page o with
              | Some p => if (p =? 0)%Z then None else Some p
              | None => None
              end
  | None => None
  end.

(** [a.spec?.priority || 0] for the object behind a reference. *)
Definition priority_at (h : list Link) (l : loc) : Z :=
  from_option sort_key 0%Z (h !! l).

(** The comparator of the fetch, on references. *)
Definition by_priority (h : list Link) (a b : loc) : Z :=
  (priority_at h a - priority_at h b)%Z.

(** [if (link.spec) { link.spec.priority = link.spec.priority || 0 }] *)
Definition with_default_priority (v : Link) : Link :=
  set_priority (or_zero (link_priority v)) v.

(** The callback of [data.items.map]: the link it is given is written
    in place and returned. *)
Definition default_priority (l : loc) : M unit :=
  update l with_default_priority.

Definition links_url : string := "/apis/core.halo.run/v1alpha1/links".

(** [`name=(${names.join(",")})`] *)
Definition field_selector (names : list string) : string :=
  "name=(" +:+ String.concat "," names +:+ ")".

(** The list request: the paging of the page object and the selector
    of the group's members. *)
Definition list_request (l : LinkList loc) (names : list string) : Request :=
  {| method := GET;
     target := links_url;
     params := Some {| param_page := page l;
                       param_size := size l;
                       param_fieldSelector := field_selector names |};
     body := NoBody |}.

Definition handleFetchLinks (options : option FetchOptions) : M unit :=
  try_catch_finally
    (when (negb (muted options)) (loading_value true) ;;
     match page_option options with
     | Some p => modify (fun w => set_links (with_page (links w) p) w)
     | None => ret tt
     end ;;
     w <- get ;;
     match membership (selectedGroup w) with
     | None => ret tt
     | Some names =>
         id <- request (list_request (links w) names) ;;
         p <- await id ;;
         match p with
         | OtherPayload => throw (TypeError "data.items is undefined")
         | LinkListPayload data =>
             ls <- alloc (items data) ;;
             for_each default_priority ls ;;
             w' <- get ;;
             assign_links
               (with_items data (array_sort (by_priority (heap w')) ls))
         end
     end)
    (fun e => console_error (Some "Failed to fetch links") e)
    (loading_value false).

(** *** handlePaginationChange (lines 99-109) *)

Definition handlePaginationChange (page size : Z) : M unit :=
  modify (fun w => set_links (with_page (links w) page) w) ;;
  modify (fun w => set_links (with_size (links w) size) w) ;;
  unawaited (handleFetchLinks None).

(** *** handleSelectPrevious, handleSelectNext (lines 111-137) *)

(** [selectedLink.value?.metadata.name] *)
Definition selected_name (w : World) : option string :=
  match selectedLink w with
  | Some l => link_name <$> heap w !! l
  | None => None
  end.

(** [(link) => link.metadata.name === selectedLink.value?.metadata.name] *)
Definition is_selected (w : World) (l : loc) : bool :=
  match heap w !! l, selected_name w with
  | Some v, Some n => String.eqb (link_name v) n
  | _, _ => false
  end.

Definition handleSelectPrevious : M unit :=
  w <- get ;;
  let currentIndex := findIndex (is_selected w) (items (links w)) in
  if (0 <? currentIndex)%Z then
    modify (set_selectedLink (index (items (links w)) (currentIndex - 1)))
  else if (currentIndex <=? 0)%Z then
    modify (set_selectedLink None)
  else ret tt.

Definition handleSelectNext : M unit :=
  w <- get ;;
  match selectedLink w with
  | None => modify (set_selectedLink (index (items (links w)) 0))
  | Some _ =>
      let currentIndex := findIndex (is_selected w) (items (links w)) in
      if (currentIndex =? Z.of_nat (length (items (links w))) - 1)%Z then
        ret tt
      else
        modify (set_selectedLink (index (items (links w)) (currentIndex + 1)))
  end.

(** *** handleOpenCreateModal (lines 139-142); the modal flag is not
    modelled. *)
Definition handleOpenCreateModal (link : loc) : M unit :=
  modify (set_selectedLink (Some link)).

(** *** handleSaveInBatch (lines 144-163) *)

Definition link_url (n : string) : string := links_url +:+ "/" +:+ n.

(** The callback of [links.value.items.map]: write the position into
    the link, send the link. *)
Definition save_link (position : nat) (l : loc) : M nat :=
  update l (set_priority (Z.of_nat position)) ;;
  v <- deref l ;;
  request {| method := PUT; target := link_url (link_name v);
             params := None; body := LinkBody v |}.

(** [array.map((x, index) => ...)] with an effectful callback. *)
Fixpoint map_indexed {A B} (f : nat -> A -> M B) (i : nat) (l : list A)
    : M (list B) :=
  match l with
  | [] => ret []
  | x :: t => y <- f i x ;; ys <- map_indexed f (S i) t ;; ret (y :: ys)
  end.

(** [{ mute: true }] *)
Definition muted_refetch : option FetchOptions :=
  Some {| mute := Some true; fetch_page := None |}.

(** [if (promises)] holds for every array, the empty one included. *)
Definition handleSaveInBatch : M unit :=
  try_catch_finally
    (w <- get ;;
     promises <- map_indexed save_link 0 (items (links w)) ;;
     await_all promises)
    (fun e => console_error None e)
    (handleFetchLinks muted_refetch).

(** *** searchResults (lines 298-328) *)

(** The matcher of fuse.js: for a keyword and the indexed records, the
    positions ([refIndex]) of the matches, best first.  Its result
    items are [docs[refIndex]]. *)
Context (fuse_match : string -> list Link -> list nat).

Definition fuse_search (f : Fuse) (kw : string) : list loc :=
  omap (fun i => docs f !! i) (fuse_match kw (records f)).

(** What a computed keeps of a run of its getter: the value returned
    and the refs the run has read.  [keyword] and [links] are refs;
    [fuse] is a plain variable (line 300): reading it subscribes the
    view to nothing. *)
Record Cached := {
  cached_value : list loc;
  on_links : bool;
  on_keyword : bool;
}.

(** One run of the getter (lines 318-324): the value it returns and the
    refs it has read on the way.  [!fuse || !keyword.value] reads
    [keyword.value] only when there is an index; [links.value.items] is
    read on the first branch only.  On the second branch the index
    hands out [docs[refIndex]], elements of an array that is never
    written in place. *)
Definition searchResults_get (w : World) : Cached :=
  match fuse w with
  | None =>
      {| cached_value := items (links w); on_links := true; on_keyword := false |}
  | Some f =>
      if String.eqb (keyword w) ""
      then {| cached_value := items (links w); on_links := true; on_keyword := true |}
      else {| cached_value := fuse_search f (keyword w);
              on_links := false; on_keyword := true |}
  end.

(** The component with its computed view.  [computed] keeps the value
    of the last run of its getter and runs the getter again at a read
    only after one of the refs that last run has read was written:
    [cache] is [None] when the view has not been read yet or such a
    write has happened since. *)
Record View := {
  refs : World;
  cache : option Cached;
}.

(** The component as [setup] leaves it: the view not read yet. *)
Definition mount (w : World) : View := {| refs := w; cache := None |}.

(** [searchResults.value], as the template reads it. *)
Definition searchResults (v : View) : list loc * View :=
  match cache v with
  | Some c => (cached_value c, v)
  | None =>
      let c := searchResults_get (refs v) in
      (cached_value c, {| refs := refs v; cache := Some c |})
  end.

(** A write to [links.value] or to a property of the page object the
    getter has read, and a write to [keyword.value]. *)
Definition trigger_links (v : View) : View :=
  match cache v with
  | Some c => if on_links c then {| refs := refs v; cache := None |} else v
  | None => v
  end.

Definition trigger_keyword (v : View) : View :=
  match cache v with
  | Some c => if on_keyword c then {| refs := refs v; cache := None |} else v
  | None => v
  end.

(** The search input ([v-model="keyword"]): [keyword.value = kw].  A
    ref triggers when the value assigned differs from the one it
    holds. *)
Definition keyword_input (kw : string) (v : View) : View :=
  if String.eqb kw (keyword (refs v)) then v
  else trigger_keyword {| refs := set_keyword kw (refs v); cache := cache v |}.

(** The setter: [links.value.items = value]. *)
Definition searchResults_set (value : list loc) : M unit :=
  modify (fun w => set_links (with_items (links w) value) w).

(** A drag that ends: the list component hands the new sequence to the
    view ([v-model]) and then signals [change]. *)
Definition reorder (value : list loc) : M unit :=
  searchResults_set value ;; handleSaveInBatch.

(** Whether a run of [handleFetchLinks] started in [w] reaches the
    assignment [links.value = {...}] of line 75: there is a membership
    sequence and the answer is a link list. *)
Definition fetch_assigns (w : World) : bool :=
  match membership (selectedGroup w), reply env (issued w) with
  | Some _, Fulfilled (LinkListPayload _) => true
  | _, _ => false
  end.

(** The handlers in the component with its view.  The fetch writes
    [links.value] at line 75 or not at all ([links.value.page], which it
    may write, is not read by the getter); the setter always writes
    [links.value.items]. *)
Definition view_fetch (options : option FetchOptions) (v : View) : View :=
  let v' := {| refs := exec (handleFetchLinks options) (refs v);
               cache := cache v |} in
  if fetch_assigns (refs v) then trigger_links v' else v'.

Definition view_set (value : list loc) (v : View) : View :=
  trigger_links {| refs := exec (searchResults_set value) (refs v);
                   cache := cache v |}.

(** *** onLinkSaved (lines 165-179) *)

Definition groups_url : string := "/apis/core.halo.run/v1alpha1/linkgroups".
Definition group_url (n : string) : string := groups_url +:+ "/" +:+ n.

(** Records are values here, so the deep copy of a group is the group:
    what is written to the copy never reaches [selectedGroup]. *)
Definition cloneDeep {A} (x : A) : A := x.

(** [groupToUpdate.spec.links.push(n)], which reads [spec] and [links]
    unguarded. *)
Definition push_link (n : string) (g : LinkGroup) : M LinkGroup :=
  match group_spec g with
  | None => throw (TypeError "groupToUpdate.spec is undefined")
  | Some s =>
      match group_links s with
      | None => throw (TypeError "groupToUpdate.spec.links is undefined")
      | Some ms =>
          ret {| group_metadata := group_metadata g;
                 group_spec := Some
                   {| group_displayName := group_displayName s;
                      group_priority := group_priority s;
                      group_links := Some (ms ++ [n]) |} |}
      end
  end.

(** Modelled from the spec: [handleFetchGroups] of the group list
    (components/GroupList.vue, not among the sources).  It lists the
    groups with one request; failures are logged, not passed on (the
    error policy of the spec); which group is selected afterwards is
    the catalog's decision, given by the environment. *)
Definition handleFetchGroups : M unit :=
  id <- request {| method := GET; target := groups_url;
                   params := None; body := NoBody |} ;;
  try_catch_finally
    (_ <- await id ;; ret tt)
    (fun e => console_error (Some "Failed to fetch link groups") e)
    (modify (fun w => set_selectedGroup (reselect env id (selectedGroup w)) w)).

Definition onLinkSaved (link : Link) : M unit :=
  w <- get ;;
  match cloneDeep (selectedGroup w) with
  | Some g =>
      groupToUpdate <- push_link (link_name link) g ;;
      id <- request {| method := PUT;
                       target := group_url (group_name groupToUpdate);
                       params := None; body := GroupBody groupToUpdate |} ;;
      _ <- await id ;;
      ret tt
  | None => ret tt
  end ;;
  handleFetchGroups ;;
  handleFetchLinks None.

(** *** handleDelete (lines 181-198) *)

(** The [onConfirm] callback: neither the delete nor the refetch is
    awaited. *)
Definition handleDelete_onConfirm (link : Link) : M unit :=
  try_catch_finally
    (_ <- request {| method := DELETE; target := link_url (link_name link);
                     params := None; body := NoBody |} ;;
     ret tt)
    (fun e => console_error None e)
    (unawaited (handleFetchLinks None)).

(** The dialog runs the callback when the user confirms. *)
Definition handleDelete (confirmed : bool) (link : Link) : M unit :=
  when confirmed (handleDelete_onConfirm link).

(** *** handleDeleteInBatch (lines 200-220) *)

Definition handleDeleteInBatch_onConfirm : M unit :=
  try_catch_finally
    (w <- get ;;
     promises <- map_indexed
                   (fun _ n => request {| method := DELETE;
                                          target := link_url n;
                                          params := None; body := NoBody |})
                   0 (selectedLinks w) ;;
     await_all promises)
    (fun e => console_error None e)
    (handleFetchLinks None).

(** *** handleExportSelectedLinks (lines 222-240) *)

(** [yaml.stringify] *)
Context (yaml_stringify : Link -> string).

(** [selectedLinks.value.includes(n)] *)
Definition includes (sel : list string) (n : string) : bool :=
  existsb (String.eqb n) sel.

(** The callback of the [map]: a document for a selected link,
    [undefined] otherwise. *)
Definition export_entry (sel : list string) (v : Link) : option string :=
  if includes sel (link_name v) then Some (yaml_stringify v) else None.

(** [(link) => link] as a test: a non-empty string. *)
Definition truthy (o : option string) : bool :=
  match o with
  | Some s => negb (String.eqb s "")
  | None => false
  end.

(** The array after [.map(...).filter((link) => link)]. *)
Definition export_entries (w : World) : list (option string) :=
  List.filter truthy (map (export_entry (selectedLinks w)) (page_values w)).

(** [Array.prototype.join]: the elements separated by [sep], an
    [undefined] element printed as the empty string. *)
Definition join (sep : string) (xs : list (option string)) : string :=
  String.concat sep (map (fun o => match o with
                                   | Some s => s
                                   | None => ""
                                   end) xs).

Definition separator : string := "---" +:+ String "010"%char "".

Definition handleExportSelectedLinks : M unit :=
  w <- get ;;
  if length (items (links w)) =? 0 then ret tt
  else emit [EvDownload "links.yaml" "text/yaml"
               (join separator (export_entries w))].

End Handlers.

(** ** Vocabulary of the statements *)

(** The documents among the entries of an export. *)
Definition export_records (yaml_stringify : Link -> string) (w : World)
    : list string :=
  omap id (export_entries yaml_stringify w).

(** Order by key, and among equal keys by a rank that stands for the
    position in the array that was sorted. *)
Definition key_then_rank {A} (key : A -> Z) (rank : A -> nat) (a b : A) : Prop :=
  (key a < key b)%Z ∨ (key a = key b ∧ rank a < rank b).

(** The page object after [if (options?.page) links.value.page = options.page]. *)
Definition paged (options : option FetchOptions) (l : LinkList loc) : LinkList loc :=
  match page_option options with
  | Some p => with_page l p
  | None => l
  end.

(** What a run of [handleFetchLinks] logs. *)
Definition fetch_news (env : Env) (options : option FetchOptions) (w : World)
    : list Event :=
  (if muted options then [] else [EvLoading true]) ++
  match membership (selectedGroup w) with
  | None => []
  | Some names =>
      EvRequest (issued w) (list_request (paged options (links w)) names) ::
      match reply env (issued w) with
      | Fulfilled (LinkListPayload _) => [EvSettled (issued w) true]
      | Fulfilled OtherPayload =>
          [EvSettled (issued w) true;
           EvConsoleError (Some "Failed to fetch links")
             (TypeError "data.items is undefined")]
      | Rejected =>
          [EvSettled (issued w) false;
           EvConsoleError (Some "Failed to fetch links")
             (RequestFailed (issued w))]
      end
  end ++ [EvLoading false].

(** What a run of [handleFetchGroups] logs. *)
Definition groups_request : Request :=
  {| method := GET; target := groups_url; params := None; body := NoBody |}.

Definition groups_news (env : Env) (w : World) : list Event :=
  EvRequest (issued w) groups_request ::
  match reply env (issued w) with
  | Fulfilled _ => [EvSettled (issued w) true]
  | Rejected =>
      [EvSettled (issued w) false;
       EvConsoleError (Some "Failed to fetch link groups")
         (RequestFailed (issued w))]
  end.

(** The delete request for a link. *)
Definition delete_request (link : Link) : Request :=
  {| method := DELETE; target := link_url (link_name link);
     params := None; body := NoBody |}.

(** The group with one more member, and the write that replaces it. *)
Definition with_member (g : LinkGroup) (s : LinkGroupSpec) (ms : list string)
    (n : string) : LinkGroup :=
  {| group_metadata := group_metadata g;
     group_spec := Some {| group_displayName := group_displayName s;
                           group_priority := group_priority s;
                           group_links := Some (ms ++ [n]) |} |}.

Definition replace_group (g : LinkGroup) : Request :=
  {| method := PUT; target := group_url (group_name g);
     params := None; body := GroupBody g |}.

(** The write that replaces a link. *)
Definition replace_link (v : Link) : Request :=
  {| method := PUT; target := link_url (link_name v);
     params := None; body := LinkBody v |}.

(** The promises [Promise.all] has seen settle when it settles itself,
    and what the [try]/[catch] around it logs. *)
Definition settled_ids (env : Env) (ids : list nat) : list nat :=
  match first_rejection env ids with
  | None => ids
  | Some j => filter (fun i => Is_true (earlier env i j)) ids ++ [j]
  end.

Definition settle_news (env : Env) (ids : list nat) : list Event :=
  match first_rejection env ids with
  | None => map (fun i => EvSettled i true) ids
  | Some j =>
      map (fun i => EvSettled i true)
          (filter (fun i => Is_true (earlier env i j)) ids)
      ++ [EvSettled j false; EvConsoleError None (RequestFailed j)]
  end.

(** The writes still in flight at the moment the first read that
    follows them is sent: [None] when no read follows. *)
Fixpoint pending_at_refetch (pending : list nat) (evs : list Event)
    : option (list nat) :=
  match evs with
  | [] => None
  | EvRequest id r :: rest =>
      match method r with
      | PUT => pending_at_refetch (pending ++ [id]) rest
      | GET => Some pending
      | DELETE => pending_at_refetch pending rest
      end
  | EvSettled id _ :: rest =>
      pending_at_refetch (filter (fun i => i <> id) pending) rest
  | _ :: rest => pending_at_refetch pending rest
  end.

(** What the writes of a log leave at an address of the resource API:
    a PUT replaces the resource, so the resource holds the body of the
    last fulfilled PUT to its address. *)
Definition written_by (env : Env) (address : string) (ev : Event) : option Link :=
  match ev with
  | EvRequest id r =>
      match method r, body r with
      | PUT, LinkBody v =>
          if String.eqb (target r) address && negb (rejected env id)
          then Some v else None
      | _, _ => None
      end
  | _ => None
  end.

Definition persisted (env : Env) (evs : list Event) (n : string) : option Link :=
  list.last (omap (written_by env (link_url n)) evs).

(** ** Sample data for the concrete runs *)

Definition sample_link (n : string) (p : option Z) : Link :=
  {| link_metadata := {| name := n; creationTimestamp := None;
                         deletionTimestamp := None |};
     link_spec := Some {| displayName := n; url := "https://" +:+ n;
                          description := None; logo := None;
                          priority := p |} |}.

Definition sample_group (ms : option (list string)) : LinkGroup :=
  {| group_metadata := {| name := "friends"; creationTimestamp := None;
                          deletionTimestamp := None |};
     group_spec := Some {| group_displayName := "Friends";
                           group_priority := Some 0%Z;
                           group_links := ms |} |}.

(** The server's answer to the first list request: three links, the
    second without a priority, the first and third tied on 1. *)
Definition sample_data : LinkList Link :=
  {| page := 1; size := 20; total := 3;
     items := [sample_link "a" (Some 1%Z); sample_link "b" None;
               sample_link "c" (Some 1%Z)];
     first := true; last := true; hasNext := false; hasPrevious := false;
     totalPages := 1 |}.

(** Every request is fulfilled with the sample page, answers arrive in
    the order of the requests, the catalog keeps the selection. *)
Definition sample_env : Env :=
  {| reply := fun _ => Fulfilled (LinkListPayload sample_data);
     arrival := fun id => id;
     reselect := fun _ g => g |}.

(** The same, except that request [id] is rejected. *)
Definition rejecting (id : nat) (env : Env) : Env :=
  {| reply := fun i => if i =? id then Rejected else reply env i;
     arrival := arrival env;
     reselect := reselect env |}.

(** The same, except that later requests are answered first. *)
Definition reversed (env : Env) : Env :=
  {| reply := reply env;
     arrival := fun id => 100 - id;
     reselect := reselect env |}.

(** The same, except that request [id] gets an answer that is not a list. *)
Definition garbling (id : nat) (env : Env) : Env :=
  {| reply := fun i => if i =? id then Fulfilled OtherPayload else reply env i;
     arrival := arrival env;
     reselect := reselect env |}.

Definition sample_start : World :=
  set_selectedGroup (Some (sample_group (Some ["a"; "b"; "c"]))) initial.

(** The page after the first fetch: objects 0, 1, 2 are a, b, c and the
    page shows b, a, c. *)
Definition sample_page : World :=
  exec (handleFetchLinks sample_env None) sample_start.

(** [yaml.stringify] stand-in for the concrete runs. *)
Definition sample_stringify (v : Link) : string :=
  "name: " +:+ link_name v +:+ String "010"%char "".

(** A matcher for the concrete runs: the positions of the records whose
    name is the keyword. *)
Definition sample_match (kw : string) (records : list Link) : list nat :=
  omap (fun '(i, v) => if String.eqb (link_name v) kw then Some i else None)
       (imap pair records).


(** * The rest of the view, and the group form

    What follows covers the handlers and watchers of the view that the
    statements above do not reach, and the form that creates and edits
    a group (console/src/components/GroupEditingModal.vue). *)

(** The comparator of the fetch, on the links themselves. *)
Definition by_sort_key (a b : Link) : Z := (sort_key a - sort_key b)%Z.

(** The delete request for the link with a given name. *)
Definition delete_named (n : string) : Request :=
  {| method := DELETE; target := link_url n; params := None; body := NoBody |}.

(** ** Select all (lines 281-296) *)

(** The view together with the [checkedAll] ref, which the record of
    the view leaves out. *)
Record Checked := {
  view : World;
  checkedAll : bool;
}.

(** The watcher on [selectedLinks] (lines 294-296).  The ref is watched
    shallowly: the callback runs when the ref is given another array,
    not when the array it holds is changed in place. *)
Definition selectedLinks_watcher (c : Checked) : Checked :=
  {| view := view c;
     checkedAll := length (selectedLinks (view c))
                   =? length (items (links (view c))) |}.

(** [selectedLinks.value = s], as the handler below and the checkboxes
    of the list ([v-model]) do it. *)
Definition selectedLinks_assign (s : list string) (c : Checked) : Checked :=
  selectedLinks_watcher
    {| view := set_selectedLinks s (view c); checkedAll := checkedAll c |}.

(** [handleCheckAllChange]: [checked] is the state of the box in the
    event.  The [|| []] after the [map] never applies, an array being
    truthy; [selectedLinks.value.length = 0] empties the array in
    place. *)
Definition handleCheckAllChange (checked : bool) (c : Checked) : Checked :=
  let c1 := {| view := view c; checkedAll := checked |} in
  if checkedAll c1 then
    selectedLinks_assign (link_name <$> page_values (view c1)) c1
  else
    {| view := set_selectedLinks [] (view c1); checkedAll := checkedAll c1 |}.

(** * The group form (console/src/components/GroupEditingModal.vue) *)

(** The two calls of the form:
    [apiClient.post("/apis/core.halo.run/v1alpha1/linkgroups", body)] and
    [apiClient.put(`/apis/core.halo.run/v1alpha1/linkgroups/${n}`, body)]. *)
Inductive FormRequest :=
  | PostGroup (body : LinkGroup)
  | PutGroup (n : string) (body : LinkGroup).

Definition form_target (r : FormRequest) : string :=
  match r with
  | PostGroup _ => groups_url
  | PutGroup n _ => group_url n
  end.

(** The events the form emits to its parent. *)
Inductive FormEmit :=
  | UpdateVisible (visible : bool)
  | Close.

Inductive FormEvent :=
  | FormSent (id : nat) (r : FormRequest)
  | FormSettled (id : nat) (ok : bool)
  | FormEmitted (e : FormEmit)
  | FormConsoleError (label : string) (e : Error)
  | FormSaving (b : bool).

(** The state of one instance of the form.  [formState] starts as a ref
    to the very object [initialFormState] ([None] below) and holds an
    object of its own once the watcher has assigned one. *)
Record Modal := {
  visible : bool;
  group : option LinkGroup;
  initialFormState : LinkGroup;
  formState : option LinkGroup;
  saving : bool;
  form_log : list FormEvent;
  form_issued : nat;
}.

Definition set_props (v : bool) (g : option LinkGroup) (m : Modal) : Modal :=
  {| visible := v; group := g; initialFormState := initialFormState m;
     formState := formState m; saving := saving m;
     form_log := form_log m; form_issued := form_issued m |}.

Definition set_initialFormState (g : LinkGroup) (m : Modal) : Modal :=
  {| visible := visible m; group := group m; initialFormState := g;
     formState := formState m; saving := saving m;
     form_log := form_log m; form_issued := form_issued m |}.

Definition set_formState (g : option LinkGroup) (m : Modal) : Modal :=
  {| visible := visible m; group := group m;
     initialFormState := initialFormState m;
     formState := g; saving := saving m;
     form_log := form_log m; form_issued := form_issued m |}.

Definition set_saving (b : bool) (m : Modal) : Modal :=
  {| visible := visible m; group := group m;
     initialFormState := initialFormState m;
     formState := formState m; saving := b;
     form_log := form_log m ++ [FormSaving b]; form_issued := form_issued m |}.

Definition form_logged (evs : list FormEvent) (m : Modal) : Modal :=
  {| visible := visible m; group := group m;
     initialFormState := initialFormState m;
     formState := formState m; saving := saving m;
     form_log := form_log m ++ evs; form_issued := form_issued m |}.

Definition form_send (r : FormRequest) (m : Modal) : Modal :=
  {| visible := visible m; group := group m;
     initialFormState := initialFormState m;
     formState := formState m; saving := saving m;
     form_log := form_log m ++ [FormSent (form_issued m) r];
     form_issued := S (form_issued m) |}.

(** The component as [setup] leaves it (lines 10-40): [name] is the
    value [uuid()] returned, drawn once for the instance. *)
Definition modal_setup (uuid : string) : Modal :=
  {| visible := false;
     group := None;
     initialFormState :=
       {| group_metadata := {| name := uuid; creationTimestamp := None;
                               deletionTimestamp := None |};
          group_spec := Some {| group_displayName := "";
                                group_priority := Some 0%Z;
                                group_links := Some [] |} |};
     formState := None;
     saving := false;
     form_log := [];
     form_issued := 0 |}.

(** [formState.value] *)
Definition form (m : Modal) : LinkGroup :=
  match formState m with
  | Some g => g
  | None => initialFormState m
  end.

(** [!!formState.value.metadata.creationTimestamp] (lines 42-44): a
    string other than the empty one. *)
Definition isUpdateMode (m : Modal) : bool :=
  match creationTimestamp (group_metadata (form m)) with
  | Some t => negb (String.eqb t "")
  | None => false
  end.

(** [onVisibleChange] (lines 68-73) *)
Definition onVisibleChange (v : bool) (m : Modal) : Modal :=
  form_logged
    (FormEmitted (UpdateVisible v) :: if v then [] else [FormEmitted Close]) m.

(** [handleCreateGroup] (lines 46-66) *)
Definition handleCreateGroup (env : Env) (m : Modal) : Modal :=
  let m1 := set_saving true m in
  let r := if isUpdateMode m1
           then PutGroup (group_name (form m1)) (form m1)
           else PostGroup (form m1) in
  let id := form_issued m1 in
  let m2 := form_send r m1 in
  let m3 :=
    match reply env id with
    | Fulfilled _ => onVisibleChange false (form_logged [FormSettled id true] m2)
    | Rejected =>
        form_logged [FormSettled id false;
                     FormConsoleError "Failed to create link group"
                       (RequestFailed id)] m2
    end in
  set_saving false m3.

(** The watcher on the props (lines 75-93), run with the props the
    parent has just set.  Its keyboard part has no effect: the shortcut
    callback is empty and [keyboardWatcher] is a fresh local of each
    run. *)
Definition props_watcher (v : bool) (g : option LinkGroup) (m : Modal) : Modal :=
  let m1 := set_props v g m in
  match v, g with
  | true, Some g => set_formState (Some (cloneDeep g)) m1
  | _, _ => set_formState (Some (cloneDeep (initialFormState m1))) m1
  end.

Definition with_displayName (text : string) (g : LinkGroup) : LinkGroup :=
  match group_spec g with
  | Some s =>
      {| group_metadata := group_metadata g;
         group_spec := Some {| group_displayName := text;
                               group_priority := group_priority s;
                               group_links := group_links s |} |}
  | None => g
  end.

(** The input of the form ([v-model="formState.spec.displayName"]): the
    write goes to the object the ref holds, which is the initial object
    itself as long as the watcher has not run. *)
Definition input_displayName (text : string) (m : Modal) : Modal :=
  match formState m with
  | Some g => set_formState (Some (with_displayName text g)) m
  | None => set_initialFormState (with_displayName text (initialFormState m)) m
  end.

(** The events a run of the form added to its log. *)
Definition form_news (m m' : Modal) : list FormEvent :=
  drop (length (form_log m)) (form_log m').

(** The requests among events. *)
Definition form_requests (evs : list FormEvent) : list FormRequest :=
  omap (fun ev => match ev with FormSent _ r => Some r | _ => None end) evs.

Definition request_body (r : FormRequest) : LinkGroup :=
  match r with
  | PostGroup b => b
  | PutGroup _ b => b
  end.

(** The empty form of an instance whose [uuid()] returned [uuid], with
    a name typed in. *)
Definition new_group (uuid text : string) : LinkGroup :=
  {| group_metadata := {| name := uuid; creationTimestamp := None;
                          deletionTimestamp := None |};
     group_spec := Some {| group_displayName := text;
                           group_priority := Some 0%Z;
                           group_links := Some [] |} |}.

(** * Import (LinkList.vue, lines 242-279)

    The handler is taken up where the file picker has resolved:
    [data] is [res.data.value], the text of the chosen file, if any.
    The create requests (POST) are not among the requests the log of
    the view knows; they are kept in a log of their own, numbered from
    the same counter as all requests of the view. *)
Section YamlImport.
Context {Doc : Type}.

(** What [yaml.parse] returned, as far as the handler looks at it
    ([Array.isArray]). *)
Inductive Parsed :=
  | ParsedArray (docs : list Doc)
  | ParsedOther (doc : Doc).

Record Importing := {
  import_view : World;
  posted : list (nat * Doc);
}.

Context (env : Env).

(** [yaml.parse], which throws on text that is not a YAML document. *)
Context (yaml_parse : string -> Result Parsed).

(** [apiClient.post("/apis/core.halo.run/v1alpha1/links", doc)] *)
Definition post (doc : Doc) (s : Importing) : nat * Importing :=
  (issued (import_view s),
   {| import_view := set_issued (S (issued (import_view s))) (import_view s);
      posted := posted s ++ [(issued (import_view s), doc)] |}).

(** [parsed.map((link) => apiClient.post(..., link))] *)
Fixpoint post_each (docs : list Doc) (s : Importing) : list nat * Importing :=
  match docs with
  | [] => ([], s)
  | doc :: rest =>
      let '(id, s1) := post doc s in
      let '(ids, s2) := post_each rest s1 in
      (id :: ids, s2)
  end.

(** A step of the view, run on the view of the import. *)
Definition in_view {A} (m : M A) (s : Importing) : Result A * Importing :=
  let '(r, w) := m (import_view s) in
  (r, {| import_view := w; posted := posted s |}).

(** The [try] block. *)
Definition import_body (data : option string) (s : Importing)
    : Result unit * Importing :=
  match data with
  | None => (Ok tt, s)
  | Some text =>
      if String.eqb text "" then (Ok tt, s)
      else
        match yaml_parse text with
        | Throw e => (Throw e, s)
        | Ok (ParsedArray docs) =>
            let '(promises, s1) := post_each docs s in
            in_view (await_all env promises) s1
        | Ok (ParsedOther doc) =>
            let '(id, s1) := post doc s in
            in_view (_ <- await env id ;; ret tt) s1
        end
  end.

Definition handleImportFromYaml (data : option string) (s : Importing)
    : Result unit * Importing :=
  let '(r, s1) :=
    match import_body data s with
    | (Ok a, s1) => (Ok a, s1)
    | (Throw e, s1) => in_view (console_error None e) s1
    end in
  match in_view (handleFetchLinks env None) s1 with
  | (Ok _, s2) => (r, s2)
  | (Throw e, s2) => (Throw e, s2)
  end.

End YamlImport.
Arguments Parsed : clear implicits.
Arguments Importing : clear implicits.

(** * The computed view between two runs of its getter *)

(** What holds of the cache whenever a handler has returned.  A value
    computed from the page is the one a run of the getter would return
    now, with the same subscriptions.  A value computed from the index
    is subscribed to the keyword alone, was computed under the keyword
    that is still typed, and an index exists. *)
Definition coherent (fuse_match : string -> list Link -> list nat) (v : View)
    : Prop :=
  match cache v with
  | None => True
  | Some c =>
      if on_links c then c = searchResults_get fuse_match (refs v)
      else on_keyword c = true
           ∧ keyword (refs v) <> ""
           ∧ fuse (refs v) <> None
           ∧ exists f, cached_value c = fuse_search fuse_match f (keyword (refs v))
  end.

(** ** More sample data *)

(** An answer that is already in priority order. *)
Definition sample_sorted_data : LinkList Link :=
  {| page := 1; size := 20; total := 3;
     items := [sample_link "b" None; sample_link "a" (Some 1%Z);
               sample_link "c" (Some 1%Z)];
     first := true; last := true; hasNext := false; hasPrevious := false;
     totalPages := 1 |}.

Definition sample_sorted_env : Env :=
  {| reply := fun _ => Fulfilled (LinkListPayload sample_sorted_data);
     arrival := fun id => id;
     reselect := fun _ g => g |}.

(** The sample page with a selected link. *)
Definition sample_selected (l : loc) : World :=
  set_selectedLink (Some l) sample_page.

(** The sample page narrowed to b and c, with a, no longer shown,
    still selected. *)
Definition sample_narrowed : World :=
  set_links (with_items (links sample_page) [1; 2]) (sample_selected 0).

Definition sample_checked : Checked :=
  {| view := sample_page; checkedAll := false |}.

(** A group as the server returns it, and one without a membership
    sequence. *)
Definition sample_stored_group : LinkGroup :=
  {| group_metadata := {| name := "friends";
                          creationTimestamp := Some "2022-09-30T08:00:00Z";
                          deletionTimestamp := None |};
     group_spec := Some {| group_displayName := "Friends";
                           group_priority := Some 0%Z;
                           group_links := Some ["a"; "b"; "c"] |} |}.

(** A stand-in for [yaml.parse]: the text "[]" is a sequence of two
    records, the text "!" does not parse, any other text is one
    record. *)
Definition sample_parse (text : string) : Result (Parsed string) :=
  if String.eqb text "[]" then Ok (ParsedArray ["first"; "second"])
  else if String.eqb text "!" then Throw (TypeError "YAMLParseError")
  else Ok (ParsedOther text).

Definition sample_import : Importing string :=
  {| import_view := sample_page; posted := [] |}.

(** ** Facts about the sort *)
Section ArraySortFacts.
Context {A : Type}.

Lemma insert_sorted_perm (cmp : A -> A -> Z) x l :
  insert_sorted cmp x l ≡ₚ x :: l.
Proof.
  induction l as [|y t IH]; simpl; [done|].
  destruct (cmp x y <=? 0)%Z; [done|].
  rewrite IH. apply Permutation_swap.
Qed.

Lemma array_sort_perm (cmp : A -> A -> Z) l : array_sort cmp l ≡ₚ l.
Proof.
  induction l as [|x t IH]; simpl; [done|].
  rewrite insert_sorted_perm. by rewrite IH.
Qed.

Context (key : A -> Z) (rank : A -> nat).

Lemma insert_sorted_stable x l :
  Forall (fun y => rank x < rank y) l ->
  StronglySorted (key_then_rank key rank) l ->
  StronglySorted (key_then_rank key rank)
    (insert_sorted (fun a b => (key a - key b)%Z) x l).
Proof.
  intros Hx Hl. induction Hl as [|y t Ht IH Hy]; simpl.
  - repeat constructor.
  - apply Forall_cons in Hx as [Hxy Hxt].
    destruct (Z.leb_spec (key x - key y) 0) as [Hle|Hgt].
    + constructor; [by constructor|].
      assert (key_then_rank key rank x y) as Hr.
      { unfold key_then_rank.
        destruct (decide (key x = key y)); [right|left]; lia. }
      constructor; [done|].
      eapply Forall_impl; [exact Hy|]. intros z Hz.
      unfold key_then_rank in *. lia.
    + constructor; [by apply IH|].
      rewrite insert_sorted_perm. constructor; [|done].
      left. lia.
Qed.

Lemma array_sort_stable l :
  StronglySorted (fun a b => rank a < rank b) l ->
  StronglySorted (key_then_rank key rank)
    (array_sort (fun a b => (key a - key b)%Z) l).
Proof.
  induction 1 as [|x t Ht IH Hx]; simpl; [constructor|].
  apply insert_sorted_stable; [|done].
  by rewrite array_sort_perm.
Qed.
End ArraySortFacts.

(** ** Facts about the primitives *)

Lemma news_app w w' evs : trace w' = trace w ++ evs -> news w w' = evs.
Proof. intros H. unfold news. rewrite H. by rewrite drop_app_length. Qed.

Lemma update_run l f w v :
  heap w !! l = Some v ->
  update l f w = (Ok tt, set_heap (<[l := f v]> (heap w)) w).
Proof. intros H. unfold update, bind, deref. by rewrite H. Qed.

Lemma for_each_default_priority vs : forall h w,
  heap w = h ++ vs ->
  for_each default_priority (seq (length h) (length vs)) w
  = (Ok tt, set_heap (h ++ map with_default_priority vs) w).
Proof.
  induction vs as [|v vs IH]; intros h w Hw; simpl.
  - unfold ret. f_equal. rewrite app_nil_r in *. destruct w; simpl in *. by subst.
  - unfold bind at 1. unfold default_priority at 1.
    rewrite (update_run _ _ _ v) by (rewrite Hw; by apply list_lookup_middle).
    rewrite Hw, (insert_app_r_alt h (v :: vs) (length h)) by done.
    rewrite Nat.sub_diag. simpl.
    specialize (IH (h ++ [with_default_priority v])
                  (set_heap (h ++ with_default_priority v :: vs) w)).
    rewrite length_app in IH. simpl in IH.
    replace (length h + 1) with (S (length h)) in IH by lia.
    rewrite IH; [|simpl; by rewrite <- app_assoc].
    unfold set_heap; simpl. by rewrite <- app_assoc.
Qed.

(** Unfolds the steps of the monad and the writes to the refs, and
    brings the log into the shape [trace w ++ events]. *)
Ltac run_steps :=
  unfold bind, when, get, loading_value, modify, ret, request, await, emit,
    console_error, throw, alloc, assign_links, unawaited, exec, outcome;
  simpl.

Lemma world_ext (w1 w2 : World) :
  heap w1 = heap w2 -> links w1 = links w2 -> loading w1 = loading w2 ->
  selectedLink w1 = selectedLink w2 -> selectedLinks w1 = selectedLinks w2 ->
  selectedGroup w1 = selectedGroup w2 -> keyword w1 = keyword w2 ->
  fuse w1 = fuse w2 -> trace w1 = trace w2 -> issued w1 = issued w2 ->
  w1 = w2.
Proof. destruct w1, w2; simpl; intros; by subst. Qed.

(** Compares two runs field by field. *)
Ltac tidy_world :=
  f_equal; apply world_ext; cbn; rewrite <- ?app_assoc; try reflexivity.

(** ** Runs of handleFetchLinks *)

Section FetchRuns.
Context (env : Env) (options : option FetchOptions) (w : World).

Lemma handleFetchLinks_skipped :
  membership (selectedGroup w) = None ->
  handleFetchLinks env options w
  = (Ok tt,
     {| heap := heap w; links := paged options (links w); loading := false;
        selectedLink := selectedLink w; selectedLinks := selectedLinks w;
        selectedGroup := selectedGroup w; keyword := keyword w;
        fuse := fuse w;
        trace := trace w ++ fetch_news env options w;
        issued := issued w |}).
Proof.
  intros Hm. unfold handleFetchLinks, try_catch_finally, fetch_news, paged.
  run_steps.
  destruct (muted options), (page_option options); simpl; rewrite Hm;
    tidy_world.
Qed.

Lemma handleFetchLinks_failed names :
  membership (selectedGroup w) = Some names ->
  (forall data, reply env (issued w) <> Fulfilled (LinkListPayload data)) ->
  handleFetchLinks env options w
  = (Ok tt,
     {| heap := heap w; links := paged options (links w); loading := false;
        selectedLink := selectedLink w; selectedLinks := selectedLinks w;
        selectedGroup := selectedGroup w; keyword := keyword w;
        fuse := fuse w;
        trace := trace w ++ fetch_news env options w;
        issued := S (issued w) |}).
Proof.
  intros Hm Hr. unfold handleFetchLinks, try_catch_finally, fetch_news, paged.
  run_steps.
  destruct (muted options), (page_option options); simpl; rewrite Hm; simpl;
    (destruct (reply env (issued w)) as [[d|]|]; [by destruct (Hr d)|..]);
    tidy_world.
Qed.

Lemma handleFetchLinks_fulfilled names data :
  membership (selectedGroup w) = Some names ->
  reply env (issued w) = Fulfilled (LinkListPayload data) ->
  let h := heap w ++ map with_default_priority (items data) in
  let sorted := array_sort (by_priority h)
                  (seq (length (heap w)) (length (items data))) in
  handleFetchLinks env options w
  = (Ok tt,
     {| heap := h; links := with_items data sorted; loading := false;
        selectedLink := selectedLink w; selectedLinks := selectedLinks w;
        selectedGroup := selectedGroup w; keyword := keyword w;
        fuse := Some {| docs := sorted;
                        records := omap (fun l => h !! l) sorted |};
        trace := trace w ++ fetch_news env options w;
        issued := S (issued w) |}).
Proof.
  intros Hm Hr h sorted.
  unfold handleFetchLinks, try_catch_finally, fetch_news, paged.
  run_steps.
  destruct (muted options), (page_option options); simpl; rewrite Hm; simpl;
    rewrite Hr; simpl;
    rewrite for_each_default_priority by reflexivity;
    tidy_world.
Qed.
End FetchRuns.

Lemma StronglySorted_lookup {A} (R : relation A) l p q a b :
  StronglySorted R l -> p < q -> l !! p = Some a -> l !! q = Some b -> R a b.
Proof.
  intros Hl. revert p q. induction Hl as [|x t Ht IH Hx]; intros p q Hpq Hp Hq.
  - by rewrite lookup_nil in Hp.
  - destruct q as [|q]; [lia|]. destruct p as [|p]; simpl in *.
    + injection Hp as ->. rewrite Forall_forall in Hx.
      apply Hx. by eapply list_elem_of_lookup_2.
    + eapply (IH p q); [lia|done..].
Qed.

Lemma seq_increasing j n : StronglySorted lt (seq j n).
Proof.
  revert j. induction n as [|n IH]; intros j; simpl; constructor; [apply IH|].
  apply Forall_forall. intros x Hx. apply elem_of_seq in Hx. lia.
Qed.

Lemma page_sorted (h : list Link) (ls : list loc) :
  StronglySorted (key_then_rank (priority_at h) id) ls ->
  StronglySorted (fun a b => (sort_key a <= sort_key b)%Z)
    (omap (fun l => h !! l) ls).
Proof.
  induction 1 as [|x t Ht IH Hx]; simpl; [constructor|].
  destruct (h !! x) as [v|] eqn:Hv; [|done].
  constructor; [done|].
  apply Forall_forall. intros u Hu.
  apply list_elem_of_omap in Hu as (y & Hy & Hyu).
  rewrite Forall_forall in Hx. specialize (Hx y Hy).
  unfold key_then_rank, priority_at in Hx. rewrite Hv, Hyu in Hx. simpl in Hx.
  lia.
Qed.

(** C2. After a successful fetch the page consists of the links the
    server returned, each one once (the reference [base + i] is the i-th
    returned link); a returned link whose priority is absent has
    priority 0; the page is in ascending order of the defaulted
    priority, whatever order the server used; and two items of equal
    priority stand in the order in which the server returned them. *)
Theorem handleFetchLinks_page_sorted env options w names data :
  membership (selectedGroup w) = Some names ->
  reply env (issued w) = Fulfilled (LinkListPayload data) ->
  let w' := exec (handleFetchLinks env options) w in
  let base := length (heap w) in
  outcome (handleFetchLinks env options) w = Ok tt
  ∧ items (links w') ≡ₚ seq base (length (items data))
  ∧ (forall i v, items data !! i = Some v ->
       heap w' !! (base + i) = Some (with_default_priority v))
  ∧ (forall i v s, items data !! i = Some v ->
       link_spec v = Some s -> priority s = None ->
       link_priority <$> heap w' !! (base + i) = Some (Some 0%Z))
  ∧ (forall i v s, items data !! i = Some v ->
       link_spec v = Some s ->
       link_priority <$> heap w' !! (base + i) = Some (Some (sort_key v)))
  ∧ StronglySorted (fun a b => (sort_key a <= sort_key b)%Z) (page_values w')
  ∧ (forall p q a b, p < q ->
       items (links w') !! p = Some a -> items (links w') !! q = Some b ->
       priority_at (heap w') a = priority_at (heap w') b -> a < b).
Proof.
  intros Hm Hr w' base. subst w'. unfold exec, outcome.
  rewrite (handleFetchLinks_fulfilled _ _ _ names data Hm Hr). simpl.
  unfold page_values; simpl. fold base.
  set (h := heap w ++ map with_default_priority (items data)).
  assert (forall i v, items data !! i = Some v ->
            h !! (base + i) = Some (with_default_priority v)) as Hlook.
  { intros i v Hi. unfold h, base. rewrite lookup_app_r by lia.
    replace (length (heap w) + i - length (heap w)) with i by lia.
    by rewrite list_lookup_fmap, Hi. }
  assert (StronglySorted (key_then_rank (priority_at h) id)
            (array_sort (by_priority h) (seq base (length (items data)))))
    as Hsorted.
  { apply (array_sort_stable (priority_at h) id). apply seq_increasing. }
  split_and!.
  - done.
  - apply array_sort_perm.
  - done.
  - intros i v s Hi Hs Hp. rewrite (Hlook i v Hi). simpl.
    unfold with_default_priority, set_priority, link_priority.
    rewrite Hs; simpl. by rewrite Hp.
  - intros i v s Hi Hs. rewrite (Hlook i v Hi). simpl.
    unfold with_default_priority, set_priority, sort_key, link_priority.
    by rewrite Hs.
  - by apply page_sorted.
  - intros p q a b Hpq Ha Hb Hk.
    pose proof (StronglySorted_lookup _ _ _ _ _ _ Hsorted Hpq Ha Hb) as Hab.
    unfold key_then_rank in Hab. simpl in Hab. lia.
Qed.

Lemma items_paged options (l : LinkList loc) : items (paged options l) = items l.
Proof. unfold paged. by destruct (page_option options). Qed.

(** C5. A fetch whose request is rejected (network error) or whose
    answer is not a link list (parse error): the error is logged under
    "Failed to fetch links", the call completes normally, the loading
    flag is off, and the page, the objects and the search index are the
    ones from before the call. *)
Theorem handleFetchLinks_failure_keeps_page env options w names :
  membership (selectedGroup w) = Some names ->
  reply env (issued w) = Rejected ∨ reply env (issued w) = Fulfilled OtherPayload ->
  let w' := exec (handleFetchLinks env options) w in
  outcome (handleFetchLinks env options) w = Ok tt
  ∧ (exists e, EvConsoleError (Some "Failed to fetch links") e ∈ news w w')
  ∧ loading w' = false
  ∧ items (links w') = items (links w)
  ∧ links w' = paged options (links w)
  ∧ heap w' = heap w
  ∧ fuse w' = fuse w.
Proof.
  intros Hm Hr w'. subst w'. unfold exec, outcome.
  rewrite (handleFetchLinks_failed _ _ _ names Hm)
    by (intros d Hd; destruct Hr as [Hr|Hr]; congruence).
  simpl. split_and!; try done.
  - rewrite (news_app w _ (fetch_news env options w)) by reflexivity. unfold fetch_news. rewrite Hm.
    destruct Hr as [-> | ->]; eexists;
      rewrite !elem_of_app, !elem_of_cons; right; left; right; right; left;
      reflexivity.
  - apply items_paged.
Qed.

(** C9. The request is skipped exactly when the selected group has no
    membership sequence (no group, no spec or no [links]): then the run
    logs nothing but the loading flag going on (unless muted) and off,
    issues no request and keeps the page content and the objects.  With
    a membership sequence the list request leaves, filtered by the
    members' names; for the empty sequence the filter is [name=()]. *)
Theorem handleFetchLinks_membership_guard env options w :
  let w' := exec (handleFetchLinks env options) w in
  let loading_on := if muted options then [] else [EvLoading true] in
  match membership (selectedGroup w) with
  | None =>
      news w w' = loading_on ++ [EvLoading false]
      ∧ issued w' = issued w
      ∧ items (links w') = items (links w)
      ∧ links w' = paged options (links w)
      ∧ heap w' = heap w
  | Some names =>
      (exists rest,
         news w w' = loading_on ++
           EvRequest (issued w) (list_request (paged options (links w)) names)
           :: rest)
      ∧ issued w' = S (issued w)
  end
  ∧ param_fieldSelector <$> params (list_request (links w) []) = Some "name=()".
Proof.
  intros w' loading_on. subst w' loading_on. unfold exec.
  split; [|reflexivity].
  destruct (membership (selectedGroup w)) as [names|] eqn:Hm.
  - destruct (reply env (issued w)) as [[data|]|] eqn:Hr.
    + rewrite (handleFetchLinks_fulfilled _ _ _ names data Hm Hr). simpl.
      split; [|done]. rewrite (news_app w _ (fetch_news env options w)) by reflexivity.
      unfold fetch_news. rewrite Hm. by eexists.
    + rewrite (handleFetchLinks_failed _ _ _ names Hm) by congruence. simpl.
      split; [|done]. rewrite (news_app w _ (fetch_news env options w)) by reflexivity.
      unfold fetch_news. rewrite Hm. by eexists.
    + rewrite (handleFetchLinks_failed _ _ _ names Hm) by congruence. simpl.
      split; [|done]. rewrite (news_app w _ (fetch_news env options w)) by reflexivity.
      unfold fetch_news. rewrite Hm. by eexists.
  - rewrite (handleFetchLinks_skipped _ _ _ Hm). simpl.
    rewrite (news_app w _ (fetch_news env options w)) by reflexivity. unfold fetch_news. rewrite Hm.
    split_and!; try done. apply items_paged.
Qed.

(** ** Sequential navigation *)

Lemma findIndex_nonneg_or_absent {A} (test : A -> bool) l :
  (findIndex test l = -1)%Z ∨ (0 <= findIndex test l)%Z.
Proof.
  induction l as [|x t IH]; simpl; [by left|].
  destruct (test x); [right; lia|].
  destruct (Z.ltb_spec (findIndex test t) 0); [by left|right; lia].
Qed.

Lemma findIndex_last {A} (test : A -> bool) front x :
  Forall (fun y => test y = false) front -> test x = true ->
  findIndex test (front ++ [x]) = Z.of_nat (length front).
Proof.
  intros Hfront Hx. induction Hfront as [|y t Hy Ht IH]; simpl.
  - by rewrite Hx.
  - rewrite Hy, IH. destruct (Z.ltb_spec (Z.of_nat (length t)) 0); lia.
Qed.

Lemma is_selected_self w l v :
  selectedLink w = Some l -> heap w !! l = Some v -> is_selected w l = true.
Proof.
  intros Hs Hv. unfold is_selected, selected_name. rewrite Hs, Hv. simpl.
  apply String.eqb_refl.
Qed.

Lemma is_selected_other w l v front :
  selectedLink w = Some l -> heap w !! l = Some v ->
  items (links w) = front ++ [l] ->
  NoDup (link_name <$> page_values w) ->
  Forall (fun y => is_selected w y = false) front.
Proof.
  intros Hs Hv Hitems Hnd. unfold page_values in Hnd.
  rewrite Hitems, omap_app, fmap_app in Hnd. simpl in Hnd. rewrite Hv in Hnd.
  simpl in Hnd. apply NoDup_app in Hnd as (_ & Hdisj & _).
  apply Forall_forall. intros y Hy.
  unfold is_selected, selected_name. rewrite Hs, Hv. simpl.
  destruct (heap w !! y) as [u|] eqn:Hu; [|done].
  apply String.eqb_neq. intros Heq.
  apply (Hdisj (link_name u)).
  - apply list_elem_of_fmap. exists u. split; [done|].
    apply list_elem_of_omap. by exists y.
  - rewrite Heq. apply list_elem_of_here.
Qed.

(** C7, as the code has it.  "Previous" from the first item clears the
    selection; "next" from the last item of a page of distinctly named
    links leaves the selection on that item; "next" with nothing
    selected selects the first item.  Nothing but the selection is
    written. *)
Theorem navigation_at_the_boundaries w :
  (forall l v t, items (links w) = l :: t -> selectedLink w = Some l ->
     heap w !! l = Some v ->
     exec handleSelectPrevious w = set_selectedLink None w)
  ∧ (forall l v front, items (links w) = front ++ [l] ->
       selectedLink w = Some l -> heap w !! l = Some v ->
       NoDup (link_name <$> page_values w) ->
       exec handleSelectNext w = w ∧ selectedLink (exec handleSelectNext w) = Some l)
  ∧ (forall l t, items (links w) = l :: t -> selectedLink w = None ->
       exec handleSelectNext w = set_selectedLink (Some l) w).
Proof.
  split_and!.
  - intros l v t Hitems Hs Hv. unfold exec, handleSelectPrevious. run_steps.
    rewrite Hitems. simpl. by rewrite (is_selected_self w l v).
  - intros l v front Hitems Hs Hv Hnd.
    assert (exec handleSelectNext w = w) as Hsame.
    { unfold exec, handleSelectNext. run_steps. rewrite Hs, Hitems.
      rewrite (findIndex_last (is_selected w) front l).
      - rewrite length_app. simpl.
        by destruct (Z.eqb_spec (Z.of_nat (length front))
                       (Z.of_nat (length front + 1) - 1)); [|lia].
      - by eapply is_selected_other.
      - by eapply is_selected_self. }
    by rewrite Hsame.
  - intros l t Hitems Hs. unfold exec, handleSelectNext. run_steps.
    by rewrite Hs, Hitems.
Qed.

(** ** The search view *)

Lemma searchResults_of_page fuse_match w f :
  fuse w = Some f -> docs f = items (links w) ->
  forall l, l ∈ cached_value (searchResults_get fuse_match w) ->
            l ∈ items (links w).
Proof.
  intros Hf Hdocs l. unfold searchResults_get. rewrite Hf.
  destruct (String.eqb (keyword w) ""); [done|]. cbn [cached_value].
  unfold fuse_search. rewrite list_elem_of_omap. intros (i & _ & Hi).
  rewrite <- Hdocs. by eapply list_elem_of_lookup_2.
Qed.

Lemma lookup_through (h : list Link) (ls : list loc) i :
  Forall (fun l => l < length h) ls ->
  omap (fun l => h !! l) ls !! i = ls !! i ≫= (fun l => h !! l).
Proof.
  intros Hls. revert i. induction Hls as [|l t Hl Ht IH]; intros i; [done|].
  destruct (lookup_lt_is_Some_2 h l Hl) as [v Hv].
  change (omap (fun l => h !! l) (l :: t))
    with (match h !! l with
          | Some y => y :: omap (fun l => h !! l) t
          | None => omap (fun l => h !! l) t
          end).
  rewrite Hv. destruct i as [|i]; simpl; [done|]. apply IH.
Qed.

(** A run of the getter on a page as the fetch loaded it: with the
    empty keyword it returns the page itself, in its order; with any
    other keyword every element it returns is one of the page's own
    references, so writing a link through it is writing the object the
    page holds at that position. *)
Lemma searchResults_get_on_loaded_page env fuse_match options w names data kw :
  membership (selectedGroup w) = Some names ->
  reply env (issued w) = Fulfilled (LinkListPayload data) ->
  let loaded := exec (handleFetchLinks env options) w in
  cached_value (searchResults_get fuse_match (set_keyword "" loaded))
  = items (links loaded)
  ∧ (forall l,
       l ∈ cached_value (searchResults_get fuse_match (set_keyword kw loaded)) ->
       exists i v,
         items (links loaded) !! i = Some l
         ∧ heap loaded !! l = Some v
         ∧ forall f,
             let written := exec (update l f) (set_keyword kw loaded) in
             items (links written) = items (links loaded)
             ∧ page_values written !! i = Some (f v)).
Proof.
  intros Hm Hr loaded. subst loaded. unfold exec.
  rewrite (handleFetchLinks_fulfilled _ _ _ names data Hm Hr). simpl.
  set (h := heap w ++ map with_default_priority (items data)).
  set (sorted := array_sort (by_priority h) _).
  split.
  - reflexivity.
  - intros l Hl.
    eapply searchResults_of_page in Hl; [|reflexivity..]. simpl in Hl.
    assert (l < length h) as Hlt.
    { unfold sorted in Hl. rewrite array_sort_perm in Hl.
      apply elem_of_seq in Hl. unfold h. rewrite length_app, length_map. lia. }
    apply list_elem_of_lookup_1 in Hl as [i Hi].
    destruct (lookup_lt_is_Some_2 h l Hlt) as [v Hv].
    exists i, v. split_and!; [done..|].
    intros f. rewrite (update_run l f _ v) by done. simpl. split; [done|].
    unfold page_values; simpl.
    rewrite lookup_through.
    + rewrite Hi. simpl. by apply list_lookup_insert_eq.
    + rewrite length_insert. apply Forall_forall. intros l' Hl'.
      unfold sorted in Hl'. rewrite array_sort_perm in Hl'.
      apply elem_of_seq in Hl'. unfold h. rewrite length_app, length_map. lia.
Qed.

(** ** Export *)

Lemma includes_spec sel n : includes sel n = true <-> n ∈ sel.
Proof.
  unfold includes. rewrite existsb_exists. split.
  - intros (m & Hm & Heq). apply String.eqb_eq in Heq. subst.
    by apply list_elem_of_In.
  - intros Hn. exists n. split; [by apply list_elem_of_In|apply String.eqb_refl].
Qed.

Lemma export_entries_selected yaml_stringify w :
  (forall v, yaml_stringify v <> "") ->
  export_entries yaml_stringify w
  = Some <$> (yaml_stringify
              <$> filter (fun v => link_name v ∈ selectedLinks w) (page_values w)).
Proof.
  intros Hne. unfold export_entries.
  induction (page_values w) as [|v vs IH]; [done|].
  rewrite filter_cons. cbn [map List.filter].
  destruct (includes (selectedLinks w) (link_name v)) eqn:Hin.
  - assert (export_entry yaml_stringify (selectedLinks w) v
            = Some (yaml_stringify v)) as -> by (unfold export_entry; by rewrite Hin).
    apply includes_spec in Hin. rewrite decide_True by done.
    cbn [truthy].
    destruct (String.eqb_spec (yaml_stringify v) ""); [by destruct (Hne v)|].
    cbn [negb]. rewrite !fmap_cons, <- IH. reflexivity.
  - assert (export_entry yaml_stringify (selectedLinks w) v = None) as ->
      by (unfold export_entry; by rewrite Hin).
    rewrite decide_False; [exact IH|].
    intros Hn. apply includes_spec in Hn. congruence.
Qed.

Lemma export_records_selected yaml_stringify w :
  (forall v, yaml_stringify v <> "") ->
  export_records yaml_stringify w
  = yaml_stringify <$> filter (fun v => link_name v ∈ selectedLinks w) (page_values w).
Proof.
  intros Hne. unfold export_records. rewrite export_entries_selected by done.
  induction (yaml_stringify <$> _) as [|r rs IH]; [done|].
  rewrite fmap_cons. cbn. by rewrite IH.
Qed.

(** What is joined once the entries that are not documents are dropped. *)
Lemma join_records sep (rs : list string) :
  join sep (Some <$> rs) = String.concat sep rs.
Proof.
  unfold join. f_equal. induction rs as [|r rs IH]; [done|].
  rewrite fmap_cons. cbn [map]. by rewrite IH.
Qed.

Lemma selected_on_page_count (sel : list string) (vs : list Link) :
  NoDup (link_name <$> vs) -> NoDup sel ->
  (forall n, n ∈ sel -> n ∈ link_name <$> vs) ->
  length (filter (fun v => link_name v ∈ sel) vs) = length sel.
Proof.
  intros Hvs Hsel Hsub.
  rewrite <- (length_fmap link_name). apply Permutation_length.
  apply NoDup_Permutation; [|done|].
  - apply (NoDup_fmap_2_strong link_name).
    + intros x y Hx Hy Heq.
      apply list_elem_of_filter in Hx as [_ Hx].
      apply list_elem_of_filter in Hy as [_ Hy].
      apply list_elem_of_lookup_1 in Hx as [i Hi].
      apply list_elem_of_lookup_1 in Hy as [j Hj].
      assert (i = j) as ->; [|congruence].
      eapply NoDup_lookup; [exact Hvs|by rewrite list_lookup_fmap, Hi|].
      by rewrite list_lookup_fmap, Hj, Heq.
    + apply NoDup_filter.
      eapply NoDup_fmap_1; done.
  - intros n. rewrite list_elem_of_fmap. split.
    + intros (v & -> & Hv). by apply list_elem_of_filter in Hv as [Hv _].
    + intros Hn. pose proof (Hsub n Hn) as Hv.
      apply list_elem_of_fmap in Hv as (v & -> & Hv).
      exists v. split; [done|]. by apply list_elem_of_filter.
Qed.

(** C6. With M distinct selected identifiers, all on a page of
    distinctly named links, the export maps the page to one document
    per selected link and nothing for the others, M documents in all,
    and offers for download the file made of these documents, in page
    order, each separated from the next by a line of three dashes; and
    the export does nothing exactly when the page is empty. *)
Theorem handleExportSelectedLinks_records yaml_stringify w :
  (forall v, yaml_stringify v <> "") ->
  NoDup (link_name <$> page_values w) ->
  NoDup (selectedLinks w) ->
  (forall n, n ∈ selectedLinks w -> n ∈ link_name <$> page_values w) ->
  let w' := exec (handleExportSelectedLinks yaml_stringify) w in
  let selected := filter (fun v => link_name v ∈ selectedLinks w) (page_values w) in
  export_entries yaml_stringify w = Some <$> (yaml_stringify <$> selected)
  ∧ length selected = length (selectedLinks w)
  ∧ (items (links w) = [] -> w' = w)
  ∧ (items (links w) <> [] ->
       w' = log [EvDownload "links.yaml" "text/yaml"
                   (String.concat ("---" +:+ String "010"%char "")
                      (yaml_stringify <$> selected))] w)
  ∧ (w' = w <-> items (links w) = []).
Proof.
  intros Hne Hnames Hsel Hsub w' selected. subst w' selected.
  assert (items (links w) <> [] ->
          exec (handleExportSelectedLinks yaml_stringify) w
          = log [EvDownload "links.yaml" "text/yaml"
                   (join separator (export_entries yaml_stringify w))] w)
    as Hsome.
  { intros Hitems. unfold exec, handleExportSelectedLinks. run_steps.
    destruct (items (links w)); [done|]. reflexivity. }
  assert (items (links w) = [] ->
          exec (handleExportSelectedLinks yaml_stringify) w = w) as Hnone.
  { intros Hitems. unfold exec, handleExportSelectedLinks. run_steps.
    by rewrite Hitems. }
  split_and!; [| |done| |].
  - by apply export_entries_selected.
  - by apply selected_on_page_count.
  - intros Hitems. rewrite (Hsome Hitems).
    rewrite export_entries_selected by done. by rewrite join_records.
  - split; [|done]. intros Hsame.
    destruct (decide (items (links w) = [])) as [|Hitems]; [done|].
    rewrite (Hsome Hitems) in Hsame.
    apply (f_equal (fun x => length (trace x))) in Hsame. simpl in Hsame.
    rewrite length_app in Hsame. simpl in Hsame. lia.
Qed.

(** ** What every run of handleFetchLinks does *)

Lemma handleFetchLinks_summary env options w :
  outcome (handleFetchLinks env options) w = Ok tt
  ∧ trace (exec (handleFetchLinks env options) w)
    = trace w ++ fetch_news env options w
  ∧ selectedGroup (exec (handleFetchLinks env options) w) = selectedGroup w
  ∧ selectedLink (exec (handleFetchLinks env options) w) = selectedLink w
  ∧ loading (exec (handleFetchLinks env options) w) = false.
Proof.
  unfold outcome, exec.
  destruct (membership (selectedGroup w)) as [names|] eqn:Hm.
  - destruct (reply env (issued w)) as [[data|]|] eqn:Hr.
    + by rewrite (handleFetchLinks_fulfilled _ _ _ names data Hm Hr).
    + by rewrite (handleFetchLinks_failed _ _ _ names Hm) by congruence.
    + by rewrite (handleFetchLinks_failed _ _ _ names Hm) by congruence.
  - by rewrite (handleFetchLinks_skipped _ _ _ Hm).
Qed.

Lemma handleFetchLinks_news env options w :
  news w (exec (handleFetchLinks env options) w) = fetch_news env options w.
Proof. apply news_app. apply handleFetchLinks_summary. Qed.

(** The run depends on the environment only through the answer to the
    request it issues itself. *)
Lemma handleFetchLinks_env env env' options w :
  reply env (issued w) = reply env' (issued w) ->
  handleFetchLinks env options w = handleFetchLinks env' options w.
Proof.
  intros Heq.
  destruct (membership (selectedGroup w)) as [names|] eqn:Hm.
  - destruct (reply env (issued w)) as [[data|]|] eqn:Hr.
    + rewrite (handleFetchLinks_fulfilled env _ _ names data Hm Hr).
      rewrite (handleFetchLinks_fulfilled env' _ _ names data Hm) by congruence.
      unfold fetch_news. by rewrite Hr, <- Heq.
    + rewrite (handleFetchLinks_failed env _ _ names Hm) by congruence.
      rewrite (handleFetchLinks_failed env' _ _ names Hm) by congruence.
      unfold fetch_news. by rewrite Hr, <- Heq.
    + rewrite (handleFetchLinks_failed env _ _ names Hm) by congruence.
      rewrite (handleFetchLinks_failed env' _ _ names Hm) by congruence.
      unfold fetch_news. by rewrite Hr, <- Heq.
  - rewrite !(handleFetchLinks_skipped _ _ _ Hm). unfold fetch_news.
    by rewrite Hm.
Qed.

Lemma fetch_news_requests env options w id r :
  EvRequest id r ∈ fetch_news env options w -> method r = GET ∧ id = issued w.
Proof.
  unfold fetch_news.
  destruct (muted options), (membership (selectedGroup w)) as [names|],
    (reply env (issued w)) as [[d|]|]; simpl;
    rewrite ?elem_of_cons, ?elem_of_nil; intros H;
    repeat (destruct H as [H|H]; try discriminate H; try done);
    injection H as -> ->; done.
Qed.

Lemma fetch_news_settled env options w id ok :
  EvSettled id ok ∈ fetch_news env options w -> id = issued w.
Proof.
  unfold fetch_news.
  destruct (muted options), (membership (selectedGroup w)) as [names|],
    (reply env (issued w)) as [[d|]|]; simpl;
    rewrite ?elem_of_cons, ?elem_of_nil; intros H;
    repeat (destruct H as [H|H]; try discriminate H; try done);
    injection H as -> ->; done.
Qed.

Lemma fetch_news_errors env options w label e :
  EvConsoleError label e ∈ fetch_news env options w ->
  label = Some "Failed to fetch links".
Proof.
  unfold fetch_news.
  destruct (muted options), (membership (selectedGroup w)) as [names|],
    (reply env (issued w)) as [[d|]|]; simpl;
    rewrite ?elem_of_cons, ?elem_of_nil; intros H;
    repeat (destruct H as [H|H]; try discriminate H; try done);
    injection H as -> ->; done.
Qed.

(** ** Delete, and the save of a new link *)

Lemma handleFetchGroups_run env w :
  handleFetchGroups env w
  = (Ok tt,
     {| heap := heap w; links := links w; loading := loading w;
        selectedLink := selectedLink w; selectedLinks := selectedLinks w;
        selectedGroup := reselect env (issued w) (selectedGroup w);
        keyword := keyword w; fuse := fuse w;
        trace := trace w ++ groups_news env w;
        issued := S (issued w) |}).
Proof.
  unfold handleFetchGroups, try_catch_finally, groups_news. run_steps.
  destruct (reply env (issued w)); tidy_world.
Qed.

(** C8. A confirmed delete sends the request and goes on to the refetch
    without waiting for the answer: the log of the run is the delete
    request followed by what the refetch logs, the promise of the delete
    is never settled in it, the [catch] of the callback logs nothing,
    the callback completes normally, and two environments that differ
    only in the answer to the delete give the same run. *)
Theorem handleDelete_ignores_outcome env env' link w :
  (forall id, id <> issued w -> reply env id = reply env' id) ->
  let w' := exec (handleDelete env true link) w in
  news w w' = EvRequest (issued w) (delete_request link)
              :: fetch_news env None (set_issued (S (issued w)) w)
  ∧ outcome (handleDelete env true link) w = Ok tt
  ∧ (forall ok, EvSettled (issued w) ok ∉ news w w')
  ∧ (forall e, EvConsoleError None e ∉ news w w')
  ∧ handleDelete env' true link w = handleDelete env true link w.
Proof.
  intros Henv w'.
  set (w1 := set_issued (S (issued w)) (log [EvRequest (issued w) (delete_request link)] w)).
  assert (forall e, handleDelete e true link w
                    = (Ok tt, exec (handleFetchLinks e None) w1)) as Hrun.
  { intros e. unfold handleDelete, handleDelete_onConfirm, try_catch_finally.
    run_steps. reflexivity. }
  assert (news w w' = EvRequest (issued w) (delete_request link)
                      :: fetch_news env None (set_issued (S (issued w)) w))
    as Hnews.
  { subst w'. unfold exec at 1. rewrite Hrun. simpl. apply news_app.
    destruct (handleFetchLinks_summary env None w1) as (_ & -> & _).
    subst w1. simpl. by rewrite <- app_assoc. }
  split_and!.
  - done.
  - unfold outcome. by rewrite Hrun.
  - intros ok. rewrite Hnews, not_elem_of_cons. split; [done|].
    intros Hin. apply fetch_news_settled in Hin. simpl in Hin. lia.
  - intros e. rewrite Hnews, not_elem_of_cons. split; [done|].
    intros Hin. by apply fetch_news_errors in Hin.
  - rewrite !Hrun. f_equal. unfold exec. f_equal.
    apply handleFetchLinks_env. symmetry. apply Henv. subst w1. simpl. lia.
Qed.

Lemma groups_news_requests env w id r :
  EvRequest id r ∈ groups_news env w -> method r = GET.
Proof.
  unfold groups_news. destruct (reply env (issued w));
    rewrite ?elem_of_cons, ?elem_of_nil; intros H;
    repeat (destruct H as [H|H]; try discriminate H; try done);
    by injection H as -> ->.
Qed.

(** C10. Saving a new link while no group is selected: the run issues
    no write (every request in its log is a read), lists the groups,
    runs the fetch of the link page, and completes normally. *)
Theorem onLinkSaved_without_group env link w :
  selectedGroup w = None ->
  let w' := exec (onLinkSaved env link) w in
  let listed := exec (handleFetchGroups env) w in
  outcome (onLinkSaved env link) w = Ok tt
  ∧ w' = exec (handleFetchLinks env None) listed
  ∧ news w w' = groups_news env w ++ fetch_news env None listed
  ∧ (forall id r, EvRequest id r ∈ news w w' -> method r = GET).
Proof.
  intros Hg w' listed.
  assert (onLinkSaved env link w
          = handleFetchLinks env None listed) as Hrun.
  { unfold onLinkSaved, cloneDeep. subst listed. unfold exec.
    unfold bind at 1 2. unfold get. rewrite Hg. unfold ret at 1.
    unfold bind. by rewrite handleFetchGroups_run. }
  assert (news w w' = groups_news env w ++ fetch_news env None listed) as Hnews.
  { subst w'. unfold exec at 1. rewrite Hrun. apply news_app.
    destruct (handleFetchLinks_summary env None listed) as (_ & Htr & _).
    unfold exec in Htr. rewrite Htr. subst listed. unfold exec.
    rewrite handleFetchGroups_run. simpl. by rewrite <- app_assoc. }
  split_and!.
  - unfold outcome. rewrite Hrun. apply handleFetchLinks_summary.
  - subst w'. unfold exec at 1. by rewrite Hrun.
  - done.
  - intros id r. rewrite Hnews, elem_of_app. intros [Hin|Hin].
    + by eapply groups_news_requests.
    + by apply fetch_news_requests in Hin as [? _].
Qed.

Lemma onLinkSaved_with_membership env link w g s ms :
  selectedGroup w = Some g -> group_spec g = Some s -> group_links s = Some ms ->
  let put := replace_group (with_member g s ms (link_name link)) in
  let sent := set_issued (S (issued w)) (log [EvRequest (issued w) put] w) in
  onLinkSaved env link w
  = match reply env (issued w) with
    | Fulfilled _ =>
        handleFetchLinks env None
          (exec (handleFetchGroups env) (log [EvSettled (issued w) true] sent))
    | Rejected =>
        (Throw (RequestFailed (issued w)), log [EvSettled (issued w) false] sent)
    end.
Proof.
  intros Hg Hs Hms put sent. subst put sent.
  unfold onLinkSaved, cloneDeep, replace_group.
  run_steps. rewrite Hg. unfold push_link. rewrite Hs, Hms. run_steps.
  fold (with_member g s ms (link_name link)).
  change (group_name (with_member g s ms (link_name link))) with (group_name g).
  destruct (reply env (issued w)); simpl.
  - by rewrite !handleFetchGroups_run.
  - reflexivity.
Qed.

(** X24. A new link saved while group G, with membership sequence ms,
    is selected: the first thing the run does is send one PUT to
    /apis/core.halo.run/v1alpha1/linkgroups/ followed by G's name, whose
    body is G with the link's name appended to ms and nothing else
    changed; once that write is fulfilled the groups are listed, the
    link page is fetched and the call completes normally. *)
Theorem onLinkSaved_appends_member env link w g s ms :
  selectedGroup w = Some g -> group_spec g = Some s -> group_links s = Some ms ->
  let put :=
    {| method := PUT;
       target := "/apis/core.halo.run/v1alpha1/linkgroups/" +:+ group_name g;
       params := None;
       body := GroupBody
                 {| group_metadata := group_metadata g;
                    group_spec :=
                      Some {| group_displayName := group_displayName s;
                              group_priority := group_priority s;
                              group_links := Some (ms ++ [link_name link]) |} |} |} in
  let w' := exec (onLinkSaved env link) w in
  let sent := set_issued (S (issued w)) w in
  let listed := set_selectedGroup (reselect env (S (issued w)) (Some g))
                  (set_issued (S (S (issued w))) w) in
  (exists rest, news w w' = EvRequest (issued w) put :: rest)
  ∧ (forall p, reply env (issued w) = Fulfilled p ->
       outcome (onLinkSaved env link) w = Ok tt
       ∧ news w w' = [EvRequest (issued w) put; EvSettled (issued w) true]
                     ++ groups_news env sent ++ fetch_news env None listed
       ∧ selectedGroup w' = reselect env (S (issued w)) (Some g)).
Proof.
  intros Hg Hs Hms put w' sent listed.
  pose proof (onLinkSaved_with_membership env link w g s ms Hg Hs Hms) as Hrun.
  cbv zeta in Hrun.
  change (replace_group (with_member g s ms (link_name link))) with put in Hrun.
  unfold exec in Hrun.
  rewrite handleFetchGroups_run in Hrun. cbn [snd] in Hrun.
  split.
  - subst w'. unfold exec at 1. rewrite Hrun.
    destruct (reply env (issued w)) as [p|].
    + eexists. apply news_app.
      match goal with
      | |- context [handleFetchLinks env None ?x] =>
          destruct (handleFetchLinks_summary env None x) as (_ & Htr & _)
      end.
      unfold exec in Htr. rewrite Htr. cbn. rewrite <- !app_assoc. reflexivity.
    + eexists. apply news_app. cbn. rewrite <- app_assoc. reflexivity.
  - intros p Hp. subst w'. unfold outcome, exec. rewrite Hrun, Hp.
    match goal with
    | |- context [handleFetchLinks env None ?x] =>
        destruct (handleFetchLinks_summary env None x) as (Hok & Htr & Hsel & _)
    end.
    unfold outcome, exec in *. split_and!.
    + done.
    + apply news_app. rewrite Htr. cbn. rewrite <- !app_assoc. cbn.
      unfold groups_news, fetch_news. cbn. rewrite Hg. reflexivity.
    + rewrite Hsel. cbn. by rewrite Hg.
Qed.

(** ** Saving the order *)

Lemma save_links_run value : forall vs k w,
  NoDup value ->
  Forall2 (fun l v => heap w !! l = Some v) value vs ->
  exists h',
    map_indexed save_link k value w
    = (Ok (seq (issued w) (length value)),
       {| heap := h'; links := links w; loading := loading w;
          selectedLink := selectedLink w; selectedLinks := selectedLinks w;
          selectedGroup := selectedGroup w; keyword := keyword w;
          fuse := fuse w;
          trace := trace w ++
                   imap (fun i v => EvRequest (issued w + i)
                           (replace_link (set_priority (Z.of_nat (k + i)) v))) vs;
          issued := issued w + length value |})
    ∧ length h' = length (heap w)
    ∧ (forall i l v, value !! i = Some l -> vs !! i = Some v ->
         h' !! l = Some (set_priority (Z.of_nat (k + i)) v))
    ∧ (forall l, l ∉ value -> h' !! l = heap w !! l).
Proof.
  induction value as [|l t IH]; intros vs k w Hnd Hvs.
  - apply Forall2_nil_inv_l in Hvs as ->. exists (heap w). simpl.
    split_and!; [|done|by intros i l v; rewrite lookup_nil|done].
    unfold ret. f_equal.
    apply world_ext; cbn; try reflexivity; [symmetry; apply app_nil_r|lia].
  - apply Forall2_cons_inv_l in Hvs as (v & vt & Hv & Hvt & ->).
    apply NoDup_cons in Hnd as [Hl Hnd].
    set (v' := set_priority (Z.of_nat k) v).
    set (w1 := set_issued (S (issued w))
                 (log [EvRequest (issued w) (replace_link v')]
                    (set_heap (<[l := v']> (heap w)) w))).
    assert (l < length (heap w)) as Hlt by (by eapply lookup_lt_Some).
    assert (save_link k l w = (Ok (issued w), w1)) as Hstep.
    { unfold save_link. unfold bind at 1.
      rewrite (update_run l _ w v Hv). unfold bind, deref. simpl.
      rewrite list_lookup_insert_eq by done. reflexivity. }
    destruct (IH vt (S k) w1) as (h' & Hrun & Hlen & Hin & Hout).
    { done. }
    { apply Forall2_same_length_lookup in Hvt as [Hlen Hvt].
      apply Forall2_same_length_lookup. split; [done|].
      intros i x y Hx Hy. subst w1. simpl.
      rewrite list_lookup_insert_ne; [by eapply Hvt|].
      intros ->. apply Hl. by eapply list_elem_of_lookup_2. }
    exists h'. split_and!.
    + simpl. unfold bind at 1. rewrite Hstep. unfold bind at 1. rewrite Hrun.
      unfold ret. f_equal. apply world_ext; cbn; try reflexivity.
      * rewrite <- app_assoc. f_equal. simpl. f_equal.
        -- subst v'. by rewrite Nat.add_0_r, Nat.add_0_r.
        -- apply imap_ext. intros i x _. simpl. do 3 f_equal; lia.
      * lia.
    + rewrite Hlen. subst w1. simpl. by rewrite length_insert.
    + intros [|i] l0 v0 Hl0 Hv0; simpl in *.
      * injection Hl0 as <-. injection Hv0 as <-.
        rewrite Hout by done. subst w1. simpl. rewrite Nat.add_0_r.
        by apply list_lookup_insert_eq.
      * rewrite (Hin i l0 v0 Hl0 Hv0). do 3 f_equal. lia.
    + intros l0 Hl0. apply not_elem_of_cons in Hl0 as [Hne Hl0].
      rewrite (Hout l0 Hl0). subst w1. simpl.
      by apply list_lookup_insert_ne.
Qed.

Lemma handleFetchLinks_heap env options w :
  exists fresh, heap (exec (handleFetchLinks env options) w) = heap w ++ fresh.
Proof.
  unfold exec.
  destruct (membership (selectedGroup w)) as [names|] eqn:Hm.
  - destruct (reply env (issued w)) as [[data|]|] eqn:Hr.
    + rewrite (handleFetchLinks_fulfilled _ _ _ names data Hm Hr). by eexists.
    + rewrite (handleFetchLinks_failed _ _ _ names Hm) by congruence.
      exists []. simpl. by rewrite app_nil_r.
    + rewrite (handleFetchLinks_failed _ _ _ names Hm) by congruence.
      exists []. simpl. by rewrite app_nil_r.
  - rewrite (handleFetchLinks_skipped _ _ _ Hm).
    exists []. simpl. by rewrite app_nil_r.
Qed.

Lemma finally_fetch {A} env options (r : Result A) w :
  match handleFetchLinks env options w with
  | (Ok _, w2) => (r, w2)
  | (Throw e, w2) => (Throw e, w2)
  end = (r, exec (handleFetchLinks env options) w).
Proof.
  pose proof (proj1 (handleFetchLinks_summary env options w)) as Hok.
  unfold outcome, exec in *.
  destruct (handleFetchLinks env options w) as [r' w2]. simpl in *. by subst.
Qed.

Lemma handleSaveInBatch_run env w vs :
  NoDup (items (links w)) ->
  Forall2 (fun l v => heap w !! l = Some v) (items (links w)) vs ->
  let ids := seq (issued w) (length (items (links w))) in
  exists h',
    handleSaveInBatch env w
    = (Ok tt,
       exec (handleFetchLinks env muted_refetch)
         {| heap := h'; links := links w; loading := loading w;
            selectedLink := selectedLink w; selectedLinks := selectedLinks w;
            selectedGroup := selectedGroup w; keyword := keyword w;
            fuse := fuse w;
            trace := trace w ++
                     imap (fun i v => EvRequest (issued w + i)
                             (replace_link (set_priority (Z.of_nat i) v))) vs
                     ++ settle_news env ids;
            issued := issued w + length (items (links w)) |})
    ∧ length h' = length (heap w)
    ∧ (forall i l v, items (links w) !! i = Some l -> vs !! i = Some v ->
         h' !! l = Some (set_priority (Z.of_nat i) v)).
Proof.
  intros Hnd Hvs ids.
  destruct (save_links_run (items (links w)) vs 0 w Hnd Hvs)
    as (h' & Hrun & Hlen & Hin & _).
  exists h'. split_and!; [|done|done].
  unfold handleSaveInBatch, try_catch_finally.
  fold muted_refetch.
  unfold bind at 1 2. unfold get. rewrite Hrun.
  unfold await_all, settle_news. fold ids.
  destruct (first_rejection env ids) as [j|]; run_steps;
    rewrite finally_fetch; unfold exec; do 3 f_equal;
    apply world_ext; cbn; rewrite <- ?app_assoc; reflexivity.
Qed.

(** *** Which writes are in flight when the refetch leaves *)

Lemma pending_over_writes (f : nat -> Link -> Link) vs : forall p a rest,
  pending_at_refetch p
    (imap (fun i v => EvRequest (a + i) (replace_link (f i v))) vs ++ rest)
  = pending_at_refetch (p ++ seq a (length vs)) rest.
Proof.
  revert f. induction vs as [|v vs IH]; intros f p a rest; simpl.
  - by rewrite app_nil_r.
  - rewrite Nat.add_0_r.
    rewrite (imap_ext _ (fun i u => EvRequest (S a + i)
                           (replace_link ((f ∘ S) i u))))
      by (intros i u _; simpl; do 2 f_equal; lia).
    rewrite (IH (f ∘ S)). by rewrite <- app_assoc.
Qed.

Lemma filter_all {A} (P : A -> Prop) `{!forall x, Decision (P x)} (l : list A) :
  (forall x, P x) -> filter P l = l.
Proof.
  intros HP. induction l as [|x l IH]; [done|].
  rewrite filter_cons_True by done. by rewrite IH.
Qed.

Lemma filter_none {A} (P : A -> Prop) `{!forall x, Decision (P x)} (l : list A) :
  (forall x, x ∈ l -> ~ P x) -> filter P l = [].
Proof.
  induction l as [|x l IH]; intros HP; [done|].
  rewrite filter_cons_False by (apply HP; apply list_elem_of_here).
  apply IH. intros y Hy. apply HP. by apply list_elem_of_further.
Qed.

Lemma pending_over_settled ok ds : forall p rest,
  pending_at_refetch p (map (fun i => EvSettled i ok) ds ++ rest)
  = pending_at_refetch (filter (fun i => i ∉ ds) p) rest.
Proof.
  induction ds as [|d ds IH]; intros p rest; simpl.
  - f_equal. symmetry. apply filter_all. intros i. apply not_elem_of_nil.
  - rewrite IH. f_equal. rewrite list_filter_filter.
    apply list_filter_iff. intros i. rewrite not_elem_of_cons. tauto.
Qed.

Lemma pending_at_muted_refetch env w names p :
  membership (selectedGroup w) = Some names ->
  pending_at_refetch p (fetch_news env muted_refetch w) = Some p.
Proof. intros Hm. unfold fetch_news. rewrite Hm. reflexivity. Qed.

Lemma pending_after_settle env ids names w :
  membership (selectedGroup w) = Some names ->
  pending_at_refetch ids (settle_news env ids ++ fetch_news env muted_refetch w)
  = Some (filter (fun i => i ∉ settled_ids env ids) ids).
Proof.
  intros Hm. unfold settle_news, settled_ids.
  destruct (first_rejection env ids) as [j|].
  - rewrite <- app_assoc, pending_over_settled. simpl.
    rewrite (pending_at_muted_refetch _ _ names) by done.
    f_equal. rewrite list_filter_filter. apply list_filter_iff.
    intros i. rewrite elem_of_app, list_elem_of_singleton. tauto.
  - rewrite pending_over_settled.
    by rewrite (pending_at_muted_refetch _ _ names).
Qed.

(** *** What the fulfilled writes leave on the server *)

Lemma link_name_set_priority p v : link_name (set_priority p v) = link_name v.
Proof. unfold set_priority. by destruct (link_spec v). Qed.

Lemma link_priority_set_priority p v s :
  link_spec v = Some s -> link_priority (set_priority p v) = Some p.
Proof. intros Hs. unfold set_priority, link_priority. by rewrite Hs. Qed.

Lemma link_url_eqb n m : String.eqb (link_url n) (link_url m) = String.eqb n m.
Proof. reflexivity. Qed.

Lemma first_rejection_none env ids :
  first_rejection env ids = None -> forall i, i ∈ ids -> rejected env i = false.
Proof.
  induction ids as [|j ids IH]; intros Hnone i Hi.
  - by apply elem_of_nil in Hi.
  - simpl in Hnone. destruct (first_rejection env ids) as [k|].
    + by destruct (rejected env j && earlier env j k).
    + destruct (rejected env j) eqn:Hj; [done|].
      apply elem_of_cons in Hi as [->|Hi]; [done|by apply IH].
Qed.

Lemma written_by_settle_news env address ids :
  omap (written_by env address) (settle_news env ids) = [].
Proof.
  assert (forall ok l, omap (written_by env address)
                         (map (fun i => EvSettled i ok) l) = []) as Hmap.
  { intros ok l. by induction l. }
  unfold settle_news. destruct (first_rejection env ids).
  - by rewrite omap_app, Hmap.
  - apply Hmap.
Qed.

Lemma written_by_fetch_news env address options w :
  omap (written_by env address) (fetch_news env options w) = [].
Proof.
  unfold fetch_news.
  by destruct (muted options), (membership (selectedGroup w)),
    (reply env (issued w)) as [[d|]|].
Qed.

Lemma written_elsewhere env n (f : nat -> Link -> Link) vs : forall a,
  (forall i v, link_name (f i v) = link_name v) ->
  n ∉ link_name <$> vs ->
  omap (written_by env (link_url n))
    (imap (fun i v => EvRequest (a + i) (replace_link (f i v))) vs) = [].
Proof.
  revert f. induction vs as [|u vs IH]; intros f a Hf Hn; [done|].
  rewrite fmap_cons, not_elem_of_cons in Hn. destruct Hn as [Hne Hn].
  cbn [imap omap list_omap]. unfold written_by at 1. cbn [method body target replace_link].
  rewrite link_url_eqb, Hf.
  destruct (String.eqb_spec (link_name u) n) as [Heq|_]; [by destruct Hne|].
  cbn [andb].
  rewrite (imap_ext _ (fun i v => EvRequest (S a + i)
                         (replace_link ((f ∘ S) i v))))
    by (intros i v _; simpl; do 2 f_equal; lia).
  apply (IH (f ∘ S)); [|done]. intros i v. apply Hf.
Qed.

Lemma written_once env (f : nat -> Link -> Link) vs : forall a i v,
  (forall k u, link_name (f k u) = link_name u) ->
  (forall k, k < length vs -> rejected env (a + k) = false) ->
  NoDup (link_name <$> vs) ->
  vs !! i = Some v ->
  omap (written_by env (link_url (link_name v)))
    (imap (fun k u => EvRequest (a + k) (replace_link (f k u))) vs)
  = [f i v].
Proof.
  revert f. induction vs as [|u vs IH]; intros f a i v Hf Hok Hnd Hi; [done|].
  rewrite fmap_cons in Hnd. apply NoDup_cons in Hnd as [Hu Hnd].
  cbn [imap omap list_omap]. unfold written_by at 1.
  cbn [method body target replace_link]. rewrite link_url_eqb, Hf.
  rewrite (imap_ext _ (fun k x => EvRequest (S a + k)
                         (replace_link ((f ∘ S) k x))))
    by (intros k x _; simpl; do 2 f_equal; lia).
  destruct i as [|i]; simpl in Hi.
  - injection Hi as ->. rewrite String.eqb_refl.
    rewrite (Hok 0) by (simpl; lia). cbn [andb negb].
    rewrite (written_elsewhere env (link_name v) (f ∘ S) vs (S a)); [done| |done].
    intros k x. apply Hf.
  - destruct (String.eqb_spec (link_name u) (link_name v)) as [Heq|_].
    + destruct Hu. rewrite Heq. apply list_elem_of_fmap. exists v.
      split; [done|]. by eapply list_elem_of_lookup_2.
    + cbn [andb]. apply (IH (f ∘ S) (S a) i v); [intros k x; apply Hf| |done|done].
      intros k Hk. replace (S a + k) with (a + S k) by lia.
      apply Hok. simpl. lia.
Qed.

(** C1, as the code has it.  A reorder that ends on a sequence of
    distinct Link objects: every link of the sequence is written in
    place with its zero-based position as priority (a link without a
    spec is left as it is); one replacing write per item is sent, in
    sequence order, carrying the link as just written; the run then
    waits until every write is fulfilled or until the first rejection
    arrives, whichever comes first, logs the rejection if there is one,
    and runs the muted fetch of the page, so the loading flag is never
    switched on; the writes not settled by then are still in flight
    when the list request leaves (none if no write was rejected).  If
    no write is rejected and the links have distinct names, the server
    holds for each item of the sequence the link with its position as
    priority. *)
Theorem reorder_saves_positions env value vs w :
  NoDup value ->
  Forall2 (fun l v => heap w !! l = Some v) value vs ->
  let w' := exec (reorder env value) w in
  let ids := seq (issued w) (length value) in
  let writes :=
    imap (fun i v => EvRequest (issued w + i)
            (replace_link (set_priority (Z.of_nat i) v))) vs in
  let before_refetch :=
    set_issued (issued w + length value)
      (set_links (with_items (links w) value) w) in
  outcome (reorder env value) w = Ok tt
  ∧ (forall i l v, value !! i = Some l -> vs !! i = Some v ->
       heap w' !! l = Some (set_priority (Z.of_nat i) v))
  ∧ (forall i l v s, value !! i = Some l -> vs !! i = Some v ->
       link_spec v = Some s ->
       link_priority <$> heap w' !! l = Some (Some (Z.of_nat i)))
  ∧ length writes = length value
  ∧ news w w' = writes ++ settle_news env ids
                ++ fetch_news env muted_refetch before_refetch
  ∧ (EvLoading true ∉ news w w')
  ∧ (forall names, membership (selectedGroup w) = Some names ->
       pending_at_refetch [] (news w w')
       = Some (filter (fun i => i ∉ settled_ids env ids) ids))
  ∧ (forall names, membership (selectedGroup w) = Some names ->
       first_rejection env ids = None ->
       pending_at_refetch [] (news w w') = Some [])
  ∧ (first_rejection env ids = None -> NoDup (link_name <$> vs) ->
       forall i v s, vs !! i = Some v -> link_spec v = Some s ->
         link_priority <$> persisted env (news w w') (link_name v)
         = Some (Some (Z.of_nat i))).
Proof.
  intros Hnd Hvs w' ids writes before_refetch.
  set (w0 := set_links (with_items (links w) value) w).
  destruct (handleSaveInBatch_run env w0 vs Hnd Hvs)
    as (h' & Hrun & Hlen & Hin).
  simpl in Hrun. fold ids writes in Hrun.
  match type of Hrun with
  | _ = (_, exec _ ?x) => set (w1 := x) in *
  end.
  assert (reorder env value w = (Ok tt, exec (handleFetchLinks env muted_refetch) w1))
    as Hreorder.
  { unfold reorder, searchResults_set. run_steps. fold w0. by rewrite Hrun. }
  assert (fetch_news env muted_refetch w1
          = fetch_news env muted_refetch before_refetch) as Hfetch by reflexivity.
  assert (news w w' = writes ++ settle_news env ids
                      ++ fetch_news env muted_refetch before_refetch) as Hnews.
  { subst w'. unfold exec at 1. rewrite Hreorder. simpl. apply news_app.
    destruct (handleFetchLinks_summary env muted_refetch w1) as (_ & -> & _).
    rewrite Hfetch. subst w1. simpl. by rewrite <- !app_assoc. }
  assert (forall i l v, value !! i = Some l -> vs !! i = Some v ->
            heap w' !! l = Some (set_priority (Z.of_nat i) v)) as Hheap.
  { intros i l v Hl Hv. subst w'. unfold exec at 1. rewrite Hreorder. simpl.
    destruct (handleFetchLinks_heap env muted_refetch w1) as [fresh ->].
    subst w1. simpl. rewrite lookup_app_l; [by eapply Hin|].
    rewrite Hlen. subst w0. simpl.
    apply Forall2_same_length_lookup in Hvs as [_ Hvs].
    eapply lookup_lt_Some. by eapply (Hvs i). }
  assert (length writes = length value) as Hwrites.
  { subst writes. rewrite length_imap. symmetry. by eapply Forall2_length. }
  assert (forall names, membership (selectedGroup w) = Some names ->
            pending_at_refetch [] (news w w')
            = Some (filter (fun i => i ∉ settled_ids env ids) ids)) as Hpending.
  { intros names Hm. rewrite Hnews. subst writes.
    rewrite (pending_over_writes (fun i v => set_priority (Z.of_nat i) v)).
    replace (length vs) with (length value)
      by (by eapply Forall2_length).
    simpl. fold ids. by apply (pending_after_settle env ids names). }
  split_and!.
  - unfold outcome. by rewrite Hreorder.
  - done.
  - intros i l v s Hl Hv Hs. rewrite (Hheap i l v Hl Hv). simpl.
    by rewrite (link_priority_set_priority _ _ s).
  - done.
  - done.
  - rewrite Hnews, !elem_of_app. intros [Hin'|[Hin'|Hin']].
    + subst writes. apply elem_of_lookup_imap in Hin' as (i & v & Heq & _).
      discriminate Heq.
    + unfold settle_news in Hin'. destruct (first_rejection env ids).
      * rewrite elem_of_app, list_elem_of_fmap, !elem_of_cons in Hin'.
        destruct Hin' as [(x & Heq & _)|[Heq|[Heq|Heq]]];
          try discriminate Heq. by apply elem_of_nil in Heq.
      * apply list_elem_of_fmap in Hin' as (x & Heq & _). discriminate Heq.
    + unfold fetch_news in Hin'. simpl in Hin'.
      destruct (membership (selectedGroup w)), (reply env (issued w + length value))
        as [[d|]|]; simpl in Hin';
        rewrite ?elem_of_cons, ?elem_of_nil in Hin';
        repeat (destruct Hin' as [Hin'|Hin']; try discriminate Hin'; try done).
  - done.
  - intros names Hm Hnone. rewrite (Hpending names Hm).
    unfold settled_ids. rewrite Hnone. f_equal.
    apply filter_none. intros x Hx Hnot. by apply Hnot.
  - intros Hnone Hnames i v s Hv Hs. unfold persisted. rewrite Hnews.
    rewrite !omap_app, written_by_settle_news, written_by_fetch_news.
    rewrite !app_nil_r. subst writes.
    rewrite (written_once env (fun k u => set_priority (Z.of_nat k) u) vs
               (issued w) i v); [|by intros; apply link_name_set_priority| |done|done].
    + simpl. by rewrite (link_priority_set_priority _ _ s).
    + intros k Hk. apply (first_rejection_none env ids Hnone).
      subst ids. apply elem_of_seq.
      erewrite Forall2_length by exact Hvs. lia.
Qed.

(** ** The hypotheses hold on every page a fetch has loaded *)

Lemma valid_page_values w :
  valid w ->
  Forall2 (fun l v => heap w !! l = Some v) (items (links w)) (page_values w).
Proof.
  unfold valid, page_values. induction 1 as [|l t Hl Ht IH]; [constructor|].
  destruct (lookup_lt_is_Some_2 _ _ Hl) as [v Hv].
  change (omap (fun l => heap w !! l) (l :: t))
    with (match heap w !! l with
          | Some y => y :: omap (fun l => heap w !! l) t
          | None => omap (fun l => heap w !! l) t
          end).
  rewrite Hv. by constructor.
Qed.

Lemma loaded_page_valid env options w names data :
  membership (selectedGroup w) = Some names ->
  reply env (issued w) = Fulfilled (LinkListPayload data) ->
  let w' := exec (handleFetchLinks env options) w in
  NoDup (items (links w')) ∧ valid w'.
Proof.
  intros Hm Hr w'. subst w'. unfold exec, valid.
  rewrite (handleFetchLinks_fulfilled _ _ _ names data Hm Hr). simpl. split.
  - rewrite array_sort_perm. apply NoDup_seq.
  - rewrite array_sort_perm. apply Forall_forall. intros l Hl.
    apply elem_of_seq in Hl. rewrite length_app, length_map. lia.
Qed.

Lemma initial_valid : valid initial.
Proof. constructor. Qed.

(** ** The two ways in which the save of a new link stops early *)

(** The selected group has no membership sequence: [push] is called on
    [undefined]; nothing is sent, nothing is refetched. *)
Lemma onLinkSaved_without_membership env link w g :
  selectedGroup w = Some g -> membership (Some g) = None ->
  exists msg, onLinkSaved env link w = (Throw (TypeError msg), w).
Proof.
  intros Hg Hm. unfold onLinkSaved, cloneDeep. run_steps. rewrite Hg.
  unfold push_link. simpl in Hm.
  destruct (group_spec g) as [s|]; [rewrite Hm|]; by eexists.
Qed.

(** The replacing write is rejected: the rejection leaves the handler,
    no list is refetched. *)
Lemma onLinkSaved_write_rejected env link w g s ms :
  selectedGroup w = Some g -> group_spec g = Some s -> group_links s = Some ms ->
  reply env (issued w) = Rejected ->
  outcome (onLinkSaved env link) w = Throw (RequestFailed (issued w))
  ∧ news w (exec (onLinkSaved env link) w)
    = [EvRequest (issued w)
         (replace_group (with_member g s ms (link_name link)));
       EvSettled (issued w) false].
Proof.
  intros Hg Hs Hms Hr. unfold outcome, exec.
  rewrite (onLinkSaved_with_membership env link w g s ms Hg Hs Hms), Hr.
  simpl. split; [done|]. apply news_app. simpl. by rewrite <- app_assoc.
Qed.

(** ** Concrete runs *)

(** Closes a decidable closed goal by evaluation. *)
Ltac by_evaluation := refine (bool_decide_unpack _ _); vm_compute; exact I.

Lemma sample_page_objects :
  Forall2 (fun l v => heap sample_page !! l = Some v) [0; 1; 2] (heap sample_page).
Proof. repeat constructor. Defined.

Lemma sample_objects_distinct : NoDup [0; 1; 2].
Proof. by_evaluation. Defined.

(** C1 as stated fails.  The page shows b, a, c; the user drags the
    items into the order a, b, c; the write for a (request 1) is
    rejected before the other two are answered.  The list request
    leaves while the writes for b and c (requests 2 and 3) are still in
    flight. *)
Lemma reorder_refetch_overtakes_writes :
  items (links sample_page) = [1; 0; 2]
  ∧ membership (selectedGroup sample_page) = Some ["a"; "b"; "c"]
  ∧ pending_at_refetch []
      (news sample_page
         (exec (reorder (rejecting 1 sample_env) [0; 1; 2]) sample_page))
    = Some [2; 3]
  ∧ pending_at_refetch []
      (news sample_page
         (exec (reorder (rejecting 1 sample_env) [0; 1; 2]) sample_page))
    <> Some [].
Proof. split_and!; [reflexivity..|discriminate]. Qed.

Lemma reorder_saves_positions_witness :
  NoDup [0; 1; 2]
  ∧ Forall2 (fun l v => heap sample_page !! l = Some v) [0; 1; 2]
      (heap sample_page)
  ∧ outcome (reorder (rejecting 1 sample_env) [0; 1; 2]) sample_page = Ok tt
  ∧ link_priority
      <$> heap (exec (reorder (rejecting 1 sample_env) [0; 1; 2]) sample_page) !! 2
    = Some (Some 2%Z)
  ∧ pending_at_refetch []
      (news sample_page
         (exec (reorder (rejecting 1 sample_env) [0; 1; 2]) sample_page))
    = Some [2; 3].
Proof.
  split; [exact sample_objects_distinct|]. split; [exact sample_page_objects|].
  destruct (reorder_saves_positions (rejecting 1 sample_env) [0; 1; 2]
              (heap sample_page) sample_page
              sample_objects_distinct sample_page_objects)
    as (Hok & _ & Hprio & _ & _ & _ & Hpending & _).
  split; [exact Hok|]. split.
  - exact (Hprio 2 2 (sample_link "c" (Some 1%Z)) _ eq_refl eq_refl eq_refl).
  - exact (Hpending ["a"; "b"; "c"] eq_refl).
Defined.

Lemma handleFetchLinks_page_sorted_witness :
  membership (selectedGroup sample_start) = Some ["a"; "b"; "c"]
  ∧ reply sample_env (issued sample_start) = Fulfilled (LinkListPayload sample_data)
  ∧ items (links sample_page) = [1; 0; 2]
  ∧ StronglySorted (fun a b => (sort_key a <= sort_key b)%Z)
      (page_values sample_page)
  ∧ link_priority <$> heap sample_page !! 1 = Some (Some 0%Z).
Proof.
  split; [reflexivity|]. split; [reflexivity|]. split; [reflexivity|].
  destruct (handleFetchLinks_page_sorted sample_env None sample_start
              ["a"; "b"; "c"] sample_data eq_refl eq_refl)
    as (_ & _ & _ & Hzero & _ & Hsorted & _).
  split; [exact Hsorted|].
  exact (Hzero 1 (sample_link "b" None) _ eq_refl eq_refl eq_refl).
Defined.

(** C3.  The claim holds of a view whose getter runs on the current
    page; the view is a cached computed and the index is no ref, so the
    getter is not run again when the page is replaced under a keyword.
    On the sample page (objects 0, 1, 2 are a, b, c, shown as b, a, c)
    the keyword "c" is typed and the view is read: it shows object 2.
    The page is fetched again with the keyword kept: the page holds the
    new objects 4, 3, 5, and the view, read again, still shows object
    2, which is not on the page, where a run of the getter would return
    5.  A priority written through the view does not reach the page. *)
Theorem searchResults_stale_after_refetch :
  let typed := keyword_input "c" (mount sample_page) in
  let read := snd (searchResults sample_match typed) in
  let refetched := view_fetch sample_env None read in
  items (links (refs typed)) = [1; 0; 2]
  ∧ fst (searchResults sample_match typed) = [2]
  ∧ keyword (refs refetched) = "c"
  ∧ items (links (refs refetched)) = [4; 3; 5]
  ∧ fst (searchResults sample_match refetched) = [2]
  ∧ (2 ∉ items (links (refs refetched)))
  ∧ cached_value (searchResults_get sample_match (refs refetched)) = [5]
  ∧ page_values (exec (update 2 (set_priority 7)) (refs refetched))
    = page_values (refs refetched)
  ∧ heap (exec (update 2 (set_priority 7)) (refs refetched)) !! 2
    = Some (sample_link "c" (Some 7%Z)).
Proof.
  cbv zeta. split_and!; try (vm_compute; reflexivity). by_evaluation.
Qed.


Lemma onLinkSaved_appends_member_witness :
  selectedGroup sample_page = Some (sample_group (Some ["a"; "b"; "c"]))
  ∧ membership (selectedGroup sample_page) = Some ["a"; "b"; "c"]
  ∧ reply sample_env (issued sample_page) = Fulfilled (LinkListPayload sample_data)
  ∧ outcome (onLinkSaved sample_env (sample_link "d" None)) sample_page = Ok tt
  ∧ (exists rest,
       news sample_page
         (exec (onLinkSaved sample_env (sample_link "d" None)) sample_page)
       = EvRequest 1
           {| method := PUT;
              target := "/apis/core.halo.run/v1alpha1/linkgroups/friends";
              params := None;
              body := GroupBody (sample_group (Some ["a"; "b"; "c"; "d"])) |}
         :: rest).
Proof.
  split; [reflexivity|]. split; [reflexivity|]. split; [reflexivity|].
  destruct (onLinkSaved_appends_member sample_env (sample_link "d" None)
              sample_page (sample_group (Some ["a"; "b"; "c"]))
              {| group_displayName := "Friends"; group_priority := Some 0%Z;
                 group_links := Some ["a"; "b"; "c"] |}
              ["a"; "b"; "c"] eq_refl eq_refl eq_refl)
    as (Hfirst & Hthen).
  split; [|exact Hfirst].
  exact (proj1 (Hthen (LinkListPayload sample_data) eq_refl)).
Defined.

(** C4.  The claim holds of the run in which the write is fulfilled; the
    handler misses it where its siblings do not.  On the sample page,
    group "friends" selected, link d has been created and the PUT of
    the group (request 1) is rejected: the rejection leaves the handler,
    the log ends with the rejected write, no list request is sent, and
    the page is the one from before.  The batch delete, whose body
    sits in [try] with the fetch in [finally], sends the list request
    after the same rejection.  A selected group without a membership
    sequence stops the handler before anything is sent. *)
Theorem onLinkSaved_failed_write_skips_refetch :
  let env := rejecting 1 sample_env in
  let saved := onLinkSaved env (sample_link "d" None) sample_page in
  let bare := set_selectedGroup (Some (sample_group None)) sample_page in
  fst saved = Throw (RequestFailed 1)
  ∧ news sample_page (snd saved)
    = [EvRequest 1
         {| method := PUT;
            target := "/apis/core.halo.run/v1alpha1/linkgroups/friends";
            params := None;
            body := GroupBody (sample_group (Some ["a"; "b"; "c"; "d"])) |};
       EvSettled 1 false]
  ∧ links (snd saved) = links sample_page
  ∧ selectedGroup (snd saved) = selectedGroup sample_page
  ∧ news (set_selectedLinks ["a"] sample_page)
      (exec (handleDeleteInBatch_onConfirm env)
         (set_selectedLinks ["a"] sample_page))
    = [EvRequest 1
         {| method := DELETE;
            target := "/apis/core.halo.run/v1alpha1/links/a";
            params := None; body := NoBody |};
       EvSettled 1 false;
       EvConsoleError None (RequestFailed 1);
       EvLoading true;
       EvRequest 2
         {| method := GET;
            target := "/apis/core.halo.run/v1alpha1/links";
            params := Some {| param_page := 1%Z; param_size := 20%Z;
                              param_fieldSelector := "name=(a,b,c)" |};
            body := NoBody |};
       EvSettled 2 true;
       EvLoading false]
  ∧ fst (onLinkSaved sample_env (sample_link "d" None) bare)
    = Throw (TypeError "groupToUpdate.spec.links is undefined")
  ∧ news bare (snd (onLinkSaved sample_env (sample_link "d" None) bare)) = [].
Proof. cbv zeta. split_and!; vm_compute; reflexivity. Qed.


Lemma handleFetchLinks_failure_keeps_page_witness :
  membership (selectedGroup sample_page) = Some ["a"; "b"; "c"]
  ∧ (reply (rejecting 1 sample_env) (issued sample_page) = Rejected
     ∨ reply (rejecting 1 sample_env) (issued sample_page) = Fulfilled OtherPayload)
  ∧ outcome (handleFetchLinks (rejecting 1 sample_env) None) sample_page = Ok tt
  ∧ items (links (exec (handleFetchLinks (rejecting 1 sample_env) None) sample_page))
    = [1; 0; 2]
  ∧ loading (exec (handleFetchLinks (rejecting 1 sample_env) None) sample_page)
    = false.
Proof.
  split; [reflexivity|]. split; [left; reflexivity|].
  destruct (handleFetchLinks_failure_keeps_page (rejecting 1 sample_env) None
              sample_page ["a"; "b"; "c"] eq_refl (or_introl eq_refl))
    as (Hok & _ & Hloading & Hitems & _).
  split; [exact Hok|]. split; [exact Hitems|exact Hloading].
Defined.

Lemma sample_stringify_not_empty v : sample_stringify v <> "".
Proof. discriminate. Defined.

Lemma handleExportSelectedLinks_records_witness :
  (forall v, sample_stringify v <> "")
  ∧ NoDup (link_name <$> page_values sample_page)
  ∧ NoDup ["c"; "b"]
  ∧ (forall n, n ∈ ["c"; "b"] -> n ∈ link_name <$> page_values sample_page)
  ∧ export_entries sample_stringify (set_selectedLinks ["c"; "b"] sample_page)
    = [Some (sample_stringify (sample_link "b" (Some 0%Z)));
       Some (sample_stringify (sample_link "c" (Some 1%Z)))]
  ∧ news (set_selectedLinks ["c"; "b"] sample_page)
      (exec (handleExportSelectedLinks sample_stringify)
         (set_selectedLinks ["c"; "b"] sample_page))
    = [EvDownload "links.yaml" "text/yaml"
         (sample_stringify (sample_link "b" (Some 0%Z))
          +:+ ("---" +:+ String "010"%char "")
          +:+ sample_stringify (sample_link "c" (Some 1%Z)))].
Proof.
  assert (NoDup (link_name <$> page_values sample_page)) as Hnames
    by by_evaluation.
  assert (NoDup ["c"; "b"]) as Hsel by by_evaluation.
  assert (forall n, n ∈ ["c"; "b"] -> n ∈ link_name <$> page_values sample_page)
    as Hsub.
  { intros n Hn. apply elem_of_cons in Hn as [->|Hn]; [by_evaluation|].
    apply elem_of_cons in Hn as [->|Hn]; [by_evaluation|].
    by apply elem_of_nil in Hn. }
  assert (items (links (set_selectedLinks ["c"; "b"] sample_page)) <> [])
    as Hitems by discriminate.
  split; [exact sample_stringify_not_empty|]. split; [exact Hnames|].
  split; [exact Hsel|]. split; [exact Hsub|].
  destruct (handleExportSelectedLinks_records sample_stringify
              (set_selectedLinks ["c"; "b"] sample_page)
              sample_stringify_not_empty Hnames Hsel Hsub)
    as (Hentries & _ & _ & Hfile & _).
  split; [rewrite Hentries; reflexivity|].
  rewrite (Hfile Hitems). reflexivity.
Defined.

(** C7 as stated fails.  The page shows b, a, c and c, its last item,
    is selected: "next" leaves c selected, it does not clear the
    selection. *)
Lemma handleSelectNext_stays_on_last_item :
  list.last (items (links sample_page)) = Some 2
  ∧ selectedLink (set_selectedLink (Some 2) sample_page) = Some 2
  ∧ selectedLink (exec handleSelectNext (set_selectedLink (Some 2) sample_page))
    = Some 2
  ∧ selectedLink (exec handleSelectNext (set_selectedLink (Some 2) sample_page))
    <> None.
Proof. split_and!; [reflexivity..|discriminate]. Qed.

Lemma navigation_at_the_boundaries_witness :
  selectedLink (exec handleSelectPrevious (set_selectedLink (Some 1) sample_page))
  = None
  ∧ selectedLink (exec handleSelectNext (set_selectedLink (Some 2) sample_page))
    = Some 2
  ∧ selectedLink (exec handleSelectNext sample_page) = Some 1.
Proof.
  destruct (navigation_at_the_boundaries (set_selectedLink (Some 1) sample_page))
    as (Hprevious & _ & _).
  destruct (navigation_at_the_boundaries (set_selectedLink (Some 2) sample_page))
    as (_ & Hnext & _).
  destruct (navigation_at_the_boundaries sample_page) as (_ & _ & Hfirst).
  split_and!.
  - by rewrite (Hprevious 1 (sample_link "b" (Some 0%Z)) [0; 2] eq_refl eq_refl eq_refl).
  - apply (Hnext 2 (sample_link "c" (Some 1%Z)) [1; 0] eq_refl eq_refl eq_refl).
    by_evaluation.
  - by rewrite (Hfirst 1 [0; 2] eq_refl eq_refl).
Defined.

Lemma handleDelete_ignores_outcome_witness :
  (forall id, id <> issued sample_page ->
     reply sample_env id = reply (rejecting 1 sample_env) id)
  ∧ reply sample_env 1 <> reply (rejecting 1 sample_env) 1
  ∧ handleDelete (rejecting 1 sample_env) true (sample_link "a" (Some 1%Z)) sample_page
    = handleDelete sample_env true (sample_link "a" (Some 1%Z)) sample_page
  ∧ outcome (handleDelete sample_env true (sample_link "a" (Some 1%Z))) sample_page
    = Ok tt.
Proof.
  assert (forall id, id <> issued sample_page ->
            reply sample_env id = reply (rejecting 1 sample_env) id) as Hsame.
  { intros id Hid. simpl. destruct (Nat.eqb_spec id 1) as [->|_]; [|reflexivity].
    by destruct Hid. }
  split; [exact Hsame|]. split; [discriminate|].
  destruct (handleDelete_ignores_outcome sample_env (rejecting 1 sample_env)
              (sample_link "a" (Some 1%Z)) sample_page Hsame)
    as (_ & Hok & _ & _ & Hequal).
  split; [exact Hequal|exact Hok].
Defined.

Lemma handleFetchLinks_membership_guard_witness :
  news initial (exec (handleFetchLinks sample_env None) initial)
  = [EvLoading true; EvLoading false]
  ∧ (exists rest,
       news (set_selectedGroup (Some (sample_group (Some []))) initial)
         (exec (handleFetchLinks sample_env None)
            (set_selectedGroup (Some (sample_group (Some []))) initial))
       = EvLoading true
         :: EvRequest 0
              {| method := GET; target := links_url;
                 params := Some {| param_page := 1; param_size := 20;
                                   param_fieldSelector := "name=()" |};
                 body := NoBody |}
         :: rest).
Proof.
  split.
  - exact (proj1 (proj1 (handleFetchLinks_membership_guard sample_env None initial))).
  - exact (proj1 (proj1 (handleFetchLinks_membership_guard sample_env None
                           (set_selectedGroup (Some (sample_group (Some []))) initial)))).
Defined.

Lemma onLinkSaved_without_group_witness :
  selectedGroup initial = None
  ∧ outcome (onLinkSaved sample_env (sample_link "d" None)) initial = Ok tt
  ∧ news initial (exec (onLinkSaved sample_env (sample_link "d" None)) initial)
    = [EvRequest 0 groups_request; EvSettled 0 true;
       EvLoading true; EvLoading false].
Proof.
  split; [reflexivity|].
  destruct (onLinkSaved_without_group sample_env (sample_link "d" None) initial
              eq_refl) as (Hok & _ & Hnews & _).
  split; [exact Hok|exact Hnews].
Defined.

(** * The rest of the view *)

(** ** More on the fetch *)

(** X1. Whatever the outcome of a fetch, the references of the page
    stay valid, the objects that existed before are left as they were,
    the selection, the selected group and the keyword are not written,
    and request numbers only grow. *)
Theorem handleFetchLinks_keeps_the_rest env options w :
  valid w ->
  let w' := exec (handleFetchLinks env options) w in
  valid w'
  ∧ take (length (heap w)) (heap w') = heap w
  ∧ selectedLink w' = selectedLink w
  ∧ selectedLinks w' = selectedLinks w
  ∧ selectedGroup w' = selectedGroup w
  ∧ keyword w' = keyword w
  ∧ issued w <= issued w'.
Proof.
  intros Hvalid w'. subst w'. unfold exec, valid in *.
  destruct (membership (selectedGroup w)) as [names|] eqn:Hm.
  - destruct (reply env (issued w)) as [[data|]|] eqn:Hr.
    + rewrite (handleFetchLinks_fulfilled _ _ _ names data Hm Hr). simpl.
      split_and!; try done; [|by rewrite take_app_length|lia].
      rewrite array_sort_perm. apply Forall_forall. intros l Hl.
      apply elem_of_seq in Hl. rewrite length_app, length_map. lia.
    + rewrite (handleFetchLinks_failed _ _ _ names Hm) by congruence. simpl.
      rewrite items_paged, firstn_all. split_and!; try done. lia.
    + rewrite (handleFetchLinks_failed _ _ _ names Hm) by congruence. simpl.
      rewrite items_paged, firstn_all. split_and!; try done. lia.
  - rewrite (handleFetchLinks_skipped _ _ _ Hm). simpl.
    rewrite items_paged, firstn_all. by split_and!.
Qed.

(** X2. The objects of a freshly loaded page are all new: no reference
    that existed before the fetch is on the page, so a link that was
    selected before stays selected as an object the page no longer
    shows. *)
Theorem handleFetchLinks_page_is_fresh env options w names data :
  membership (selectedGroup w) = Some names ->
  reply env (issued w) = Fulfilled (LinkListPayload data) ->
  let w' := exec (handleFetchLinks env options) w in
  (forall l, l ∈ items (links w') -> length (heap w) <= l)
  ∧ (forall l, l < length (heap w) -> l ∉ items (links w'))
  ∧ (forall l, selectedLink w = Some l -> l < length (heap w) ->
       selectedLink w' = Some l ∧ (l ∉ items (links w'))
       ∧ heap w' !! l = heap w !! l).
Proof.
  intros Hm Hr w'. subst w'. unfold exec.
  rewrite (handleFetchLinks_fulfilled _ _ _ names data Hm Hr). simpl.
  assert (forall l, l ∈ array_sort
            (by_priority (heap w ++ map with_default_priority (items data)))
            (seq (length (heap w)) (length (items data))) ->
          length (heap w) <= l) as Hfresh.
  { intros l Hl. rewrite array_sort_perm in Hl. apply elem_of_seq in Hl. lia. }
  split_and!.
  - done.
  - intros l Hl Hin. apply Hfresh in Hin. lia.
  - intros l Hs Hl. split_and!; [done| |by rewrite lookup_app_l].
    intros Hin. apply Hfresh in Hin. lia.
Qed.

Lemma deref_cons (h : list Link) l v s :
  h !! l = Some v ->
  omap (fun l => h !! l) (l :: s) = v :: omap (fun l => h !! l) s.
Proof.
  intros Hv.
  change (omap (fun l => h !! l) (l :: s))
    with (match h !! l with
          | Some u => u :: omap (fun l => h !! l) s
          | None => omap (fun l => h !! l) s
          end).
  by rewrite Hv.
Qed.

Lemma insert_sorted_through (h : list Link) l v s :
  h !! l = Some v ->
  Forall (fun y => y < length h) s ->
  omap (fun l => h !! l) (insert_sorted (by_priority h) l s)
  = insert_sorted by_sort_key v (omap (fun l => h !! l) s).
Proof.
  intros Hv Hs. induction Hs as [|y s Hy Hs IH].
  - cbn [insert_sorted]. by rewrite (deref_cons h l v).
  - destruct (lookup_lt_is_Some_2 h y Hy) as [u Hu].
    rewrite (deref_cons h y u) by done. cbn [insert_sorted].
    unfold by_priority at 1, priority_at, by_sort_key at 1.
    rewrite Hv, Hu. cbn [from_option].
    destruct (sort_key v - sort_key u <=? 0)%Z.
    + rewrite (deref_cons h l v) by done. by rewrite (deref_cons h y u).
    + rewrite (deref_cons h y u) by done. by rewrite IH.
Qed.

Lemma array_sort_through (h : list Link) ls :
  Forall (fun y => y < length h) ls ->
  omap (fun l => h !! l) (array_sort (by_priority h) ls)
  = array_sort by_sort_key (omap (fun l => h !! l) ls).
Proof.
  induction 1 as [|l ls Hl Hls IH]; [done|].
  destruct (lookup_lt_is_Some_2 h l Hl) as [v Hv].
  rewrite (deref_cons h l v) by done. cbn [array_sort foldr].
  change (foldr (insert_sorted (by_priority h)) [] ls)
    with (array_sort (by_priority h) ls).
  change (foldr (insert_sorted by_sort_key) [] (omap (fun l => h !! l) ls))
    with (array_sort by_sort_key (omap (fun l => h !! l) ls)).
  rewrite (insert_sorted_through h l v) by
    (done || (rewrite array_sort_perm; done)).
  by rewrite IH.
Qed.

Lemma deref_fresh (h vs : list Link) :
  omap (fun l => (h ++ vs) !! l) (seq (length h) (length vs)) = vs.
Proof.
  revert h. induction vs as [|v vs IH]; intros h; [done|].
  cbn [length seq].
  rewrite (deref_cons (h ++ v :: vs) (length h) v) by (by apply list_lookup_middle).
  f_equal. specialize (IH (h ++ [v])).
  rewrite length_app, <- app_assoc in IH. simpl in IH.
  by replace (length h + 1) with (S (length h)) in IH by lia.
Qed.

Lemma sort_key_with_default_priority v :
  sort_key (with_default_priority v) = sort_key v.
Proof.
  unfold with_default_priority, set_priority, sort_key, link_priority.
  destruct (link_spec v) eqn:Hs; simpl; rewrite ?Hs; reflexivity.
Qed.

Lemma array_sort_sorted {A} (cmp : A -> A -> Z) l :
  StronglySorted (fun a b => (cmp a b <= 0)%Z) l -> array_sort cmp l = l.
Proof.
  induction 1 as [|x l Hl IH Hx]; [done|].
  cbn [array_sort foldr].
  change (foldr (insert_sorted cmp) [] l) with (array_sort cmp l).
  rewrite IH. destruct l as [|y l]; [done|].
  cbn [insert_sorted]. apply Forall_cons in Hx as [Hxy _].
  by destruct (Z.leb_spec (cmp x y) 0); [|lia].
Qed.

Lemma StronglySorted_seq (R : relation nat) b n :
  (forall i j, i < j -> j < n -> R (b + i) (b + j)) ->
  StronglySorted R (seq b n).
Proof.
  revert b. induction n as [|n IH]; intros b HR; [constructor|].
  cbn [seq]. constructor.
  - apply IH. intros i j Hij Hj.
    replace (S b + i) with (b + S i) by lia.
    replace (S b + j) with (b + S j) by lia. apply HR; lia.
  - apply Forall_forall. intros x Hx. apply elem_of_seq in Hx.
    replace b with (b + 0) at 1 by lia.
    replace x with (b + (x - b)) by lia. apply HR; lia.
Qed.

(** X3. The page a fetch loads is, as a sequence of link values, the
    stable sort by [spec?.priority || 0] of the returned links with
    their priority defaulted: the values on the page depend on the
    answer alone, not on what the view held before. *)
Theorem handleFetchLinks_page_values env options w names data :
  membership (selectedGroup w) = Some names ->
  reply env (issued w) = Fulfilled (LinkListPayload data) ->
  page_values (exec (handleFetchLinks env options) w)
  = array_sort by_sort_key (with_default_priority <$> items data).
Proof.
  intros Hm Hr. unfold exec, page_values.
  rewrite (handleFetchLinks_fulfilled _ _ _ names data Hm Hr). simpl.
  rewrite array_sort_through.
  - rewrite <- (length_map with_default_priority (items data)).
    by rewrite deref_fresh.
  - apply Forall_forall. intros l Hl. apply elem_of_seq in Hl.
    rewrite length_app, length_map. lia.
Qed.

(** X4. If the server returns the links already in ascending order of
    their defaulted priority, the page shows them in exactly the
    server's order. *)
Theorem handleFetchLinks_keeps_sorted_answer env options w names data :
  membership (selectedGroup w) = Some names ->
  reply env (issued w) = Fulfilled (LinkListPayload data) ->
  StronglySorted (fun a b => (sort_key a <= sort_key b)%Z) (items data) ->
  let w' := exec (handleFetchLinks env options) w in
  page_values w' = with_default_priority <$> items data
  ∧ items (links w') = seq (length (heap w)) (length (items data)).
Proof.
  intros Hm Hr Hsorted w'. subst w'.
  assert (items (links (exec (handleFetchLinks env options) w))
          = seq (length (heap w)) (length (items data))) as Hitems.
  { unfold exec.
    rewrite (handleFetchLinks_fulfilled _ _ _ names data Hm Hr). simpl.
    apply array_sort_sorted. apply StronglySorted_seq. intros i j Hij Hj.
    destruct (lookup_lt_is_Some_2 (items data) j Hj) as [vj Hvj].
    destruct (lookup_lt_is_Some_2 (items data) i) as [vi Hvi]; [lia|].
    unfold by_priority, priority_at.
    rewrite !lookup_app_r by lia.
    replace (length (heap w) + i - length (heap w)) with i by lia.
    replace (length (heap w) + j - length (heap w)) with j by lia.
    rewrite !list_lookup_fmap, Hvi, Hvj. simpl.
    rewrite !sort_key_with_default_priority.
    pose proof (StronglySorted_lookup _ _ _ _ _ _ Hsorted Hij Hvi Hvj) as Hle.
    simpl in Hle. lia. }
  split; [|exact Hitems].
  unfold page_values. rewrite Hitems. unfold exec.
  rewrite (handleFetchLinks_fulfilled _ _ _ names data Hm Hr). simpl.
  rewrite <- (length_map with_default_priority (items data)).
  by rewrite deref_fresh.
Qed.

Lemma handleFetchLinks_frame env options w :
  selectedLinks (exec (handleFetchLinks env options) w) = selectedLinks w
  ∧ keyword (exec (handleFetchLinks env options) w) = keyword w.
Proof.
  unfold exec.
  destruct (membership (selectedGroup w)) as [names|] eqn:Hm.
  - destruct (reply env (issued w)) as [[data|]|] eqn:Hr.
    + by rewrite (handleFetchLinks_fulfilled _ _ _ names data Hm Hr).
    + by rewrite (handleFetchLinks_failed _ _ _ names Hm) by congruence.
    + by rewrite (handleFetchLinks_failed _ _ _ names Hm) by congruence.
  - by rewrite (handleFetchLinks_skipped _ _ _ Hm).
Qed.

(** ** Paging *)

(** X5. A change of page or size is written into the page object and
    the page is fetched without being awaited: the call completes
    normally; with a membership sequence the list request carries the
    new page and size; if the answer is a link list the page object
    becomes the server's, otherwise the new page and size stay written
    next to the old items. *)
Theorem handlePaginationChange_request env p s w :
  let w' := exec (handlePaginationChange env p s) w in
  outcome (handlePaginationChange env p s) w = Ok tt
  ∧ match membership (selectedGroup w) with
    | Some names =>
        (exists rest,
           news w w'
           = EvLoading true
             :: EvRequest (issued w)
                  {| method := GET; target := links_url;
                     params := Some {| param_page := p; param_size := s;
                                       param_fieldSelector := field_selector names |};
                     body := NoBody |}
             :: rest)
        ∧ match reply env (issued w) with
          | Fulfilled (LinkListPayload data) =>
              page (links w') = page data ∧ size (links w') = size data
              ∧ total (links w') = total data
          | _ =>
              page (links w') = p ∧ size (links w') = s
              ∧ items (links w') = items (links w)
          end
    | None =>
        news w w' = [EvLoading true; EvLoading false]
        ∧ page (links w') = p ∧ size (links w') = s
        ∧ items (links w') = items (links w)
    end.
Proof.
  intros w'.
  set (w0 := set_links (with_size (with_page (links w) p) s) w).
  assert (handlePaginationChange env p s w
          = (Ok tt, exec (handleFetchLinks env None) w0)) as Hrun.
  { unfold handlePaginationChange. run_steps. reflexivity. }
  assert (news w w' = fetch_news env None w0) as Hnews.
  { subst w'. unfold exec at 1. rewrite Hrun. cbn [snd]. apply news_app.
    by destruct (handleFetchLinks_summary env None w0) as (_ & -> & _). }
  split; [unfold outcome; by rewrite Hrun|].
  rewrite Hnews. subst w'. unfold exec. rewrite Hrun. cbn [snd]. unfold exec.
  unfold fetch_news. cbn [muted selectedGroup w0 set_links issued].
  destruct (membership (selectedGroup w)) as [names|] eqn:Hm.
  - split; [by eexists|].
    destruct (reply env (issued w)) as [[data|]|] eqn:Hr.
    + by rewrite (handleFetchLinks_fulfilled env None w0 names data Hm Hr).
    + by rewrite (handleFetchLinks_failed env None w0 names Hm) by (simpl; congruence).
    + by rewrite (handleFetchLinks_failed env None w0 names Hm) by (simpl; congruence).
  - by rewrite (handleFetchLinks_skipped env None w0 Hm).
Qed.

(** ** Deleting the selection *)

Lemma delete_all_run names : forall k w,
  map_indexed (fun _ n => request (delete_named n)) k names w
  = (Ok (seq (issued w) (length names)),
     set_issued (issued w + length names)
       (log (imap (fun i n => EvRequest (issued w + i) (delete_named n)) names) w)).
Proof.
  induction names as [|n names IH]; intros k w.
  - simpl. unfold ret. f_equal.
    apply world_ext; cbn; try reflexivity; [symmetry; apply app_nil_r|lia].
  - cbn [map_indexed]. unfold bind at 1. unfold request at 1.
    unfold bind at 1. rewrite IH. unfold ret. cbn [length seq].
    f_equal. apply world_ext; cbn; try reflexivity.
    + rewrite <- app_assoc. f_equal. simpl. f_equal.
      * by rewrite Nat.add_0_r.
      * apply imap_ext. intros i x _. simpl. f_equal. lia.
    + lia.
Qed.

(** X6. A confirmed batch delete sends one delete request per selected
    identifier, in the order of the selection, waits until all are
    fulfilled or the first is rejected, logs a rejection, and then
    fetches the page (unmuted); it completes normally whatever fails,
    and it leaves the selection as it was, deleted identifiers
    included. *)
Theorem handleDeleteInBatch_run env w :
  let w' := exec (handleDeleteInBatch_onConfirm env) w in
  let ids := seq (issued w) (length (selectedLinks w)) in
  outcome (handleDeleteInBatch_onConfirm env) w = Ok tt
  ∧ news w w'
    = imap (fun i n => EvRequest (issued w + i) (delete_named n)) (selectedLinks w)
      ++ settle_news env ids
      ++ fetch_news env None
           (set_issued (issued w + length (selectedLinks w)) w)
  ∧ selectedLinks w' = selectedLinks w
  ∧ selectedLink w' = selectedLink w.
Proof.
  intros w' ids.
  set (w1 := log (settle_news env ids)
               (set_issued (issued w + length (selectedLinks w))
                  (log (imap (fun i n => EvRequest (issued w + i) (delete_named n))
                          (selectedLinks w)) w))).
  assert (handleDeleteInBatch_onConfirm env w
          = (Ok tt, exec (handleFetchLinks env None) w1)) as Hrun.
  { unfold handleDeleteInBatch_onConfirm, try_catch_finally.
    unfold bind at 1 2. unfold get.
    change (fun (_ : nat) (n : string) =>
              request {| method := DELETE; target := link_url n;
                         params := None; body := NoBody |})
      with (fun (_ : nat) (n : string) => request (delete_named n)).
    rewrite delete_all_run.
    unfold await_all. subst w1. unfold settle_news. fold ids.
    destruct (first_rejection env ids) as [j|]; run_steps;
      rewrite finally_fetch; unfold exec; do 3 f_equal;
      apply world_ext; cbn; rewrite <- ?app_assoc; reflexivity. }
  destruct (handleFetchLinks_summary env None w1) as (_ & Htr & _ & Hsel & _).
  split_and!.
  - unfold outcome. by rewrite Hrun.
  - subst w'. unfold exec at 1. rewrite Hrun. cbn [snd]. apply news_app.
    rewrite Htr. subst w1. cbn. by rewrite <- !app_assoc.
  - subst w'. unfold exec at 1. rewrite Hrun. cbn [snd].
    by rewrite (proj1 (handleFetchLinks_frame env None w1)).
  - subst w'. unfold exec at 1. rewrite Hrun. cbn [snd]. by rewrite Hsel.
Qed.

(** ** What a reorder leaves alone *)

Lemma handleSaveInBatch_frame env w vs :
  NoDup (items (links w)) ->
  Forall2 (fun l v => heap w !! l = Some v) (items (links w)) vs ->
  let ids := seq (issued w) (length (items (links w))) in
  exists h',
    handleSaveInBatch env w
    = (Ok tt,
       exec (handleFetchLinks env muted_refetch)
         {| heap := h'; links := links w; loading := loading w;
            selectedLink := selectedLink w; selectedLinks := selectedLinks w;
            selectedGroup := selectedGroup w; keyword := keyword w;
            fuse := fuse w;
            trace := trace w ++
                     imap (fun i v => EvRequest (issued w + i)
                             (replace_link (set_priority (Z.of_nat i) v))) vs
                     ++ settle_news env ids;
            issued := issued w + length (items (links w)) |})
    ∧ length h' = length (heap w)
    ∧ (forall l, l ∉ items (links w) -> h' !! l = heap w !! l).
Proof.
  intros Hnd Hvs ids.
  destruct (save_links_run (items (links w)) vs 0 w Hnd Hvs)
    as (h' & Hrun & Hlen & _ & Hout).
  exists h'. split_and!; [|done|done].
  unfold handleSaveInBatch, try_catch_finally.
  unfold bind at 1 2. unfold get. rewrite Hrun.
  unfold await_all, settle_news. fold ids.
  destruct (first_rejection env ids) as [j|]; run_steps;
    rewrite finally_fetch; unfold exec; do 3 f_equal;
    apply world_ext; cbn; rewrite <- ?app_assoc; reflexivity.
Qed.

Lemma reorder_run env value vs w :
  NoDup value ->
  Forall2 (fun l v => heap w !! l = Some v) value vs ->
  let ids := seq (issued w) (length value) in
  exists h',
    reorder env value w
    = (Ok tt,
       exec (handleFetchLinks env muted_refetch)
         {| heap := h'; links := with_items (links w) value;
            loading := loading w;
            selectedLink := selectedLink w; selectedLinks := selectedLinks w;
            selectedGroup := selectedGroup w; keyword := keyword w;
            fuse := fuse w;
            trace := trace w ++
                     imap (fun i v => EvRequest (issued w + i)
                             (replace_link (set_priority (Z.of_nat i) v))) vs
                     ++ settle_news env ids;
            issued := issued w + length value |})
    ∧ length h' = length (heap w)
    ∧ (forall l, l ∉ value -> h' !! l = heap w !! l).
Proof.
  intros Hnd Hvs ids.
  set (w0 := set_links (with_items (links w) value) w).
  destruct (handleSaveInBatch_frame env w0 vs Hnd Hvs) as (h' & Hrun & Hlen & Hout).
  exists h'. split_and!; [|done|done].
  assert (reorder env value w = handleSaveInBatch env w0) as ->
    by (unfold reorder, searchResults_set; run_steps; reflexivity).
  exact Hrun.
Qed.

(** X7. A reorder writes and sends only the links of the dragged
    sequence: every other object is left as it was, priority included,
    and every write request of the run is addressed to a link of the
    sequence.  If the fetch that follows does not bring a page (no
    membership sequence, or the list request fails), the page is left
    holding exactly the dragged sequence. *)
Theorem reorder_touches_only_the_sequence env value vs w :
  NoDup value ->
  Forall2 (fun l v => heap w !! l = Some v) value vs ->
  let w' := exec (reorder env value) w in
  (forall l, l ∉ value -> l < length (heap w) -> heap w' !! l = heap w !! l)
  ∧ (forall id r, EvRequest id r ∈ news w w' -> method r = PUT ->
       exists i v, vs !! i = Some v
                   ∧ target r = link_url (link_name v)
                   ∧ id = issued w + i)
  ∧ (membership (selectedGroup w) = None
     ∨ (forall data, reply env (issued w + length value)
                     <> Fulfilled (LinkListPayload data)) ->
     items (links w') = value).
Proof.
  intros Hnd Hvs w'.
  destruct (reorder_run env value vs w Hnd Hvs) as (h' & Hrun & Hlen & Hout).
  cbv zeta in Hrun.
  match type of Hrun with
  | _ = (_, exec _ ?x) => set (w1 := x) in *
  end.
  subst w'. unfold exec at 1 2 3. rewrite Hrun. cbn [snd].
  split_and!.
  - intros l Hl Hlt.
    destruct (handleFetchLinks_heap env muted_refetch w1) as [fresh ->].
    subst w1. cbn [heap]. rewrite lookup_app_l by lia. by apply Hout.
  - intros id r Hin Hput.
    rewrite (news_app w _ (imap (fun i v => EvRequest (issued w + i)
                                   (replace_link (set_priority (Z.of_nat i) v))) vs
                           ++ settle_news env (seq (issued w) (length value))
                           ++ fetch_news env muted_refetch w1)) in Hin.
    + rewrite !elem_of_app in Hin. destruct Hin as [Hin|[Hin|Hin]].
      * apply elem_of_lookup_imap in Hin as (i & v & Heq & Hv).
        injection Heq as -> ->. exists i, v. split_and!; [done| |done].
        simpl. by rewrite link_name_set_priority.
      * unfold settle_news in Hin.
        destruct (first_rejection env (seq (issued w) (length value))).
        -- rewrite elem_of_app, list_elem_of_fmap, !elem_of_cons in Hin.
           destruct Hin as [(x & Heq & _)|[Heq|[Heq|Heq]]];
             try discriminate Heq. by apply elem_of_nil in Heq.
        -- apply list_elem_of_fmap in Hin as (x & Heq & _). discriminate Heq.
      * apply fetch_news_requests in Hin as [Hget _]. congruence.
    + destruct (handleFetchLinks_summary env muted_refetch w1) as (_ & -> & _).
      subst w1. cbn [trace]. by rewrite <- !app_assoc.
  - intros Hnone. unfold exec. destruct Hnone as [Hm|Hr].
    + rewrite (handleFetchLinks_skipped env muted_refetch w1 Hm). cbn.
      by rewrite ?items_paged.
    + destruct (membership (selectedGroup w1)) as [names|] eqn:Hm.
      * rewrite (handleFetchLinks_failed env muted_refetch w1 names Hm) by apply Hr.
        cbn. by rewrite ?items_paged.
      * rewrite (handleFetchLinks_skipped env muted_refetch w1 Hm). cbn.
        by rewrite ?items_paged.
Qed.

(** ** Stepping through the page *)

Lemma findIndex_at {A} (test : A -> bool) front x back :
  Forall (fun y => test y = false) front -> test x = true ->
  findIndex test (front ++ x :: back) = Z.of_nat (length front).
Proof.
  intros Hfront Hx. induction Hfront as [|y t Hy Ht IH]; simpl.
  - by rewrite Hx.
  - rewrite Hy, IH. destruct (Z.ltb_spec (Z.of_nat (length t)) 0); lia.
Qed.

Lemma findIndex_none {A} (test : A -> bool) l :
  Forall (fun y => test y = false) l -> findIndex test l = (-1)%Z.
Proof.
  induction 1 as [|y t Hy Ht IH]; simpl; [done|]. by rewrite Hy, IH.
Qed.

(** The position of the selected name on a page of distinctly named
    links. *)
Lemma findIndex_selected w vs i v :
  Forall2 (fun l u => heap w !! l = Some u) (items (links w)) vs ->
  NoDup (link_name <$> vs) ->
  vs !! i = Some v ->
  selected_name w = Some (link_name v) ->
  findIndex (is_selected w) (items (links w)) = Z.of_nat i.
Proof.
  intros Hvs Hnd Hv Hsel.
  apply Forall2_same_length_lookup in Hvs as [Hlen Hvs].
  assert (i < length (items (links w))) as Hi
    by (rewrite Hlen; by eapply lookup_lt_Some).
  destruct (lookup_lt_is_Some_2 _ _ Hi) as [l Hl].
  rewrite <- (take_drop_middle _ _ _ Hl).
  rewrite (findIndex_at (is_selected w)).
  - rewrite length_take. f_equal. lia.
  - apply Forall_forall. intros y Hy.
    apply list_elem_of_lookup_1 in Hy as [k Hk].
    apply lookup_take_Some in Hk as [Hk Hki].
    assert (k < length vs) as Hkv
      by (rewrite <- Hlen; by eapply lookup_lt_Some).
    destruct (lookup_lt_is_Some_2 _ _ Hkv) as [u Hu].
    unfold is_selected. rewrite (Hvs k y u Hk Hu), Hsel.
    apply String.eqb_neq. intros Heq.
    assert (k = i); [|lia].
    eapply NoDup_lookup; [exact Hnd|by rewrite list_lookup_fmap, Hu|].
    by rewrite list_lookup_fmap, Hv, Heq.
  - unfold is_selected. rewrite (Hvs i l v Hl Hv), Hsel. apply String.eqb_refl.
Qed.

Lemma selected_name_selectedLink w n :
  selected_name w = Some n -> exists l, selectedLink w = Some l.
Proof. unfold selected_name. destruct (selectedLink w); [by eexists|done]. Qed.

Lemma handleSelectPrevious_at w vs i v :
  Forall2 (fun l u => heap w !! l = Some u) (items (links w)) vs ->
  NoDup (link_name <$> vs) ->
  vs !! i = Some v ->
  selected_name w = Some (link_name v) ->
  exec handleSelectPrevious w
  = set_selectedLink (match i with
                      | 0 => None
                      | S j => items (links w) !! j
                      end) w.
Proof.
  intros Hvs Hnd Hv Hsel. unfold exec, handleSelectPrevious. run_steps.
  rewrite (findIndex_selected w vs i v) by done.
  destruct i as [|j].
  - reflexivity.
  - destruct (Z.ltb_spec 0 (Z.of_nat (S j))); [|lia]. simpl.
    unfold index. destruct (Z.ltb_spec (Z.of_nat (S j) - 1) 0); [lia|].
    do 2 f_equal. lia.
Qed.

Lemma handleSelectNext_at w vs i v :
  Forall2 (fun l u => heap w !! l = Some u) (items (links w)) vs ->
  NoDup (link_name <$> vs) ->
  vs !! i = Some v ->
  selected_name w = Some (link_name v) ->
  exec handleSelectNext w
  = if decide (S i = length (items (links w))) then w
    else set_selectedLink (items (links w) !! S i) w.
Proof.
  intros Hvs Hnd Hv Hsel. unfold exec, handleSelectNext. run_steps.
  destruct (selected_name_selectedLink w _ Hsel) as [l0 ->].
  rewrite (findIndex_selected w vs i v) by done.
  destruct (decide (S i = length (items (links w)))) as [Heq|Hne].
  - by destruct (Z.eqb_spec (Z.of_nat i)
                   (Z.of_nat (length (items (links w))) - 1)); [|lia].
  - destruct (Z.eqb_spec (Z.of_nat i)
                (Z.of_nat (length (items (links w))) - 1)); [lia|].
    simpl. unfold index. destruct (Z.ltb_spec (Z.of_nat i + 1) 0); [lia|].
    do 2 f_equal. lia.
Qed.

(** X8. On a page of distinctly named links, with the selection naming
    the link at position i: "previous" selects the item at i - 1 and
    clears the selection at i = 0; "next" selects the item at i + 1 and
    does nothing at the last position.  The position is found by name,
    so this holds as well when the selected object is one from before a
    refetch. *)
Theorem navigation_steps w vs i v :
  Forall2 (fun l u => heap w !! l = Some u) (items (links w)) vs ->
  NoDup (link_name <$> vs) ->
  vs !! i = Some v ->
  selected_name w = Some (link_name v) ->
  exec handleSelectPrevious w
  = set_selectedLink (match i with
                      | 0 => None
                      | S j => items (links w) !! j
                      end) w
  ∧ exec handleSelectNext w
    = if decide (S i = length (items (links w))) then w
      else set_selectedLink (items (links w) !! S i) w.
Proof.
  intros Hvs Hnd Hv Hsel. split.
  - by apply (handleSelectPrevious_at w vs i v).
  - by apply (handleSelectNext_at w vs i v).
Qed.

Lemma selected_name_set w l v :
  heap w !! l = Some v ->
  selected_name (set_selectedLink (Some l) w) = Some (link_name v).
Proof. intros Hv. unfold selected_name. simpl. by rewrite Hv. Qed.

(** X9. Stepping forth and back returns to where one was: on a page of
    distinctly named links, "next" followed by "previous" selects the
    page's item at the position one started from unless that was the
    last one, and "previous" followed by "next" does so unless it was
    the first one. *)
Theorem navigation_round_trip w vs i l v :
  Forall2 (fun l u => heap w !! l = Some u) (items (links w)) vs ->
  NoDup (link_name <$> vs) ->
  items (links w) !! i = Some l ->
  vs !! i = Some v ->
  selected_name w = Some (link_name v) ->
  (S i < length (items (links w)) ->
     exec handleSelectPrevious (exec handleSelectNext w)
     = set_selectedLink (Some l) w)
  ∧ (0 < i ->
     exec handleSelectNext (exec handleSelectPrevious w)
     = set_selectedLink (Some l) w).
Proof.
  intros Hvs Hnd Hl Hv Hsel.
  pose proof Hvs as Hlook.
  apply Forall2_same_length_lookup in Hlook as [Hlen Hlook].
  split.
  - intros Hi.
    rewrite (handleSelectNext_at w vs i v) by done.
    rewrite decide_False by lia.
    destruct (lookup_lt_is_Some_2 (items (links w)) (S i) Hi) as [l' Hl'].
    destruct (lookup_lt_is_Some_2 vs (S i)) as [v' Hv']; [lia|].
    rewrite Hl'.
    rewrite (handleSelectPrevious_at (set_selectedLink (Some l') w) vs (S i) v');
      [|done|done|done|].
    + simpl. by rewrite Hl.
    + apply selected_name_set. by eapply Hlook.
  - intros Hi. destruct i as [|j]; [lia|].
    rewrite (handleSelectPrevious_at w vs (S j) v) by done.
    assert (j < length (items (links w))) as Hj
      by (apply lookup_lt_Some in Hl; lia).
    destruct (lookup_lt_is_Some_2 (items (links w)) j Hj) as [l' Hl'].
    destruct (lookup_lt_is_Some_2 vs j) as [v' Hv']; [lia|].
    rewrite Hl'.
    rewrite (handleSelectNext_at (set_selectedLink (Some l') w) vs j v');
      [|done|done|done|].
    + simpl. rewrite decide_False by (apply lookup_lt_Some in Hl; lia).
      by rewrite Hl.
    + apply selected_name_set. by eapply Hlook.
Qed.

(** X10. A selection that names no link of the page (the page was
    replaced, or the link is gone): "previous" clears it, and "next"
    moves it to the first item of the page.  On an empty page "next"
    selects nothing new and "previous" leaves nothing selected. *)
Theorem navigation_off_the_page w :
  (forall n, selected_name w = Some n -> n ∉ link_name <$> page_values w) ->
  exec handleSelectPrevious w = set_selectedLink None w
  ∧ (forall l0 l t, selectedLink w = Some l0 -> items (links w) = l :: t ->
       exec handleSelectNext w = set_selectedLink (Some l) w)
  ∧ (items (links w) = [] ->
       selectedLink (exec handleSelectNext w) = selectedLink w).
Proof.
  intros Hoff.
  assert (Forall (fun y => is_selected w y = false) (items (links w))) as Hnone.
  { apply Forall_forall. intros y Hy. unfold is_selected.
    destruct (heap w !! y) as [u|] eqn:Hu; [|done].
    destruct (selected_name w) as [n|] eqn:Hn; [|done].
    apply String.eqb_neq. intros Heq. apply (Hoff n eq_refl).
    apply list_elem_of_fmap. exists u. split; [done|].
    apply list_elem_of_omap. by exists y. }
  split_and!.
  - unfold exec, handleSelectPrevious. run_steps.
    by rewrite (findIndex_none _ _ Hnone).
  - intros l0 l t Hs Hitems. unfold exec, handleSelectNext. run_steps.
    rewrite Hs, (findIndex_none _ _ Hnone), Hitems. cbn [length].
    destruct (Z.eqb_spec (-1) (Z.of_nat (S (length t)) - 1)); [lia|].
    reflexivity.
  - intros Hitems. unfold exec, handleSelectNext. run_steps.
    rewrite Hitems. destruct (selectedLink w) eqn:Hs; simpl; by rewrite ?Hs.
Qed.

(** ** Select all *)

Lemma page_values_length w :
  valid w -> length (page_values w) = length (items (links w)).
Proof.
  intros Hvalid. symmetry. eapply Forall2_length. by apply valid_page_values.
Qed.

Lemma handleCheckAllChange_ticked c :
  valid (view c) ->
  handleCheckAllChange true c
  = {| view := set_selectedLinks (link_name <$> page_values (view c)) (view c);
       checkedAll := true |}.
Proof.
  intros Hvalid.
  unfold handleCheckAllChange, selectedLinks_assign, selectedLinks_watcher.
  cbn. f_equal. rewrite length_fmap, page_values_length by done.
  apply Nat.eqb_refl.
Qed.

(** X11. Ticking "select all" selects the names of all links of the
    page the view holds, in page order, whatever the keyword of the
    search is, and leaves the flag on; unticking empties the selection
    and leaves the flag off; nothing else of the view is written. *)
Theorem handleCheckAllChange_selection c :
  valid (view c) ->
  handleCheckAllChange true c
  = {| view := set_selectedLinks (link_name <$> page_values (view c)) (view c);
       checkedAll := true |}
  ∧ handleCheckAllChange false c
    = {| view := set_selectedLinks [] (view c); checkedAll := false |}
  ∧ (forall k, selectedLinks (view (handleCheckAllChange true
                 {| view := set_keyword k (view c); checkedAll := checkedAll c |}))
               = selectedLinks (view (handleCheckAllChange true c)))
  ∧ handleCheckAllChange false (handleCheckAllChange true c)
    = handleCheckAllChange false c.
Proof.
  intros Hvalid.
  pose proof (handleCheckAllChange_ticked c Hvalid) as Htrue.
  split_and!; [done|done|done|].
  rewrite Htrue. unfold handleCheckAllChange. cbn. reflexivity.
Qed.

(** X12. For a selection of distinct names, all on a page of distinctly
    named links, the flag the watcher computes when the selection is
    assigned is on exactly when every link of the page is selected. *)
Theorem checkedAll_iff_all_selected s c :
  valid (view c) ->
  NoDup (link_name <$> page_values (view c)) ->
  NoDup s ->
  (forall n, n ∈ s -> n ∈ link_name <$> page_values (view c)) ->
  checkedAll (selectedLinks_assign s c) = true
  <-> (forall n, n ∈ link_name <$> page_values (view c) -> n ∈ s).
Proof.
  intros Hvalid Hnames Hs Hsub.
  unfold selectedLinks_assign, selectedLinks_watcher. cbn.
  rewrite Nat.eqb_eq, <- page_values_length by done.
  rewrite <- (length_fmap link_name (page_values (view c))).
  assert (s ⊆+ link_name <$> page_values (view c)) as Hsubm
    by (by apply NoDup_submseteq).
  split.
  - intros Hlen n Hn.
    assert (s ≡ₚ link_name <$> page_values (view c)) as Hperm
      by (apply submseteq_length_Permutation; [done|lia]).
    by rewrite Hperm.
  - intros Hall. apply Permutation_length.
    apply NoDup_Permutation; [done|done|]. intros n. split; auto.
Qed.

Lemma filter_members {A} (P : A -> Prop) `{!forall x, Decision (P x)} (l : list A) :
  (forall x, x ∈ l -> P x) -> filter P l = l.
Proof.
  induction l as [|x l IH]; intros HP; [done|].
  rewrite filter_cons_True by (apply HP; apply list_elem_of_here).
  f_equal. apply IH. intros y Hy. apply HP. by apply list_elem_of_further.
Qed.

(** X13. "Select all" followed by an export writes the whole page: one
    record per link of the page, in page order. *)
Theorem select_all_then_export yaml_stringify c :
  (forall v, yaml_stringify v <> "") ->
  valid (view c) ->
  items (links (view c)) <> [] ->
  let selected := view (handleCheckAllChange true c) in
  export_records yaml_stringify selected
  = yaml_stringify <$> page_values (view c)
  ∧ news selected (exec (handleExportSelectedLinks yaml_stringify) selected)
    = [EvDownload "links.yaml" "text/yaml"
         (String.concat separator (yaml_stringify <$> page_values (view c)))].
Proof.
  intros Hne Hvalid Hitems selected.
  assert (selected
          = set_selectedLinks (link_name <$> page_values (view c)) (view c))
    as Hselected.
  { subst selected.
    by rewrite (handleCheckAllChange_ticked c Hvalid). }
  assert (export_records yaml_stringify selected
          = yaml_stringify <$> page_values (view c)) as Hrecords.
  { rewrite export_records_selected by done. rewrite Hselected.
    change (page_values (set_selectedLinks _ (view c))) with (page_values (view c)).
    cbn [selectedLinks set_selectedLinks]. f_equal.
    apply filter_members. intros v Hv.
    apply list_elem_of_fmap. by exists v. }
  split; [done|].
  apply news_app. unfold exec, handleExportSelectedLinks. run_steps.
  replace (items (links selected)) with (items (links (view c)))
    by (by rewrite Hselected).
  destruct (items (links (view c))); [done|]. simpl.
  rewrite export_entries_selected by done. rewrite join_records.
  by rewrite <- export_records_selected, Hrecords by done.
Qed.

(** ** The search view and its index *)

Lemma searchResults_get_ext fuse_match w w' :
  fuse w' = fuse w -> keyword w' = keyword w ->
  items (links w') = items (links w) ->
  searchResults_get fuse_match w' = searchResults_get fuse_match w.
Proof. intros Hf Hk Hi. unfold searchResults_get. by rewrite Hf, Hk, Hi. Qed.

Lemma searchResults_get_keyword fuse_match w f :
  fuse w = Some f -> keyword w <> "" ->
  searchResults_get fuse_match w
  = {| cached_value := fuse_search fuse_match f (keyword w);
       on_links := false; on_keyword := true |}.
Proof.
  intros Hf Hk. unfold searchResults_get. rewrite Hf.
  by destruct (String.eqb_spec (keyword w) "").
Qed.

Lemma searchResults_get_page fuse_match w :
  keyword w = "" ∨ fuse w = None ->
  cached_value (searchResults_get fuse_match w) = items (links w)
  ∧ on_links (searchResults_get fuse_match w) = true.
Proof.
  intros [Hk|Hf]; unfold searchResults_get.
  - rewrite Hk. by destruct (fuse w).
  - by rewrite Hf.
Qed.

Lemma searchResults_refs fuse_match v :
  refs (snd (searchResults fuse_match v)) = refs v.
Proof. unfold searchResults. by destruct (cache v). Qed.

(** A fetch that does not reach the assignment leaves what the getter
    reads as it was; one that does keeps the keyword and leaves an
    index. *)
Lemma fetch_keeps_sources env options w :
  fetch_assigns env w = false ->
  fuse (exec (handleFetchLinks env options) w) = fuse w
  ∧ keyword (exec (handleFetchLinks env options) w) = keyword w
  ∧ items (links (exec (handleFetchLinks env options) w)) = items (links w).
Proof.
  unfold fetch_assigns, exec.
  destruct (membership (selectedGroup w)) as [names|] eqn:Hm.
  - destruct (reply env (issued w)) as [[data|]|] eqn:Hr; [done|..]; intros _;
      rewrite (handleFetchLinks_failed _ _ _ names Hm) by congruence;
      cbn; by rewrite ?items_paged.
  - intros _. rewrite (handleFetchLinks_skipped _ _ _ Hm).
    cbn. by rewrite ?items_paged.
Qed.

Lemma fetch_assigned env options w :
  fetch_assigns env w = true ->
  fuse (exec (handleFetchLinks env options) w) <> None
  ∧ keyword (exec (handleFetchLinks env options) w) = keyword w.
Proof.
  unfold fetch_assigns, exec.
  destruct (membership (selectedGroup w)) as [names|] eqn:Hm; [|done].
  destruct (reply env (issued w)) as [[data|]|] eqn:Hr; [|done..]. intros _.
  by rewrite (handleFetchLinks_fulfilled _ _ _ names data Hm Hr).
Qed.

(** X14. Writing the view and reading it back: the write replaces the
    items of the page and leaves the index alone; without a keyword (or
    before any index exists) the view reads back the sequence that was
    written; with a keyword and an index the view reads after the write
    what it read before it. *)
Theorem searchResults_set_then_get fuse_match value v :
  coherent fuse_match v ->
  let written := view_set value v in
  items (links (refs written)) = value
  ∧ fuse (refs written) = fuse (refs v)
  ∧ (keyword (refs v) = "" ∨ fuse (refs v) = None ->
       fst (searchResults fuse_match written) = value)
  ∧ (keyword (refs v) <> "" -> fuse (refs v) <> None ->
       fst (searchResults fuse_match written)
       = fst (searchResults fuse_match v)).
Proof.
  intros Hv written. subst written. destruct v as [w o].
  unfold coherent in Hv. cbn [cache refs] in *.
  unfold view_set, trigger_links, searchResults. cbn [cache refs].
  destruct o as [c|]; [destruct (on_links c) eqn:Hl|];
    cbn [cache refs fst]; (split_and!; [done|done|..]).
  - intros Hpage.
    by apply (searchResults_get_page fuse_match
                (exec (searchResults_set value) w)) in Hpage as [-> _].
  - intros Hk Hf. destruct (fuse w) as [f|] eqn:Hfuse; [|done].
    rewrite Hv, (searchResults_get_keyword _ _ f Hfuse Hk) in Hl. done.
  - intros [Hk|Hf]; by destruct Hv as (_ & ? & ? & _).
  - done.
  - intros Hpage.
    by apply (searchResults_get_page fuse_match
                (exec (searchResults_set value) w)) in Hpage as [-> _].
  - intros Hk Hf. destruct (fuse w) as [f|] eqn:Hfuse; [|done].
    rewrite (searchResults_get_keyword _ w f Hfuse Hk).
    by rewrite (searchResults_get_keyword _ _ f) by done.
Qed.

(** X25. The cache stays coherent: a read of the view, a keyword
    typed, a write through the view and a fetch, whatever its outcome,
    keep it so.  In a coherent view without a keyword, or before any
    index exists, a read returns the full current page in its order. *)
Theorem view_stays_coherent env fuse_match options kw value v :
  coherent fuse_match v ->
  coherent fuse_match (snd (searchResults fuse_match v))
  ∧ coherent fuse_match (keyword_input kw v)
  ∧ coherent fuse_match (view_set value v)
  ∧ coherent fuse_match (view_fetch env options v)
  ∧ (keyword (refs v) = "" ∨ fuse (refs v) = None ->
       fst (searchResults fuse_match v) = items (links (refs v))).
Proof.
  intros Hv. destruct v as [w o]. unfold coherent in Hv. cbn [cache refs] in *.
  split_and!.
  - unfold searchResults, coherent. cbn [cache refs].
    destruct o as [c|]; [done|]. cbn [snd cache refs].
    destruct (on_links (searchResults_get fuse_match w)) eqn:Hl; [done|].
    unfold searchResults_get in *.
    destruct (fuse w) as [f|]; [|done].
    destruct (String.eqb_spec (keyword w) ""); [done|].
    cbn. split_and!; [done..|]. by exists f.
  - unfold keyword_input. cbn [cache refs].
    destruct (String.eqb_spec kw (keyword w)) as [|Hkw]; [done|].
    unfold trigger_keyword, coherent. cbn [cache refs].
    destruct o as [c|]; [|done].
    destruct (on_keyword c) eqn:Hk; [done|]. cbn [cache refs].
    destruct (on_links c); [|destruct Hv as (? & _); congruence].
    subst c. unfold searchResults_get in *. cbn [fuse keyword links set_keyword].
    destruct (fuse w); [|done].
    by destruct (String.eqb (keyword w) "").
  - unfold view_set, trigger_links, coherent. cbn [cache refs].
    destruct o as [c|]; [|done].
    destruct (on_links c) eqn:Hl; [done|]. cbn [cache refs]. by rewrite Hl.
  - unfold view_fetch. cbn [cache refs].
    destruct (fetch_assigns env w) eqn:Ha.
    + destruct (fetch_assigned env options w Ha) as (Hf & Hk).
      unfold trigger_links, coherent. cbn [cache refs].
      destruct o as [c|]; [|done].
      destruct (on_links c) eqn:Hl; [done|]. cbn [cache refs]. rewrite Hl, Hk.
      destruct Hv as (? & ? & _ & ?). done.
    + destruct (fetch_keeps_sources env options w Ha) as (Hf & Hk & Hi).
      unfold coherent. cbn [cache refs].
      destruct o as [c|]; [|done].
      destruct (on_links c) eqn:Hl.
      * rewrite Hv. symmetry. by apply searchResults_get_ext.
      * by rewrite Hf, Hk.
  - intros Hpage. unfold searchResults. cbn [cache refs].
    destruct o as [c|]; cbn [fst].
    + destruct (on_links c) eqn:Hl.
      * rewrite Hv. by apply searchResults_get_page.
      * destruct Hv as (_ & ? & ? & _). by destruct Hpage.
    + by apply searchResults_get_page.
Qed.

(** X26. A keyword typed on a freshly loaded page makes the getter run
    on that page: every element the view then shows is one of the
    page's own references, so a link written through the view is the
    object the page holds at that position. *)
Theorem searchResults_after_typing env fuse_match options v names data kw :
  coherent fuse_match v ->
  membership (selectedGroup (refs v)) = Some names ->
  reply env (issued (refs v)) = Fulfilled (LinkListPayload data) ->
  kw <> keyword (refs v) ->
  let typed := keyword_input kw (view_fetch env options v) in
  forall l, l ∈ fst (searchResults fuse_match typed) ->
    exists i u,
      items (links (refs typed)) !! i = Some l
      ∧ heap (refs typed) !! l = Some u
      ∧ forall f, page_values (exec (update l f) (refs typed)) !! i = Some (f u).
Proof.
  intros Hv Hm Hr Hkw typed. destruct v as [w o].
  unfold coherent in Hv. cbn [cache refs] in *.
  set (loaded := exec (handleFetchLinks env options) w).
  assert (keyword loaded = keyword w) as Hk by apply handleFetchLinks_frame.
  assert (typed = mount (set_keyword kw loaded)) as ->.
  { subst typed. unfold view_fetch, fetch_assigns. cbn [cache refs].
    rewrite Hm, Hr. fold loaded.
    unfold trigger_links, keyword_input, trigger_keyword.
    destruct o as [c|]; cbn [cache refs];
      [destruct (on_links c) eqn:Hl|];
      cbn [cache refs]; rewrite Hk;
      (destruct (String.eqb_spec kw (keyword w)); [done|]);
      cbn [cache refs]; [done| |done].
    destruct Hv as (-> & _). done. }
  intros l Hl. unfold searchResults, mount in Hl. cbn [cache refs fst] in Hl.
  cbn [refs mount].
  destruct (searchResults_get_on_loaded_page env fuse_match options w
              names data kw Hm Hr) as (_ & Hon).
  destruct (Hon l Hl) as (i & u & Hi & Hu & Hwrite).
  exists i, u. split_and!; [done..|].
  intros f. by destruct (Hwrite f).
Qed.

(** X27. Once the view has been read under a keyword, fetching the page
    again with the keyword kept does not make the getter run: the view
    reads what it read before the fetch, and none of the objects that
    existed before the fetch is on the new page.  Typing another
    keyword makes the getter run again. *)
Theorem searchResults_kept_across_refetch env fuse_match options v names data :
  coherent fuse_match v ->
  keyword (refs v) <> "" -> fuse (refs v) <> None ->
  membership (selectedGroup (refs v)) = Some names ->
  reply env (issued (refs v)) = Fulfilled (LinkListPayload data) ->
  let shown := fst (searchResults fuse_match v) in
  let refetched := view_fetch env options (snd (searchResults fuse_match v)) in
  fst (searchResults fuse_match refetched) = shown
  ∧ (forall l, l ∈ shown -> l < length (heap (refs v)) ->
       l ∉ items (links (refs refetched)))
  ∧ (forall kw, kw <> keyword (refs v) ->
       cache (keyword_input kw refetched) = None).
Proof.
  intros Hv Hk Hf Hm Hr shown refetched. destruct v as [w o].
  unfold coherent in Hv. cbn [cache refs] in *.
  set (loaded := exec (handleFetchLinks env options) w).
  assert (keyword loaded = keyword w) as Hkept by apply handleFetchLinks_frame.
  destruct (fuse w) as [f|] eqn:Hfuse; [|done].
  assert (exists c, snd (searchResults fuse_match {| refs := w; cache := o |})
                    = {| refs := w; cache := Some c |}
                    ∧ cached_value c = shown ∧ on_links c = false
                    ∧ on_keyword c = true) as (c & Hread & Hshown & Hl & Hkey).
  { subst shown. unfold searchResults. cbn [cache refs].
    destruct o as [c|].
    - exists c. cbn [fst snd]. destruct (on_links c) eqn:Hl.
      + rewrite Hv, (searchResults_get_keyword _ _ f Hfuse Hk) in Hl. done.
      + by destruct Hv as (? & _).
    - exists (searchResults_get fuse_match w). cbn [fst snd].
      by rewrite (searchResults_get_keyword _ _ f Hfuse Hk). }
  assert (refetched = {| refs := loaded; cache := Some c |}) as ->.
  { subst refetched. rewrite Hread. unfold view_fetch, fetch_assigns.
    cbn [refs cache]. rewrite Hm, Hr. unfold trigger_links. cbn [cache].
    by rewrite Hl. }
  split_and!.
  - done.
  - intros l _ Hlt Hin. cbn [refs] in Hin. subst loaded. unfold exec in Hin.
    rewrite (handleFetchLinks_fulfilled _ _ _ names data Hm Hr) in Hin.
    cbn in Hin. rewrite array_sort_perm in Hin. apply elem_of_seq in Hin. lia.
  - intros kw Hkw. unfold keyword_input, trigger_keyword. cbn [refs cache].
    rewrite Hkept.
    destruct (String.eqb_spec kw (keyword w)); [done|].
    cbn [cache]. by rewrite Hkey.
Qed.

(** X15. The index of the search is rebuilt only when a fetch replaces
    the page object.  After a fulfilled fetch it is built over exactly
    the page: its documents are the page's items and its records their
    values.  A fetch that fails or is skipped, a change of page or size
    that brings no page, and a write through the view leave the index
    as it was. *)
Theorem fuse_follows_the_fetch env options w :
  let w' := exec (handleFetchLinks env options) w in
  match membership (selectedGroup w), reply env (issued w) with
  | Some _, Fulfilled (LinkListPayload _) =>
      fuse w' = Some {| docs := items (links w'); records := page_values w' |}
  | _, _ => fuse w' = fuse w
  end
  ∧ (forall value, fuse (exec (searchResults_set value) w) = fuse w)
  ∧ (forall p s,
       membership (selectedGroup w) = None
       ∨ (forall data, reply env (issued w) <> Fulfilled (LinkListPayload data)) ->
       fuse (exec (handlePaginationChange env p s) w) = fuse w).
Proof.
  intros w'. subst w'. unfold exec. split_and!.
  - destruct (membership (selectedGroup w)) as [names|] eqn:Hm.
    + destruct (reply env (issued w)) as [[data|]|] eqn:Hr.
      * by rewrite (handleFetchLinks_fulfilled _ _ _ names data Hm Hr).
      * by rewrite (handleFetchLinks_failed _ _ _ names Hm) by congruence.
      * by rewrite (handleFetchLinks_failed _ _ _ names Hm) by congruence.
    + rewrite (handleFetchLinks_skipped _ _ _ Hm).
      by destruct (reply env (issued w)) as [[?|]|].
  - done.
  - intros p s Hnone.
    set (w0 := set_links (with_size (with_page (links w) p) s) w).
    assert (handlePaginationChange env p s w
            = (Ok tt, exec (handleFetchLinks env None) w0)) as ->
      by (unfold handlePaginationChange; run_steps; reflexivity).
    cbn [snd]. unfold exec. destruct Hnone as [Hm|Hr].
    + by rewrite (handleFetchLinks_skipped env None w0 Hm).
    + destruct (membership (selectedGroup w0)) as [names|] eqn:Hm.
      * by rewrite (handleFetchLinks_failed env None w0 names Hm) by apply Hr.
      * by rewrite (handleFetchLinks_skipped env None w0 Hm).
Qed.

(** * The group form *)

Lemma form_news_app m m' evs :
  form_log m' = form_log m ++ evs -> form_news m m' = evs.
Proof. intros H. unfold form_news. rewrite H. by rewrite drop_app_length. Qed.

Lemma handleCreateGroup_log env m :
  form_log (handleCreateGroup env m)
  = form_log m
    ++ FormSaving true
       :: FormSent (form_issued m)
            (if isUpdateMode m
             then PutGroup (group_name (form m)) (form m)
             else PostGroup (form m))
       :: match reply env (form_issued m) with
          | Fulfilled _ =>
              [FormSettled (form_issued m) true;
               FormEmitted (UpdateVisible false); FormEmitted Close]
          | Rejected =>
              [FormSettled (form_issued m) false;
               FormConsoleError "Failed to create link group"
                 (RequestFailed (form_issued m))]
          end
       ++ [FormSaving false].
Proof.
  unfold handleCreateGroup. cbn.
  destruct (reply env (form_issued m)); cbn; rewrite <- !app_assoc; reflexivity.
Qed.

(** X16. Submitting the form sends exactly one request: a PUT to the
    group's own address when the form holds a group with a creation
    timestamp, a POST to the collection otherwise, with the form as
    body.  The form is closed (update:visible false, then close) exactly
    when the request is fulfilled; a rejection is logged and leaves the
    form open; the saving flag is off afterwards in both cases and the
    form's content is not written. *)
Theorem handleCreateGroup_outcome env m :
  let m' := handleCreateGroup env m in
  form_requests (form_news m m')
  = [if isUpdateMode m
     then PutGroup (group_name (form m)) (form m)
     else PostGroup (form m)]
  ∧ (FormEmitted Close ∈ form_news m m'
     <-> reply env (form_issued m) <> Rejected)
  ∧ (FormEmitted (UpdateVisible false) ∈ form_news m m'
     <-> reply env (form_issued m) <> Rejected)
  ∧ ((exists e, FormConsoleError "Failed to create link group" e ∈ form_news m m')
     <-> reply env (form_issued m) = Rejected)
  ∧ saving m' = false
  ∧ form m' = form m
  ∧ initialFormState m' = initialFormState m.
Proof.
  intros m'. subst m'.
  rewrite (form_news_app m _ _ (handleCreateGroup_log env m)).
  assert (saving (handleCreateGroup env m) = false
          ∧ form (handleCreateGroup env m) = form m
          ∧ initialFormState (handleCreateGroup env m) = initialFormState m)
    as (Hsaving & Hform & Hinitial).
  { unfold handleCreateGroup, form. cbn.
    by destruct (reply env (form_issued m)). }
  split_and!; try done.
  - unfold form_requests. by destruct (reply env (form_issued m)).
  - destruct (reply env (form_issued m)); cbn;
      rewrite !elem_of_cons, elem_of_nil; split; intros H;
      [done|auto 10|..].
    + repeat (destruct H as [H|H]; try discriminate H). done.
    + done.
  - destruct (reply env (form_issued m)); cbn;
      rewrite !elem_of_cons, elem_of_nil; split; intros H;
      [done|auto 10|..].
    + repeat (destruct H as [H|H]; try discriminate H). done.
    + done.
  - destruct (reply env (form_issued m)); cbn; split.
    + intros [e H]. rewrite !elem_of_cons, elem_of_nil in H.
      repeat (destruct H as [H|H]; try discriminate H). done.
    + done.
    + done.
    + intros _. eexists. rewrite !elem_of_cons. do 3 right. left. reflexivity.
Qed.

Lemma handleCreateGroup_requests env m :
  form_requests (form_news m (handleCreateGroup env m))
  = [if isUpdateMode m
     then PutGroup (group_name (form m)) (form m)
     else PostGroup (form m)].
Proof.
  rewrite (form_news_app m _ _ (handleCreateGroup_log env m)).
  unfold form_requests. by destruct (reply env (form_issued m)).
Qed.

(** X17. Editing a group that exists on the server: when the form is
    opened on a group with a creation timestamp, a name is typed and
    the form is submitted, the request is a PUT to that group's address
    carrying the group with the new name, membership and priority as
    they were; the group object of the parent is not written (the form
    works on a deep copy). *)
Theorem edit_group_flow env m g s t text :
  creationTimestamp (group_metadata g) = Some t -> t <> "" ->
  group_spec g = Some s ->
  let opened := props_watcher true (Some g) m in
  let typed := input_displayName text opened in
  form_requests (form_news typed (handleCreateGroup env typed))
  = [PutGroup (group_name g)
       {| group_metadata := group_metadata g;
          group_spec := Some {| group_displayName := text;
                                group_priority := group_priority s;
                                group_links := group_links s |} |}]
  ∧ group typed = Some g
  ∧ initialFormState typed = initialFormState m.
Proof.
  intros Ht Hne Hs opened typed. split_and!; [|done|done].
  rewrite handleCreateGroup_requests.
  subst typed opened. unfold isUpdateMode, form, input_displayName,
    props_watcher, with_displayName, cloneDeep, group_name. cbn.
  rewrite Hs. cbn. rewrite Ht.
  by destruct (String.eqb_spec t ""); [|].
Qed.

(** X18. The name of a new group is drawn once per instance of the
    form: when a group is created, the form is closed and opened again
    and a second group is created, both POST requests carry the same
    [metadata.name], the [uuid()] of the setup, whatever happened to
    the first request. *)
Theorem created_groups_share_the_name env1 env2 uuid text1 text2 :
  let first := input_displayName text1 (props_watcher true None (modal_setup uuid)) in
  let saved := handleCreateGroup env1 first in
  let closed := props_watcher false None saved in
  let second := input_displayName text2 (props_watcher true None closed) in
  form_requests (form_news first saved) = [PostGroup (new_group uuid text1)]
  ∧ form_requests (form_news second (handleCreateGroup env2 second))
    = [PostGroup (new_group uuid text2)]
  ∧ group_name (new_group uuid text1) = group_name (new_group uuid text2).
Proof.
  intros first saved closed second. split_and!; [| |done].
  - subst saved. by rewrite handleCreateGroup_requests.
  - rewrite handleCreateGroup_requests. subst second closed saved first.
    unfold handleCreateGroup. cbn.
    by destruct (reply env1 0).
Qed.

(** X19. As long as the watcher on the props has not run, the form is
    the initial object itself: a name typed then is written into the
    initial form, and every later reset of the form starts from that
    name instead of the empty one.  Once the watcher has run, typing
    never writes the initial form again. *)
Theorem typing_before_the_watcher uuid text v :
  let typed := input_displayName text (modal_setup uuid) in
  form (props_watcher v None typed) = new_group uuid text
  ∧ (forall m text', formState m <> None ->
       initialFormState (input_displayName text' m) = initialFormState m).
Proof.
  intros typed. split.
  - by destruct v.
  - intros m text' Hm. unfold input_displayName.
    by destruct (formState m).
Qed.

(** * Import *)

Section ImportFacts.
Context {Doc : Type} (env : Env) (yaml_parse : string -> Result (Parsed Doc)).

Lemma post_each_run docs : forall s : Importing Doc,
  post_each docs s
  = (seq (issued (import_view s)) (length docs),
     {| import_view := set_issued (issued (import_view s) + length docs)
                         (import_view s);
        posted := posted s
                  ++ imap (fun i d => (issued (import_view s) + i, d)) docs |}).
Proof.
  induction docs as [|d docs IH]; intros s.
  - cbn. f_equal. destruct s as [w p]. cbn. f_equal; [|by rewrite app_nil_r].
    apply world_ext; cbn; try reflexivity. lia.
  - cbn [post_each]. unfold post at 1. rewrite IH. cbn. f_equal. f_equal.
    + apply world_ext; cbn; try reflexivity. lia.
    + rewrite <- app_assoc. cbn. f_equal. f_equal.
      * f_equal. lia.
      * apply imap_ext. intros i x _. cbn. f_equal. lia.
Qed.

Lemma in_view_fetch options (s : Importing Doc) :
  in_view (handleFetchLinks env options) s
  = (Ok tt, {| import_view := exec (handleFetchLinks env options) (import_view s);
               posted := posted s |}).
Proof.
  unfold in_view, exec.
  pose proof (proj1 (handleFetchLinks_summary env options (import_view s))) as Hok.
  unfold outcome in Hok.
  destruct (handleFetchLinks env options (import_view s)) as [r w]. cbn in *.
  by subst.
Qed.

(** X20. Importing a file that parses to a sequence of K records sends
    K create requests, one per record, in order, before any answer is
    waited for; whatever is rejected, the requests already sent stay
    sent, the first rejection is logged, the page is refetched and the
    handler completes normally. *)
Theorem handleImportFromYaml_sequence text docs (s : Importing Doc) :
  text <> "" ->
  yaml_parse text = Ok (ParsedArray docs) ->
  let run := handleImportFromYaml env yaml_parse (Some text) s in
  let w := import_view s in
  fst run = Ok tt
  ∧ posted (snd run) = posted s ++ imap (fun i d => (issued w + i, d)) docs
  ∧ length (posted (snd run)) = length (posted s) + length docs
  ∧ news w (import_view (snd run))
    = settle_news env (seq (issued w) (length docs))
      ++ fetch_news env None (set_issued (issued w + length docs) w).
Proof.
  intros Hne Hparse run w. subst run.
  unfold handleImportFromYaml, import_body.
  destruct (String.eqb_spec text ""); [done|]. rewrite Hparse.
  rewrite post_each_run. fold w.
  unfold in_view at 1 2. cbn [import_view posted].
  unfold await_all, settle_news.
  set (ids := seq (issued w) (length docs)).
  destruct (first_rejection env ids) as [j|]; run_steps;
    rewrite in_view_fetch; cbn [fst snd import_view posted];
    (split_and!; [done|done|by rewrite length_app, length_imap|]);
    apply news_app;
    match goal with
    | |- context [exec (handleFetchLinks env None) ?x] =>
        destruct (handleFetchLinks_summary env None x) as (_ & -> & _)
    end; cbn; rewrite <- ?app_assoc; reflexivity.
Qed.

(** X21. Importing a file that parses to anything but a sequence sends
    one create request with the parsed value and waits for it; a
    rejection is logged; the page is refetched and the handler
    completes normally. *)
Theorem handleImportFromYaml_single text doc (s : Importing Doc) :
  text <> "" ->
  yaml_parse text = Ok (ParsedOther doc) ->
  let run := handleImportFromYaml env yaml_parse (Some text) s in
  let w := import_view s in
  fst run = Ok tt
  ∧ posted (snd run) = posted s ++ [(issued w, doc)]
  ∧ news w (import_view (snd run))
    = match reply env (issued w) with
      | Fulfilled _ => [EvSettled (issued w) true]
      | Rejected => [EvSettled (issued w) false;
                     EvConsoleError None (RequestFailed (issued w))]
      end
      ++ fetch_news env None (set_issued (S (issued w)) w).
Proof.
  intros Hne Hparse run w. subst run.
  unfold handleImportFromYaml, import_body.
  destruct (String.eqb_spec text ""); [done|]. rewrite Hparse.
  unfold post. fold w. unfold in_view at 1 2. cbn [import_view posted].
  run_steps.
  destruct (reply env (issued w)); run_steps;
    rewrite in_view_fetch; cbn [fst snd import_view posted];
    (split_and!; [done|done|]);
    apply news_app;
    match goal with
    | |- context [exec (handleFetchLinks env None) ?x] =>
        destruct (handleFetchLinks_summary env None x) as (_ & -> & _)
    end; cbn; rewrite <- ?app_assoc; reflexivity.
Qed.

(** X22. When there is nothing to import (no file text, or an empty
    one) or the text does not parse, no create request is sent; the
    parse error is logged; in every one of these cases the page is
    still refetched and the handler completes normally. *)
Theorem handleImportFromYaml_nothing data (s : Importing Doc) :
  let run := handleImportFromYaml env yaml_parse data s in
  let w := import_view s in
  (data = None ∨ data = Some "" ->
     fst run = Ok tt ∧ posted (snd run) = posted s
     ∧ news w (import_view (snd run)) = fetch_news env None w)
  ∧ (forall text e, data = Some text -> text <> "" ->
       yaml_parse text = Throw e ->
       fst run = Ok tt ∧ posted (snd run) = posted s
       ∧ news w (import_view (snd run))
         = EvConsoleError None e :: fetch_news env None w).
Proof.
  intros run w. subst run. split.
  - intros Hdata.
    assert (import_body env yaml_parse data s = (Ok tt, s)) as Hbody
      by (destruct Hdata as [-> | ->]; reflexivity).
    unfold handleImportFromYaml. rewrite Hbody, in_view_fetch.
    cbn [fst snd import_view posted]. split_and!; [done|done|].
    apply handleFetchLinks_news.
  - intros text e -> Hne Hparse.
    unfold handleImportFromYaml, import_body.
    destruct (String.eqb_spec text ""); [done|]. rewrite Hparse.
    unfold in_view at 1. run_steps. rewrite in_view_fetch.
    cbn [fst snd import_view posted]. split_and!; [done|done|].
    apply news_app.
    match goal with
    | |- context [exec (handleFetchLinks env None) ?x] =>
        destruct (handleFetchLinks_summary env None x) as (_ & -> & _)
    end. cbn. rewrite <- ?app_assoc. reflexivity.
Qed.

End ImportFacts.

(** * Saving a link, again *)

Lemma onLinkSaved_news_fulfilled env link w g s ms p :
  selectedGroup w = Some g -> group_spec g = Some s -> group_links s = Some ms ->
  reply env (issued w) = Fulfilled p ->
  exists rest,
    news w (exec (onLinkSaved env link) w)
    = EvRequest (issued w) (replace_group (with_member g s ms (link_name link)))
      :: EvSettled (issued w) true
      :: EvRequest (S (issued w)) groups_request :: rest.
Proof.
  intros Hg Hs Hms Hp.
  pose proof (onLinkSaved_with_membership env link w g s ms Hg Hs Hms) as Hrun.
  cbv zeta in Hrun. unfold exec in Hrun.
  rewrite handleFetchGroups_run, Hp in Hrun. cbn [snd] in Hrun.
  unfold exec at 1. rewrite Hrun.
  match goal with
  | |- context [handleFetchLinks env None ?x] =>
      destruct (handleFetchLinks_summary env None x) as (_ & Htr & _)
  end.
  unfold exec in Htr. eexists. apply news_app. rewrite Htr. cbn.
  rewrite <- !app_assoc. unfold groups_news. cbn. reflexivity.
Qed.

(** X23. With a group selected, saving a link lists the groups again
    exactly when the group has a membership sequence and the replacing
    write was fulfilled: without the sequence, or after a rejected
    write, no list request leaves the handler. *)
Theorem onLinkSaved_lists_only_after_the_write env link w g :
  selectedGroup w = Some g ->
  (exists id, EvRequest id groups_request ∈ news w (exec (onLinkSaved env link) w))
  <-> (exists ms p, membership (Some g) = Some ms
                    ∧ reply env (issued w) = Fulfilled p).
Proof.
  intros Hg. destruct (membership (Some g)) as [ms|] eqn:Hm.
  - simpl in Hm. destruct (group_spec g) as [s|] eqn:Hs; [|discriminate].
    destruct (reply env (issued w)) as [p|] eqn:Hp.
    + split; [intros _; by exists ms, p|]. intros _.
      destruct (onLinkSaved_news_fulfilled env link w g s ms p Hg Hs Hm Hp)
        as (rest & ->).
      exists (S (issued w)). rewrite !elem_of_cons. auto.
    + split; [|by intros (? & ? & _ & ?)]. intros (id & Hin).
      destruct (onLinkSaved_write_rejected env link w g s ms Hg Hs Hm Hp)
        as (_ & Hnews).
      rewrite Hnews in Hin.
      apply elem_of_cons in Hin as [Hin|Hin]; [by inversion Hin|].
      apply elem_of_cons in Hin as [Hin|Hin]; [by inversion Hin|].
      by apply elem_of_nil in Hin.
  - split; [|by intros (? & ? & ? & _)]. intros (id & Hin).
    destruct (onLinkSaved_without_membership env link w g Hg Hm) as (msg & Hrun).
    unfold exec in Hin. rewrite Hrun in Hin. unfold news in Hin. cbn [snd] in Hin.
    rewrite drop_all in Hin. by apply elem_of_nil in Hin.
Qed.

(** * Concrete runs of the rest *)

Lemma sample_page_valid : valid sample_page.
Proof. by_evaluation. Defined.

Lemma sample_page_values :
  Forall2 (fun l v => heap sample_page !! l = Some v)
    (items (links sample_page)) (page_values sample_page).
Proof. repeat constructor. Defined.

Lemma sample_names_distinct : NoDup (link_name <$> page_values sample_page).
Proof. by_evaluation. Defined.

Lemma handleFetchLinks_keeps_the_rest_witness :
  valid sample_page
  ∧ valid (exec (handleFetchLinks (rejecting 1 sample_env) None) sample_page)
  ∧ take 3 (heap (exec (handleFetchLinks sample_env None) sample_page))
    = heap sample_page.
Proof.
  split; [exact sample_page_valid|]. split.
  - exact (proj1 (handleFetchLinks_keeps_the_rest (rejecting 1 sample_env) None
                    sample_page sample_page_valid)).
  - exact (proj1 (proj2 (handleFetchLinks_keeps_the_rest sample_env None
                           sample_page sample_page_valid))).
Defined.

Lemma handleFetchLinks_page_is_fresh_witness :
  membership (selectedGroup (sample_selected 2)) = Some ["a"; "b"; "c"]
  ∧ reply sample_env (issued (sample_selected 2)) = Fulfilled (LinkListPayload sample_data)
  ∧ selectedLink (exec (handleFetchLinks sample_env None) (sample_selected 2))
    = Some 2
  ∧ 2 ∉ items (links (exec (handleFetchLinks sample_env None) (sample_selected 2))).
Proof.
  split; [reflexivity|]. split; [reflexivity|].
  destruct (handleFetchLinks_page_is_fresh sample_env None (sample_selected 2)
              ["a"; "b"; "c"] sample_data eq_refl eq_refl) as (_ & _ & Hsel).
  destruct (Hsel 2 eq_refl) as (H1 & H2 & _); [simpl; lia|].
  split; [exact H1|exact H2].
Defined.

Lemma handleFetchLinks_page_values_witness :
  membership (selectedGroup sample_start) = Some ["a"; "b"; "c"]
  ∧ reply sample_env (issued sample_start) = Fulfilled (LinkListPayload sample_data)
  ∧ page_values (exec (handleFetchLinks sample_env None) sample_start)
    = [sample_link "b" (Some 0%Z); sample_link "a" (Some 1%Z);
       sample_link "c" (Some 1%Z)].
Proof.
  split; [reflexivity|]. split; [reflexivity|].
  rewrite (handleFetchLinks_page_values sample_env None sample_start
             ["a"; "b"; "c"] sample_data eq_refl eq_refl).
  reflexivity.
Defined.

Lemma handleFetchLinks_keeps_sorted_answer_witness :
  membership (selectedGroup sample_start) = Some ["a"; "b"; "c"]
  ∧ reply sample_sorted_env (issued sample_start)
    = Fulfilled (LinkListPayload sample_sorted_data)
  ∧ StronglySorted (fun a b => (sort_key a <= sort_key b)%Z)
      (items sample_sorted_data)
  ∧ items (links (exec (handleFetchLinks sample_sorted_env None) sample_start))
    = [0; 1; 2].
Proof.
  assert (StronglySorted (fun a b => (sort_key a <= sort_key b)%Z)
            (items sample_sorted_data)) as Hsorted by by_evaluation.
  split; [reflexivity|]. split; [reflexivity|]. split; [exact Hsorted|].
  exact (proj2 (handleFetchLinks_keeps_sorted_answer sample_sorted_env None
                  sample_start ["a"; "b"; "c"] sample_sorted_data
                  eq_refl eq_refl Hsorted)).
Defined.

Lemma sample_dragged_objects :
  Forall2 (fun l v => heap sample_page !! l = Some v) [2; 0]
    [sample_link "c" (Some 1%Z); sample_link "a" (Some 1%Z)].
Proof. repeat constructor. Defined.

Lemma sample_dragged_distinct : NoDup [2; 0].
Proof. by_evaluation. Defined.

Lemma reorder_touches_only_the_sequence_witness :
  NoDup [2; 0]
  ∧ Forall2 (fun l v => heap sample_page !! l = Some v) [2; 0]
      [sample_link "c" (Some 1%Z); sample_link "a" (Some 1%Z)]
  ∧ heap (exec (reorder (rejecting 3 sample_env) [2; 0]) sample_page) !! 1
    = Some (sample_link "b" (Some 0%Z))
  ∧ items (links (exec (reorder (rejecting 3 sample_env) [2; 0]) sample_page))
    = [2; 0].
Proof.
  split; [exact sample_dragged_distinct|]. split; [exact sample_dragged_objects|].
  destruct (reorder_touches_only_the_sequence (rejecting 3 sample_env) [2; 0]
              _ sample_page sample_dragged_distinct sample_dragged_objects)
    as (Hout & _ & Hpage).
  split.
  - rewrite (Hout 1); [reflexivity|by_evaluation|simpl; lia].
  - apply Hpage. right. intros data. discriminate.
Defined.

Lemma navigation_steps_witness :
  Forall2 (fun l v => heap (sample_selected 0) !! l = Some v)
    (items (links (sample_selected 0))) (page_values sample_page)
  ∧ NoDup (link_name <$> page_values sample_page)
  ∧ page_values sample_page !! 1 = Some (sample_link "a" (Some 1%Z))
  ∧ selected_name (sample_selected 0) = Some "a"
  ∧ selectedLink (exec handleSelectPrevious (sample_selected 0)) = Some 1
  ∧ selectedLink (exec handleSelectNext (sample_selected 0)) = Some 2.
Proof.
  split; [exact sample_page_values|]. split; [exact sample_names_distinct|].
  split; [reflexivity|]. split; [reflexivity|].
  destruct (navigation_steps (sample_selected 0) (page_values sample_page) 1
              (sample_link "a" (Some 1%Z)) sample_page_values
              sample_names_distinct eq_refl eq_refl) as (Hprevious & Hnext).
  split; [by rewrite Hprevious|by rewrite Hnext].
Defined.

Lemma navigation_round_trip_witness :
  Forall2 (fun l v => heap (sample_selected 0) !! l = Some v)
    (items (links (sample_selected 0))) (page_values sample_page)
  ∧ NoDup (link_name <$> page_values sample_page)
  ∧ items (links (sample_selected 0)) !! 1 = Some 0
  ∧ page_values sample_page !! 1 = Some (sample_link "a" (Some 1%Z))
  ∧ selected_name (sample_selected 0) = Some "a"
  ∧ exec handleSelectPrevious (exec handleSelectNext (sample_selected 0))
    = sample_selected 0
  ∧ exec handleSelectNext (exec handleSelectPrevious (sample_selected 0))
    = sample_selected 0.
Proof.
  split; [exact sample_page_values|]. split; [exact sample_names_distinct|].
  split; [reflexivity|]. split; [reflexivity|]. split; [reflexivity|].
  destruct (navigation_round_trip (sample_selected 0) (page_values sample_page)
              1 0 (sample_link "a" (Some 1%Z)) sample_page_values
              sample_names_distinct eq_refl eq_refl eq_refl) as (Hforth & Hback).
  split; [apply Hforth; simpl; lia|apply Hback; lia].
Defined.

Lemma navigation_off_the_page_witness :
  (forall n, selected_name sample_narrowed = Some n ->
     n ∉ link_name <$> page_values sample_narrowed)
  ∧ selected_name sample_narrowed = Some "a"
  ∧ selectedLink (exec handleSelectPrevious sample_narrowed) = None
  ∧ selectedLink (exec handleSelectNext sample_narrowed) = Some 1.
Proof.
  assert (forall n, selected_name sample_narrowed = Some n ->
            n ∉ link_name <$> page_values sample_narrowed) as Hoff.
  { intros n Hn. injection Hn as <-. by_evaluation. }
  split; [exact Hoff|]. split; [reflexivity|].
  destruct (navigation_off_the_page sample_narrowed Hoff) as (Hprevious & Hnext & _).
  split; [by rewrite Hprevious|].
  by rewrite (Hnext 0 1 [2] eq_refl eq_refl).
Defined.

Lemma handleCheckAllChange_selection_witness :
  valid (view sample_checked)
  ∧ selectedLinks (view (handleCheckAllChange true sample_checked)) = ["b"; "a"; "c"]
  ∧ checkedAll (handleCheckAllChange true sample_checked) = true
  ∧ selectedLinks (view (handleCheckAllChange false
                           (handleCheckAllChange true sample_checked))) = [].
Proof.
  split; [exact sample_page_valid|].
  destruct (handleCheckAllChange_selection sample_checked sample_page_valid)
    as (Hon & Hoff & _ & Hboth).
  split; [by rewrite Hon|]. split; [by rewrite Hon|]. by rewrite Hboth, Hoff.
Defined.

Lemma checkedAll_iff_all_selected_witness :
  valid (view sample_checked)
  ∧ NoDup (link_name <$> page_values (view sample_checked))
  ∧ NoDup ["c"; "a"]
  ∧ (forall n, n ∈ ["c"; "a"] -> n ∈ link_name <$> page_values (view sample_checked))
  ∧ checkedAll (selectedLinks_assign ["c"; "a"] sample_checked) = false
  ∧ ~ (forall n, n ∈ link_name <$> page_values (view sample_checked) ->
         n ∈ ["c"; "a"]).
Proof.
  assert (NoDup ["c"; "a"]) as Hsel by by_evaluation.
  assert (forall n, n ∈ ["c"; "a"] ->
            n ∈ link_name <$> page_values (view sample_checked)) as Hsub.
  { intros n Hn. apply elem_of_cons in Hn as [->|Hn]; [by_evaluation|].
    apply elem_of_cons in Hn as [->|Hn]; [by_evaluation|].
    by apply elem_of_nil in Hn. }
  split; [exact sample_page_valid|]. split; [exact sample_names_distinct|].
  split; [exact Hsel|]. split; [exact Hsub|]. split; [reflexivity|].
  intros Hall.
  apply (checkedAll_iff_all_selected ["c"; "a"] sample_checked
           sample_page_valid sample_names_distinct Hsel Hsub) in Hall.
  discriminate Hall.
Defined.

Lemma select_all_then_export_witness :
  (forall v, sample_stringify v <> "")
  ∧ valid (view sample_checked)
  ∧ items (links (view sample_checked)) <> []
  ∧ export_records sample_stringify (view (handleCheckAllChange true sample_checked))
    = [sample_stringify (sample_link "b" (Some 0%Z));
       sample_stringify (sample_link "a" (Some 1%Z));
       sample_stringify (sample_link "c" (Some 1%Z))].
Proof.
  assert (items (links (view sample_checked)) <> []) as Hitems by discriminate.
  split; [exact sample_stringify_not_empty|]. split; [exact sample_page_valid|].
  split; [exact Hitems|].
  rewrite (proj1 (select_all_then_export sample_stringify sample_checked
                    sample_stringify_not_empty sample_page_valid Hitems)).
  reflexivity.
Defined.

Lemma edit_group_flow_witness :
  creationTimestamp (group_metadata sample_stored_group)
  = Some "2022-09-30T08:00:00Z"
  ∧ "2022-09-30T08:00:00Z" <> ""
  ∧ form_requests
      (form_news
         (input_displayName "Family"
            (props_watcher true (Some sample_stored_group) (modal_setup "u-1")))
         (handleCreateGroup sample_env
            (input_displayName "Family"
               (props_watcher true (Some sample_stored_group) (modal_setup "u-1")))))
    = [PutGroup "friends"
         {| group_metadata := group_metadata sample_stored_group;
            group_spec := Some {| group_displayName := "Family";
                                  group_priority := Some 0%Z;
                                  group_links := Some ["a"; "b"; "c"] |} |}].
Proof.
  assert ("2022-09-30T08:00:00Z" <> "") as Hne by discriminate.
  split; [reflexivity|]. split; [exact Hne|].
  exact (proj1 (edit_group_flow sample_env (modal_setup "u-1") sample_stored_group
                  _ _ "Family" eq_refl Hne eq_refl)).
Defined.

Lemma handleImportFromYaml_sequence_witness :
  "[]" <> ""
  ∧ sample_parse "[]" = Ok (ParsedArray ["first"; "second"])
  ∧ posted (snd (handleImportFromYaml (rejecting 1 sample_env) sample_parse
                   (Some "[]") sample_import))
    = [(1, "first"); (2, "second")]
  ∧ fst (handleImportFromYaml (rejecting 1 sample_env) sample_parse
           (Some "[]") sample_import) = Ok tt.
Proof.
  assert ("[]" <> "") as Hne by discriminate.
  split; [exact Hne|]. split; [reflexivity|].
  destruct (handleImportFromYaml_sequence (rejecting 1 sample_env) sample_parse
              "[]" ["first"; "second"] sample_import Hne eq_refl)
    as (Hok & Hposted & _).
  split; [exact Hposted|exact Hok].
Defined.

Lemma handleImportFromYaml_single_witness :
  "name: a" <> ""
  ∧ sample_parse "name: a" = Ok (ParsedOther "name: a")
  ∧ posted (snd (handleImportFromYaml sample_env sample_parse
                   (Some "name: a") sample_import))
    = [(1, "name: a")].
Proof.
  assert ("name: a" <> "") as Hne by discriminate.
  split; [exact Hne|]. split; [reflexivity|].
  exact (proj1 (proj2 (handleImportFromYaml_single sample_env sample_parse
                         "name: a" "name: a" sample_import Hne eq_refl))).
Defined.

Lemma onLinkSaved_lists_only_after_the_write_witness :
  selectedGroup sample_page = Some (sample_group (Some ["a"; "b"; "c"]))
  ∧ EvRequest 2 groups_request
    ∈ news sample_page (exec (onLinkSaved sample_env (sample_link "d" None)) sample_page)
  ∧ ~ (exists id, EvRequest id groups_request
                  ∈ news sample_page
                      (exec (onLinkSaved (rejecting 1 sample_env)
                               (sample_link "d" None)) sample_page)).
Proof.
  split; [reflexivity|]. split; [vm_compute; repeat constructor|].
  intros Hlisted.
  apply (onLinkSaved_lists_only_after_the_write (rejecting 1 sample_env)
           (sample_link "d" None) sample_page
           (sample_group (Some ["a"; "b"; "c"])) eq_refl) in Hlisted.
  destruct Hlisted as (ms & p & _ & Hp). discriminate Hp.
Defined.

Lemma sample_typed_coherent :
  coherent sample_match (keyword_input "c" (mount sample_page)).
Proof. vm_compute. exact I. Defined.

Lemma sample_typed_keyword : keyword (refs (keyword_input "c" (mount sample_page))) <> "".
Proof. vm_compute. discriminate. Defined.

Lemma sample_typed_index : fuse (refs (keyword_input "c" (mount sample_page))) <> None.
Proof. vm_compute. discriminate. Defined.

Lemma searchResults_set_then_get_witness :
  coherent sample_match (mount sample_page)
  ∧ keyword (refs (mount sample_page)) = ""
  ∧ fst (searchResults sample_match (view_set [2; 0] (mount sample_page))) = [2; 0]
  ∧ coherent sample_match (keyword_input "c" (mount sample_page))
  ∧ keyword (refs (keyword_input "c" (mount sample_page))) <> ""
  ∧ fuse (refs (keyword_input "c" (mount sample_page))) <> None
  ∧ items (links (refs (view_set [0; 2] (keyword_input "c" (mount sample_page)))))
    = [0; 2]
  ∧ fst (searchResults sample_match
           (view_set [0; 2] (keyword_input "c" (mount sample_page))))
    = [2].
Proof.
  split; [exact I|]. split; [reflexivity|]. split.
  - destruct (searchResults_set_then_get sample_match [2; 0] (mount sample_page) I)
      as (_ & _ & Hback & _).
    apply Hback. by left.
  - split; [exact sample_typed_coherent|]. split; [exact sample_typed_keyword|].
    split; [exact sample_typed_index|].
    destruct (searchResults_set_then_get sample_match [0; 2]
                (keyword_input "c" (mount sample_page)) sample_typed_coherent)
      as (Hitems & _ & _ & Hsame).
    split; [exact Hitems|].
    rewrite (Hsame sample_typed_keyword sample_typed_index).
    vm_compute. reflexivity.
Defined.

Lemma view_stays_coherent_witness :
  coherent sample_match (mount sample_page)
  ∧ keyword (refs (mount sample_page)) = ""
  ∧ coherent sample_match
      (view_fetch (rejecting 1 sample_env) None (mount sample_page))
  ∧ coherent sample_match (keyword_input "c" (mount sample_page))
  ∧ fst (searchResults sample_match (mount sample_page)) = [1; 0; 2].
Proof.
  split; [exact I|]. split; [reflexivity|].
  destruct (view_stays_coherent (rejecting 1 sample_env) sample_match None "c"
              [2; 0] (mount sample_page) I) as (_ & Htyped & _ & Hfetched & Hpage).
  split; [exact Hfetched|]. split; [exact Htyped|].
  rewrite Hpage; [reflexivity|by left].
Defined.

Lemma searchResults_after_typing_witness :
  coherent sample_match (mount sample_start)
  ∧ membership (selectedGroup (refs (mount sample_start))) = Some ["a"; "b"; "c"]
  ∧ reply sample_env (issued (refs (mount sample_start)))
    = Fulfilled (LinkListPayload sample_data)
  ∧ "c" <> keyword (refs (mount sample_start))
  ∧ fst (searchResults sample_match
           (keyword_input "c" (view_fetch sample_env None (mount sample_start))))
    = [2]
  ∧ exists i u,
      items (links (refs (keyword_input "c"
                            (view_fetch sample_env None (mount sample_start))))) !! i
      = Some 2
      ∧ heap (refs (keyword_input "c"
                      (view_fetch sample_env None (mount sample_start)))) !! 2
        = Some u.
Proof.
  assert ("c" <> keyword (refs (mount sample_start))) as Hkw by discriminate.
  split; [exact I|]. split; [reflexivity|]. split; [reflexivity|].
  split; [exact Hkw|]. split; [vm_compute; reflexivity|].
  destruct (searchResults_after_typing sample_env sample_match None
              (mount sample_start) ["a"; "b"; "c"] sample_data "c"
              I eq_refl eq_refl Hkw 2) as (i & u & Hi & Hu & _).
  - vm_compute. constructor.
  - exists i, u. by split.
Defined.

Lemma searchResults_kept_across_refetch_witness :
  coherent sample_match (keyword_input "c" (mount sample_page))
  ∧ keyword (refs (keyword_input "c" (mount sample_page))) <> ""
  ∧ fuse (refs (keyword_input "c" (mount sample_page))) <> None
  ∧ fst (searchResults sample_match (keyword_input "c" (mount sample_page))) = [2]
  ∧ fst (searchResults sample_match
           (view_fetch sample_env None
              (snd (searchResults sample_match
                      (keyword_input "c" (mount sample_page))))))
    = [2]
  ∧ (2 ∉ items (links (refs (view_fetch sample_env None
                               (snd (searchResults sample_match
                                       (keyword_input "c" (mount sample_page)))))))).
Proof.
  split; [exact sample_typed_coherent|]. split; [exact sample_typed_keyword|].
  split; [exact sample_typed_index|]. split; [vm_compute; reflexivity|].
  destruct (searchResults_kept_across_refetch sample_env sample_match None
              (keyword_input "c" (mount sample_page)) ["a"; "b"; "c"] sample_data
              sample_typed_coherent sample_typed_keyword sample_typed_index
              eq_refl eq_refl) as (Hkept & Hoff & _).
  split.
  - rewrite Hkept. vm_compute. reflexivity.
  - apply Hoff; [vm_compute; constructor|vm_compute; lia].
Defined.

Lemma fuse_follows_the_fetch_witness :
  (forall data, reply (rejecting 1 sample_env) (issued sample_page)
                <> Fulfilled (LinkListPayload data))
  ∧ fuse (exec (handlePaginationChange (rejecting 1 sample_env) 2 10) sample_page)
    = fuse sample_page
  ∧ fuse (exec (handleFetchLinks sample_env None) sample_page)
    = Some {| docs := [4; 3; 5];
              records := [sample_link "b" (Some 0%Z); sample_link "a" (Some 1%Z);
                          sample_link "c" (Some 1%Z)] |}.
Proof.
  assert (forall data, reply (rejecting 1 sample_env) (issued sample_page)
                       <> Fulfilled (LinkListPayload data)) as Hfails
    by (intros data; discriminate).
  split; [exact Hfails|]. split.
  - destruct (fuse_follows_the_fetch (rejecting 1 sample_env) None sample_page)
      as (_ & _ & Hpage).
    apply Hpage. by right.
  - pose proof (proj1 (fuse_follows_the_fetch sample_env None sample_page)) as Hbuilt.
    cbv zeta in Hbuilt.
    change (membership (selectedGroup sample_page)) with (Some ["a"; "b"; "c"]) in Hbuilt.
    change (reply sample_env (issued sample_page))
      with (Fulfilled (LinkListPayload sample_data)) in Hbuilt.
    cbv iota in Hbuilt. rewrite Hbuilt. reflexivity.
Defined.

Lemma typing_before_the_watcher_witness :
  formState (props_watcher true None (modal_setup "u-1")) <> None
  ∧ form (props_watcher true None (input_displayName "Friends" (modal_setup "u-1")))
    = new_group "u-1" "Friends"
  ∧ initialFormState
      (input_displayName "Friends" (props_watcher true None (modal_setup "u-1")))
    = new_group "u-1" "".
Proof.
  assert (formState (props_watcher true None (modal_setup "u-1")) <> None)
    as Hown by discriminate.
  split; [exact Hown|].
  destruct (typing_before_the_watcher "u-1" "Friends" true) as (Hfirst & Hlater).
  split; [exact Hfirst|].
  rewrite (Hlater _ "Friends" Hown). reflexivity.
Defined.

Lemma handleImportFromYaml_nothing_witness :
  "!" <> ""
  ∧ sample_parse "!" = Throw (TypeError "YAMLParseError")
  ∧ posted (snd (handleImportFromYaml sample_env sample_parse (Some "!")
                   sample_import)) = []
  ∧ fst (handleImportFromYaml sample_env sample_parse (Some "!") sample_import)
    = Ok tt
  ∧ posted (snd (handleImportFromYaml sample_env sample_parse None
                   sample_import)) = [].
Proof.
  assert ("!" <> "") as Hne by discriminate.
  split; [exact Hne|]. split; [reflexivity|].
  destruct (handleImportFromYaml_nothing sample_env sample_parse (Some "!")
              sample_import) as (_ & Hbad).
  destruct (Hbad "!" _ eq_refl Hne eq_refl) as (Hok & Hposted & _).
  split; [exact Hposted|]. split; [exact Hok|].
  destruct (handleImportFromYaml_nothing sample_env sample_parse None
              sample_import) as (Hnone & _).
  destruct Hnone as (_ & Hkept & _); [by left|]. exact Hkept.
Defined.
